(** * relations_visualization: the graph model builder of [js/data-processor.js]

    A shallow embedding of the [DataProcessor] class: the two input arrays
    (tag records and relation records), the node and link arrays it builds,
    its colour map and relation map, and the tenant projection.

    Conventions of the embedding.
    - A JavaScript string is a [string]; each character stands for one code
      unit (the model covers code units below 256).
    - A JavaScript number is a double.  The numbers of this module are the
      results of [parseInt] and the ids of the relation records: a [number]
      is [NaN], an infinity, or an integer, kept as a [Z].  [parseInt] rounds
      the integer it reads to the nearest double, and a number is printed as
      the language prints a double.  Negative zero is identified with zero
      (the two are the same [Map] key and print alike).  The [id] of a
      relation record is the integer [JSON.parse] produced for it.
    - [Map] and [Set] keep insertion order, as in JavaScript, and are lists.
    - The fields of [this] and the console are threaded through a small
      state-and-exception monad. *)

From Stdlib Require Import List String Ascii ZArith Arith Bool Lia.
From Stdlib Require Import DecimalString Sorting.Sorted OrderedTypeEx.
From Stdlib Require DecimalZ DecimalPos.
Import ListNotations.

Local Open Scope string_scope.
Local Open Scope list_scope.

(** ** JavaScript built-ins used by the module *)

Module JS.

(** A number: NaN, plus or minus infinity ([Infinity true] is the negative
    one), or an integer that a double holds. *)
Inductive number : Type :=
| NaN : number
| Infinity : bool -> number
| Num : Z -> number.

(** SameValueZero on numbers, the equality of [Map] and [Set] keys. *)
Definition number_eqb (a b : number) : bool :=
  match a, b with
  | NaN, NaN => true
  | Infinity x, Infinity y => Bool.eqb x y
  | Num x, Num y => Z.eqb x y
  | _, _ => false
  end.

(** The double nearest to a natural number [a], ties to the even
    significand: the 53 leading bits of [a] are kept, the rest rounded. *)
Definition roundTiesToEven (a : Z) : Z :=
  let shift := (Z.log2 a - 52)%Z in
  if (shift <=? 0)%Z then a
  else
    let q := Z.shiftr a shift in
    let r := (a - Z.shiftl q shift)%Z in
    let half := Z.shiftl 1 (shift - 1) in
    let q' := if (half <? r)%Z || ((r =? half)%Z && Z.odd q)
              then (q + 1)%Z else q in
    Z.shiftl q' shift.

(** The Number value of a mathematical integer: the nearest double, an
    infinity from 2^1024 on. *)
Definition toNumber (x : Z) : number :=
  let a := roundTiesToEven (Z.abs x) in
  if (1024 <=? Z.log2 a)%Z then Infinity (x <? 0)%Z
  else Num (Z.sgn x * a)%Z.

(** White space and line terminators stripped by [parseInt]. *)
Definition isWhiteSpace (c : ascii) : bool :=
  let n := nat_of_ascii c in
  (n =? 9)%nat || (n =? 10)%nat || (n =? 11)%nat || (n =? 12)%nat
  || (n =? 13)%nat || (n =? 32)%nat || (n =? 160)%nat.

Fixpoint trimStart (s : string) : string :=
  match s with
  | String c r => if isWhiteSpace c then trimStart r else s
  | EmptyString => s
  end.

(** Value of a character as a digit: 0-9, then a-z and A-Z for 10-35. *)
Definition digitValue (c : ascii) : option Z :=
  let n := Z.of_nat (nat_of_ascii c) in
  if (48 <=? n)%Z && (n <=? 57)%Z then Some (n - 48)%Z
  else if (97 <=? n)%Z && (n <=? 122)%Z then Some (n - 87)%Z
  else if (65 <=? n)%Z && (n <=? 90)%Z then Some (n - 55)%Z
  else None.

(** Value of the longest prefix of [s] made of digits of the radix;
    [acc] is [None] until a digit has been read. *)
Fixpoint digitsPrefix (radix : Z) (s : string) (acc : option Z) : option Z :=
  match s with
  | String c r =>
      match digitValue c with
      | Some d =>
          if (d <? radix)%Z
          then digitsPrefix radix r
                 (Some (radix * match acc with Some a => a | None => 0 end + d)%Z)
          else acc
      | None => acc
      end
  | EmptyString => acc
  end.

(** [parseInt(s)] with no radix argument: leading white space, a sign, a
    [0x] prefix, then the longest run of digits of the radix; the integer
    read is converted to a Number.  All digits are read (the language
    allows an engine to take the decimal digits after the twentieth as
    zeros). *)
Definition parseInt (s : string) : number :=
  let s1 := trimStart s in
  let '(sign, s2) :=
    match s1 with
    | String "-" r => ((-1)%Z, r)
    | String "+" r => (1%Z, r)
    | _ => (1%Z, s1)
    end in
  let '(radix, s3) :=
    match s2 with
    | String "0" (String "x" r) => (16%Z, r)
    | String "0" (String "X" r) => (16%Z, r)
    | _ => (10%Z, s2)
    end in
  match digitsPrefix radix s3 None with
  | None => NaN
  | Some m => toNumber (sign * m)%Z
  end.

(** All the decimal digits of an integer, with its sign. *)
Definition decimal (n : Z) : string :=
  NilZero.string_of_int (Z.to_int n).

(** The shortest decimal numeral that reads back as the double [a]: the
    multiple of the largest power of ten, at most [10 ^ p], that rounds to
    [a]; of the two multiples around [a] the nearer one, the even one on a
    tie. *)
Fixpoint shortestFrom (a : Z) (p : nat) : Z :=
  let unit := (10 ^ Z.of_nat p)%Z in
  let lo := (a / unit * unit)%Z in
  let hi := (lo + unit)%Z in
  let okLo := number_eqb (toNumber lo) (Num a) in
  let okHi := number_eqb (toNumber hi) (Num a) in
  if okLo && okHi then
    if (a - lo <? hi - a)%Z then lo
    else if (hi - a <? a - lo)%Z then hi
    else if Z.even (a / unit) then lo else hi
  else if okLo then lo
  else if okHi then hi
  else match p with
       | O => a
       | S p' => shortestFrom a p'
       end.

Definition shortest (a : Z) : Z :=
  shortestFrom a (String.length (decimal a) - 1).

(** A digit string without its trailing zeros. *)
Fixpoint stripZeros (s : string) : string :=
  match s with
  | String c r =>
      match stripZeros r with
      | EmptyString =>
          if Ascii.eqb c "0" then EmptyString else String c EmptyString
      | r' => String c r'
      end
  | EmptyString => EmptyString
  end.

(** The exponent form [d.ddde+n] of a positive integer [v]. *)
Definition exponential (v : Z) : string :=
  let digits := decimal v in
  let e := decimal (Z.of_nat (String.length digits - 1)) in
  match stripZeros digits with
  | String c EmptyString => String c ("e+" ++ e)
  | String c r => String c ("." ++ r ++ "e+" ++ e)
  | EmptyString => digits
  end.

(** [String(n)] and [`${n}`] for an integer double [n]: the digits of the
    shortest numeral that reads back as [n], filled with zeros below 10^21,
    in exponent form from there on. *)
Definition numberToString (n : Z) : string :=
  let v := shortest (Z.abs n) in
  if (v <? 10 ^ 21)%Z then decimal (Z.sgn n * v)
  else ((if (n <? 0)%Z then "-" else "") ++ exponential v)%string.

(** [s.split(sep)] for a one-character separator: never empty. *)
Fixpoint split (sep : ascii) (s : string) : list string :=
  match s with
  | EmptyString => [EmptyString]
  | String c r =>
      if Ascii.eqb c sep then EmptyString :: split sep r
      else match split sep r with
           | p :: ps => String c p :: ps
           | [] => [String c EmptyString]
           end
  end.

(** [a.includes(x)] on an array of strings. *)
Definition includes (x : string) (a : list string) : bool :=
  existsb (String.eqb x) a.

(** [Map]: keys in insertion order; [set] on a present key keeps its place. *)
Section MapSet.
Context {K V : Type} (eqb : K -> K -> bool).

Definition Map : Type := list (K * V).

Fixpoint get (k : K) (m : Map) : option V :=
  match m with
  | [] => None
  | (k', v) :: r => if eqb k k' then Some v else get k r
  end.

Definition has (k : K) (m : Map) : bool :=
  match get k m with Some _ => true | None => false end.

Fixpoint set (k : K) (v : V) (m : Map) : Map :=
  match m with
  | [] => [(k, v)]
  | (k', v') :: r => if eqb k k' then (k, v) :: r else (k', v') :: set k v r
  end.

Definition keys (m : Map) : list K := map fst m.
Definition values (m : Map) : list V := map snd m.

(** [Set]: members in insertion order. *)
Definition SetOf : Type := list K.

Definition mem (k : K) (s : SetOf) : bool := existsb (eqb k) s.

Definition add (k : K) (s : SetOf) : SetOf :=
  if mem k s then s else s ++ [k].
End MapSet.

Arguments Map : clear implicits.
Arguments SetOf : clear implicits.

(** [new Set(a)] and [[...new Set(a)]]: the distinct entries of [a] in the
    order of their first occurrence. *)
Definition setFrom {K : Type} (eqb : K -> K -> bool) (a : list K) : SetOf K :=
  fold_left (fun s k => add eqb k s) a [].

(** [a.sort()] on an array of strings: the default comparison orders strings
    by their code units.  The engine's algorithm is not fixed by the language;
    insertion into a sorted prefix is used here (any algorithm agrees with it
    on arrays without repeated entries). *)
Fixpoint insertSorted (x : string) (l : list string) : list string :=
  match l with
  | [] => [x]
  | y :: r => if String.leb x y then x :: l else y :: insertSorted x r
  end.

Definition sort (a : list string) : list string :=
  fold_right insertSorted [] a.

End JS.

(** ** Data model *)

(** A JSON value; relation conditions and directions are carried through
    without being inspected. *)
#[warnings="-register-all"]
Inductive json : Type :=
| JNull : json
| JBool : bool -> json
| JNumber : Z -> json
| JString : string -> json
| JArray : list json -> json
| JObject : list (string * json) -> json.

(** A record of [semantic_all_edge_tag.json]. *)
Module Tag.
Record t : Type := mk {
  tag_id : string;
  tag_name : string;
  src_dataset : string;
  dst_dataset : string;
  relation_ids : list string;
  tenant_id : string;
  is_deleted : bool
}.
End Tag.

(** A record of [semantic_dm_table_relation_def.json]. *)
Module Relation.
Record t : Type := mk {
  id : Z;
  src_table : string;
  dst_table : string;
  type : string;
  direction : json;
  condition : json
}.
End Relation.

(** A node of the graph: one table. *)
Module Node.
Record t : Type := mk {
  id : string;
  name : string;
  type : string;
  relations : list Z
}.
End Node.

(** A link of the graph: one relation, with the tags that use it. *)
Module Link.
Record t : Type := mk {
  id : string;
  source : Node.t;
  target : Node.t;
  relationId : JS.number;
  tagIds : list string;
  tagNames : list string;
  color : option string;
  type : string;
  direction : json;
  condition : json;
  srcTable : string;
  dstTable : string;
  offset : nat
}.
End Link.

(** The fields of a [DataProcessor] object. *)
Record DataProcessor : Type := mkDataProcessor {
  tags : list Tag.t;
  relations : list Relation.t;
  nodes : list Node.t;
  links : list Link.t;
  colorMap : JS.Map string string;
  relationMap : JS.Map JS.number Relation.t
}.

(** What [getAllData] and [getDataByTenant] return. *)
Record GraphData : Type := mkGraphData {
  gd_nodes : list Node.t;
  gd_links : list Link.t;
  gd_colorMap : JS.Map string string
}.

(** What [loadData] returns. *)
Record LoadedData : Type := mkLoadedData {
  ld_nodes : list Node.t;
  ld_links : list Link.t;
  ld_colorMap : JS.Map string string;
  ld_tags : list Tag.t;
  ld_relations : list Relation.t
}.

(** ** Effects: exceptions, the console, the fields of [this] *)

Inductive Error : Type :=
| FetchRejected : Error                  (* fetch() itself rejects *)
| TagsLoadError : nat -> Error           (* !tagsResponse.ok *)
| RelationsLoadError : nat -> Error      (* !relationsResponse.ok *)
| JsonSyntaxError : Error                (* response.json() rejects *)
| TypeError : Error.                     (* property read on undefined *)

Inductive Level : Type := LOG | WARN | ERROR.

Inductive Message : Type :=
| MsgLoadingTags
| MsgTagsLoaded (n : nat)
| MsgLoadingRelations
| MsgRelationsLoaded (n : nat)
| MsgRelationsTotal (n : nat)
| MsgRelationMapSize (n : nat)
| MsgRelationIdList (ks : list JS.number)
| MsgBuildLinksStart (n : nat)
| MsgRelationNotFound (relationId : string) (numeric : JS.number)
| MsgAvailableRelationIds (ks : list JS.number)
| MsgRelationEdge (relationId srcTable dstTable : string)
| MsgNodeNotFound (srcTable dstTable : string)
| MsgLoadFailed (e : Error).

Definition Console : Type := list (Level * Message).

Record World : Type := mkWorld {
  this : DataProcessor;
  console : Console
}.

Inductive Completion (A : Type) : Type :=
| Normal : A -> World -> Completion A
| Throw : Error -> World -> Completion A.
Arguments Normal {A} _ _.
Arguments Throw {A} _ _.

Definition M (A : Type) : Type := World -> Completion A.

Definition ret {A} (a : A) : M A := fun w => Normal a w.

Definition bind {A B} (c : M A) (k : A -> M B) : M B :=
  fun w => match c w with
           | Normal a w' => k a w'
           | Throw e w' => Throw e w'
           end.

Declare Scope js_scope.
Delimit Scope js_scope with js.
Notation "x <- c ;; k" := (bind c (fun x => k))
  (at level 61, c at next level, right associativity) : js_scope.
Notation "c ;; k" := (bind c (fun _ => k))
  (at level 61, right associativity) : js_scope.
Local Open Scope js_scope.

Definition throw {A} (e : Error) : M A := fun w => Throw e w.

Definition tryCatch {A} (c : M A) (handler : Error -> M A) : M A :=
  fun w => match c w with
           | Normal a w' => Normal a w'
           | Throw e w' => handler e w'
           end.

Definition gets {A} (field : DataProcessor -> A) : M A :=
  fun w => Normal (field (this w)) w.

Definition modify (f : DataProcessor -> DataProcessor) : M unit :=
  fun w => Normal tt (mkWorld (f (this w)) (console w)).

Definition consoleWrite (l : Level) (m : Message) : M unit :=
  fun w => Normal tt (mkWorld (this w) (console w ++ [(l, m)])).

(** Assignments to the fields of [this]. *)
Definition with_tags (v : list Tag.t) (d : DataProcessor) : DataProcessor :=
  mkDataProcessor v (relations d) (nodes d) (links d) (colorMap d)
    (relationMap d).
Definition with_relations (v : list Relation.t) (d : DataProcessor)
  : DataProcessor :=
  mkDataProcessor (tags d) v (nodes d) (links d) (colorMap d) (relationMap d).
Definition with_nodes (v : list Node.t) (d : DataProcessor) : DataProcessor :=
  mkDataProcessor (tags d) (relations d) v (links d) (colorMap d)
    (relationMap d).
Definition with_links (v : list Link.t) (d : DataProcessor) : DataProcessor :=
  mkDataProcessor (tags d) (relations d) (nodes d) v (colorMap d)
    (relationMap d).
Definition with_colorMap (v : JS.Map string string) (d : DataProcessor)
  : DataProcessor :=
  mkDataProcessor (tags d) (relations d) (nodes d) (links d) v (relationMap d).
Definition with_relationMap (v : JS.Map JS.number Relation.t)
    (d : DataProcessor) : DataProcessor :=
  mkDataProcessor (tags d) (relations d) (nodes d) (links d) (colorMap d) v.

Definition set_tags (v : list Tag.t) : M unit := modify (with_tags v).
Definition set_relations (v : list Relation.t) : M unit :=
  modify (with_relations v).
Definition set_nodes (v : list Node.t) : M unit := modify (with_nodes v).
Definition set_links (v : list Link.t) : M unit := modify (with_links v).
Definition set_colorMap (v : JS.Map string string) : M unit :=
  modify (with_colorMap v).
Definition set_relationMap (v : JS.Map JS.number Relation.t) : M unit :=
  modify (with_relationMap v).

(** [a.forEach(f)]. *)
Fixpoint forEach {A} (a : list A) (f : A -> M unit) : M unit :=
  match a with
  | [] => ret tt
  | x :: r => f x ;; forEach r f
  end.

(** [a.forEach(f)] where the callback updates variables it captured; their
    values are passed from one call to the next. *)
Fixpoint forEachWith {A L} (a : list A) (f : A -> L -> M L) (l : L) : M L :=
  match a with
  | [] => ret l
  | x :: r => l' <- f x l ;; forEachWith r f l'
  end.

(** [a.forEach((x, index) => ...)]. *)
Fixpoint forEachIndexed {A} (a : list A) (index : nat) (f : A -> nat -> M unit)
  : M unit :=
  match a with
  | [] => ret tt
  | x :: r => f x index ;; forEachIndexed r (S index) f
  end.

(** ** The class [DataProcessor] *)

(** [constructor()]. *)
Definition newDataProcessor : DataProcessor :=
  mkDataProcessor [] [] [] [] [] [].

(** The outcome of [fetch(url)] followed by [response.json()], as the
    environment decides it. *)
Inductive Fetched (A : Type) : Type :=
| Rejected : Fetched A            (* the request itself fails *)
| NotOk : nat -> Fetched A        (* response.ok is false; the status *)
| BadJson : Fetched A             (* the body does not parse *)
| Json : A -> Fetched A.
Arguments Rejected {A}.
Arguments NotOk {A} _.
Arguments BadJson {A}.
Arguments Json {A} _.

(** The palette of [assignColors]. *)
Definition colors : list string :=
  [ "#FF6B6B"; "#4ECDC4"; "#45B7D1"; "#96CEB4"; "#FFEAA7";
    "#DDA0DD"; "#98D8C8"; "#F7DC6F"; "#BB8FCE"; "#85C1E9";
    "#F8C471"; "#82E0AA"; "#F1948A"; "#85C1E9"; "#D7BDE2";
    "#A9DFBF"; "#F9E79F"; "#D5A6BD"; "#A3E4D7"; "#FADBD8" ].

(** [extractTableName(fullTableName)]: the part after the last dot. *)
Definition extractTableName (fullTableName : string) : string :=
  let parts := JS.split "." fullTableName in
  last parts "".

(** [assignColors()]. *)
Definition assignColors : M unit :=
  ts <- gets tags ;;
  let uniqueTags := JS.setFrom String.eqb (map Tag.tag_name ts) in
  forEachIndexed uniqueTags 0 (fun tagName index =>
    cm <- gets colorMap ;;
    set_colorMap
      (JS.set String.eqb tagName
         (nth (index mod List.length colors) colors "") cm)).

(** [nodeMap.get(table).relations.push(id)]: the node object held by the map
    gets one more relation id; reading [relations] of a missing entry is a
    TypeError. *)
Definition pushRelation (table : string) (relationId : Z)
    (nodeMap : JS.Map string Node.t) : M (JS.Map string Node.t) :=
  match JS.get String.eqb table nodeMap with
  | Some node =>
      ret (JS.set String.eqb table
             (Node.mk (Node.id node) (Node.name node) (Node.type node)
                (Node.relations node ++ [relationId]))
             nodeMap)
  | None => throw TypeError
  end.

(** The callback of [this.relations.forEach] in [buildNodes]. *)
Definition nodeBody (relation : Relation.t) (nodeMap : JS.Map string Node.t)
  : M (JS.Map string Node.t) :=
  let srcTable := extractTableName (Relation.src_table relation) in
  let dstTable := extractTableName (Relation.dst_table relation) in
  let nodeMap :=
    if JS.has String.eqb srcTable nodeMap then nodeMap
    else JS.set String.eqb srcTable (Node.mk srcTable srcTable "table" [])
           nodeMap in
  let nodeMap :=
    if JS.has String.eqb dstTable nodeMap then nodeMap
    else JS.set String.eqb dstTable (Node.mk dstTable dstTable "table" [])
           nodeMap in
  nodeMap <- pushRelation srcTable (Relation.id relation) nodeMap ;;
  pushRelation dstTable (Relation.id relation) nodeMap.

(** [buildNodes()]. *)
Definition buildNodes : M unit :=
  rels <- gets relations ;;
  nodeMap <- forEachWith rels nodeBody [] ;;
  set_nodes (JS.values nodeMap).

(** The variables captured by the callbacks of [buildLinks]. *)
Record Locals : Type := mkLocals {
  processedRelations : JS.SetOf JS.number;
  edgeCounts : JS.Map string nat
}.

(** [`relation-${numericRelationId}`]. *)
Definition linkId (numericRelationId : JS.number) : string :=
  ("relation-" ++ match numericRelationId with
                  | JS.Num n => JS.numberToString n
                  | JS.Infinity false => "Infinity"
                  | JS.Infinity true => "-Infinity"
                  | JS.NaN => "NaN"
                  end)%string.

(** The offset block of [buildLinks]: the offset of the new edge and the
    updated counters, from the key of the edge and the key of its reverse. *)
Definition edgeOffset (edgeKey reverseEdgeKey : string)
    (edgeCounts : JS.Map string nat) : nat * JS.Map string nat :=
  match JS.get String.eqb edgeKey edgeCounts with
  | Some offset => (offset, JS.set String.eqb edgeKey (offset + 1) edgeCounts)
  | None =>
      match JS.get String.eqb reverseEdgeKey edgeCounts with
      | Some offset =>
          (offset, JS.set String.eqb reverseEdgeKey (offset + 1) edgeCounts)
      | None => (0, JS.set String.eqb edgeKey 1 edgeCounts)
      end
  end.

(** The callback of [relationIds.forEach] in [buildLinks]; each [return] of
    the source leaves the captured variables as they are. *)
Definition linkBody (tag : Tag.t) (relationId : string) (loc : Locals)
  : M Locals :=
  let numericRelationId := JS.parseInt relationId in
  if JS.mem JS.number_eqb numericRelationId (processedRelations loc)
  then ret loc
  else
    rm <- gets relationMap ;;
    match JS.get JS.number_eqb numericRelationId rm with
    | None =>
        consoleWrite WARN (MsgRelationNotFound relationId numericRelationId) ;;
        consoleWrite WARN (MsgAvailableRelationIds (JS.keys rm)) ;;
        ret loc
    | Some relation =>
        let srcTable := extractTableName (Relation.src_table relation) in
        let dstTable := extractTableName (Relation.dst_table relation) in
        consoleWrite LOG (MsgRelationEdge relationId srcTable dstTable) ;;
        ns <- gets nodes ;;
        match find (fun node => String.eqb (Node.id node) srcTable) ns,
              find (fun node => String.eqb (Node.id node) dstTable) ns with
        | Some srcNode, Some dstNode =>
            let edgeKey := (srcTable ++ "-" ++ dstTable)%string in
            let reverseEdgeKey := (dstTable ++ "-" ++ srcTable)%string in
            let '(offset, counts) :=
              edgeOffset edgeKey reverseEdgeKey (edgeCounts loc) in
            ts <- gets tags ;;
            let relatedTags :=
              filter (fun t => negb (Tag.is_deleted t)
                               && JS.includes relationId (Tag.relation_ids t))
                ts in
            match relatedTags with
            | [] => throw TypeError            (* primaryTag is undefined *)
            | primaryTag :: _ =>
                cm <- gets colorMap ;;
                let tagColor := JS.get String.eqb (Tag.tag_name primaryTag) cm in
                let link :=
                  Link.mk (linkId numericRelationId) srcNode dstNode
                    numericRelationId
                    (map Tag.tag_id relatedTags)
                    (map Tag.tag_name relatedTags)
                    tagColor
                    (Relation.type relation)
                    (Relation.direction relation)
                    (Relation.condition relation)
                    (Relation.src_table relation)
                    (Relation.dst_table relation)
                    offset in
                ls <- gets links ;;
                set_links (ls ++ [link]) ;;
                ret (mkLocals
                       (JS.add JS.number_eqb numericRelationId
                          (processedRelations loc))
                       counts)
            end
        | _, _ =>
            consoleWrite WARN (MsgNodeNotFound srcTable dstTable) ;;
            ret loc
        end
    end.

(** The callback of [this.tags.forEach] in [buildLinks]. *)
Definition tagBody (tag : Tag.t) (loc : Locals) : M Locals :=
  if Tag.is_deleted tag then ret loc
  else forEachWith (Tag.relation_ids tag) (linkBody tag) loc.

(** [buildLinks()]. *)
Definition buildLinks : M unit :=
  set_links [] ;;
  ts <- gets tags ;;
  consoleWrite LOG (MsgBuildLinksStart (List.length ts)) ;;
  _ <- forEachWith ts tagBody (mkLocals [] []) ;;
  ret tt.

(** [processData()]. *)
Definition processData : M unit :=
  rels <- gets relations ;;
  consoleWrite LOG (MsgRelationsTotal (List.length rels)) ;;
  forEach rels (fun relation =>
    rm <- gets relationMap ;;
    set_relationMap
      (JS.set JS.number_eqb (JS.Num (Relation.id relation)) relation rm)) ;;
  rm <- gets relationMap ;;
  consoleWrite LOG (MsgRelationMapSize (List.length rm)) ;;
  consoleWrite LOG (MsgRelationIdList (JS.keys rm)) ;;
  assignColors ;;
  buildNodes ;;
  buildLinks.

(** One [await fetch(...)] with its [ok] test and [await response.json()]. *)
Definition awaitJson {A} (notOk : nat -> Error) (r : Fetched A) : M A :=
  match r with
  | Rejected => throw FetchRejected
  | NotOk status => throw (notOk status)
  | BadJson => throw JsonSyntaxError
  | Json a => ret a
  end.

(** [loadData()], given what the two fetches produce. *)
Definition loadData (tagsResponse : Fetched (list Tag.t))
    (relationsResponse : Fetched (list Relation.t)) : M LoadedData :=
  tryCatch
    (consoleWrite LOG MsgLoadingTags ;;
     tagsJson <- awaitJson TagsLoadError tagsResponse ;;
     set_tags tagsJson ;;
     consoleWrite LOG (MsgTagsLoaded (List.length tagsJson)) ;;
     consoleWrite LOG MsgLoadingRelations ;;
     relationsJson <- awaitJson RelationsLoadError relationsResponse ;;
     set_relations relationsJson ;;
     consoleWrite LOG (MsgRelationsLoaded (List.length relationsJson)) ;;
     processData ;;
     d <- gets (fun d => d) ;;
     ret (mkLoadedData (nodes d) (links d) (colorMap d) (tags d) (relations d)))
    (fun error =>
       consoleWrite ERROR (MsgLoadFailed error) ;;
       throw error).

(** [getAllData()]. *)
Definition getAllData : M GraphData :=
  d <- gets (fun d => d) ;;
  ret (mkGraphData (nodes d) (links d) (colorMap d)).

(** Truthiness of an optional string argument: [undefined] and the empty
    string are falsy. *)
Definition truthy (s : option string) : bool :=
  match s with
  | None => false
  | Some x => negb (String.eqb x "")
  end.

(** The defined entries of an array, [a.filter(x => x)] on objects. *)
Fixpoint defined {A} (a : list (option A)) : list A :=
  match a with
  | [] => []
  | Some x :: r => x :: defined r
  | None :: r => defined r
  end.

(** [getDataByTenant(tenantId)]; [None] is a call without argument. *)
Definition getDataByTenant (tenantId : option string) : M GraphData :=
  if negb (truthy tenantId) then getAllData
  else
    ts <- gets tags ;;
    let filteredTags :=
      filter (fun tag => negb (Tag.is_deleted tag)
                         && match tenantId with
                            | Some x => String.eqb (Tag.tenant_id tag) x
                            | None => false
                            end) ts in
    let relatedRelationIds :=
      fold_left (fun s tag =>
                   fold_left (fun s id =>
                                JS.add JS.number_eqb (JS.parseInt id) s)
                     (Tag.relation_ids tag) s)
        filteredTags [] in
    rm <- gets relationMap ;;
    let filteredRelations :=
      defined (map (fun id => JS.get JS.number_eqb id rm) relatedRelationIds) in
    let relatedTables :=
      fold_left (fun s relation =>
                   JS.add String.eqb
                     (extractTableName (Relation.dst_table relation))
                     (JS.add String.eqb
                        (extractTableName (Relation.src_table relation)) s))
        filteredRelations [] in
    ns <- gets nodes ;;
    let filteredNodes :=
      filter (fun node => JS.mem String.eqb (Node.id node) relatedTables) ns in
    ls <- gets links ;;
    let filteredLinks :=
      filter (fun link =>
                JS.mem JS.number_eqb (Link.relationId link) relatedRelationIds)
        ls in
    cm <- gets colorMap ;;
    ret (mkGraphData filteredNodes filteredLinks cm).

(** [getAvailableTenants()]. *)
Definition getAvailableTenants : M (list string) :=
  ts <- gets tags ;;
  let tenants :=
    fold_left (fun s tag =>
                 if negb (Tag.is_deleted tag)
                    && negb (String.eqb (Tag.tenant_id tag) "")
                 then JS.add String.eqb (Tag.tenant_id tag) s
                 else s)
      ts [] in
  ret (JS.sort tenants).

(** ** Running the builder *)

(** The world right after [new DataProcessor()]. *)
Definition initialWorld : World := mkWorld newDataProcessor [].

(** The world in which [processData()] starts: the two arrays are stored. *)
Definition loadedWorld (ts : list Tag.t) (rels : list Relation.t) : World :=
  mkWorld (mkDataProcessor ts rels [] [] [] []) [].

(** The final world of a computation, whichever way it completes. *)
Definition worldOf {A} (c : Completion A) : World :=
  match c with
  | Normal _ w => w
  | Throw _ w => w
  end.

(** The world after [processData()] has run on two arrays. *)
Definition builtWorld (ts : list Tag.t) (rels : list Relation.t) : World :=
  worldOf (processData (loadedWorld ts rels)).

(** The model built from two arrays: the object after [processData()]. *)
Definition build (ts : list Tag.t) (rels : list Relation.t) : DataProcessor :=
  this (builtWorld ts rels).

(** ** Notions used in the statements *)

(** The distinct entries of a list, each at the place of its first
    occurrence. *)
Fixpoint distinct {K : Type} (eqb : K -> K -> bool) (l : list K) : list K :=
  match l with
  | [] => []
  | x :: r => x :: filter (fun y => negb (eqb y x)) (distinct eqb r)
  end.

(** The colour map that gives the [i]-th name of a list the palette entry
    [(index + i) mod 20]. *)
Fixpoint paint (names : list string) (index : nat) : JS.Map string string :=
  match names with
  | [] => []
  | n :: r => (n, nth (index mod List.length colors) colors "") :: paint r (S index)
  end.

(** The colour map after the loop of [assignColors] has run over [names],
    starting at [index], on the map [cm]. *)
Fixpoint paintOver (names : list string) (index : nat)
    (cm : JS.Map string string) : JS.Map string string :=
  match names with
  | [] => cm
  | n :: r =>
      paintOver r (S index)
        (JS.set String.eqb n (nth (index mod List.length colors) colors "") cm)
  end.

(** The relation map after the first loop of [processData] has run over
    [rels] on the map [rm]. *)
Definition relationMapFrom (rels : list Relation.t)
    (rm : JS.Map JS.number Relation.t) : JS.Map JS.number Relation.t :=
  fold_left (fun rm r => JS.set JS.number_eqb (JS.Num (Relation.id r)) r rm)
    rels rm.

(** The tags collected for an edge in [buildLinks]: the non-deleted tags
    whose [relation_ids] include the string [relationId]. *)
Definition relatedTagsOf (ts : list Tag.t) (relationId : string) : list Tag.t :=
  filter (fun t => negb (Tag.is_deleted t)
                   && JS.includes relationId (Tag.relation_ids t)) ts.

(** The link object created in [buildLinks] for the entry [relationId]. *)
Definition newLink (d : DataProcessor) (relationId : string)
    (relation : Relation.t) (srcNode dstNode : Node.t) (offset : nat)
  : Link.t :=
  let related := relatedTagsOf (tags d) relationId in
  Link.mk (linkId (JS.parseInt relationId)) srcNode dstNode
    (JS.parseInt relationId)
    (map Tag.tag_id related) (map Tag.tag_name related)
    match related with
    | primaryTag :: _ => JS.get String.eqb (Tag.tag_name primaryTag) (colorMap d)
    | [] => None
    end
    (Relation.type relation) (Relation.direction relation)
    (Relation.condition relation)
    (Relation.src_table relation) (Relation.dst_table relation) offset.

(** One call of the inner callback of [buildLinks], as a step from the
    captured variables and the world before it to those after it. *)
Inductive LinkStep (relationId : string) (loc : Locals) (w : World)
  : Locals -> World -> Prop :=
| LinkStep_seen :
    JS.mem JS.number_eqb (JS.parseInt relationId) (processedRelations loc)
    = true ->
    LinkStep relationId loc w loc w
| LinkStep_missing :
    JS.mem JS.number_eqb (JS.parseInt relationId) (processedRelations loc)
    = false ->
    JS.get JS.number_eqb (JS.parseInt relationId) (relationMap (this w))
    = None ->
    LinkStep relationId loc w loc
      (mkWorld (this w)
         (console w
          ++ [(WARN, MsgRelationNotFound relationId (JS.parseInt relationId));
              (WARN, MsgAvailableRelationIds
                       (JS.keys (relationMap (this w))))]))
| LinkStep_no_node : forall relation,
    JS.mem JS.number_eqb (JS.parseInt relationId) (processedRelations loc)
    = false ->
    JS.get JS.number_eqb (JS.parseInt relationId) (relationMap (this w))
    = Some relation ->
    find (fun node => String.eqb (Node.id node)
                        (extractTableName (Relation.src_table relation)))
      (nodes (this w)) = None
    \/ find (fun node => String.eqb (Node.id node)
                           (extractTableName (Relation.dst_table relation)))
         (nodes (this w)) = None ->
    LinkStep relationId loc w loc
      (mkWorld (this w)
         (console w
          ++ [(LOG, MsgRelationEdge relationId
                      (extractTableName (Relation.src_table relation))
                      (extractTableName (Relation.dst_table relation)));
              (WARN, MsgNodeNotFound
                       (extractTableName (Relation.src_table relation))
                       (extractTableName (Relation.dst_table relation)))]))
| LinkStep_emit : forall relation srcNode dstNode offset counts,
    JS.mem JS.number_eqb (JS.parseInt relationId) (processedRelations loc)
    = false ->
    JS.get JS.number_eqb (JS.parseInt relationId) (relationMap (this w))
    = Some relation ->
    find (fun node => String.eqb (Node.id node)
                        (extractTableName (Relation.src_table relation)))
      (nodes (this w)) = Some srcNode ->
    find (fun node => String.eqb (Node.id node)
                        (extractTableName (Relation.dst_table relation)))
      (nodes (this w)) = Some dstNode ->
    relatedTagsOf (tags (this w)) relationId <> [] ->
    edgeOffset
      (extractTableName (Relation.src_table relation) ++ "-"
       ++ extractTableName (Relation.dst_table relation))%string
      (extractTableName (Relation.dst_table relation) ++ "-"
       ++ extractTableName (Relation.src_table relation))%string
      (edgeCounts loc) = (offset, counts) ->
    LinkStep relationId loc w
      (mkLocals (processedRelations loc ++ [JS.parseInt relationId]) counts)
      (mkWorld
         (with_links
            (links (this w)
             ++ [newLink (this w) relationId relation srcNode dstNode offset])
            (this w))
         (console w
          ++ [(LOG, MsgRelationEdge relationId
                      (extractTableName (Relation.src_table relation))
                      (extractTableName (Relation.dst_table relation)))])).

(** The calls of the inner callback over a sequence of entries. *)
Inductive LinkSteps : list string -> Locals -> World -> Locals -> World -> Prop :=
| LinkSteps_nil : forall loc w, LinkSteps [] loc w loc w
| LinkSteps_cons : forall relationId rest loc w loc1 w1 loc2 w2,
    LinkStep relationId loc w loc1 w1 ->
    LinkSteps rest loc1 w1 loc2 w2 ->
    LinkSteps (relationId :: rest) loc w loc2 w2.

(** The entries [buildLinks] visits, in order: the [relation_ids] of the
    non-deleted tags. *)
Definition visited (ts : list Tag.t) : list string :=
  flat_map (fun t => if Tag.is_deleted t then [] else Tag.relation_ids t) ts.

(** Two worlds with the same inputs of [buildLinks]: every field of [this]
    but [links]. *)
Definition sameInputs (w w' : World) : Prop :=
  tags (this w') = tags (this w)
  /\ relations (this w') = relations (this w)
  /\ nodes (this w') = nodes (this w)
  /\ colorMap (this w') = colorMap (this w)
  /\ relationMap (this w') = relationMap (this w).

(** Every node of a node map is stored under its own [id]. *)
Definition nodeMapOK (nodeMap : JS.Map string Node.t) : Prop :=
  Forall (fun kv => Node.id (snd kv) = fst kv) nodeMap.

(** The console once [processData], started in [w], reaches the loop of
    [buildLinks]. *)
Definition startConsole (w : World) : Console :=
  (((console w
     ++ [(LOG, MsgRelationsTotal (List.length (relations (this w))))])
    ++ [(LOG, MsgRelationMapSize
                (List.length
                   (relationMapFrom (relations (this w))
                      (relationMap (this w)))))])
   ++ [(LOG, MsgRelationIdList
               (JS.keys
                  (relationMapFrom (relations (this w))
                     (relationMap (this w)))))])
  ++ [(LOG, MsgBuildLinksStart (List.length (tags (this w))))].

(** A link is well formed in a model: it is the link [buildLinks] creates
    for some entry [relationId] whose relation and end nodes are found. *)
Definition LinkOK (d : DataProcessor) (e : Link.t) : Prop :=
  exists relationId relation,
    e = newLink d relationId relation (Link.source e) (Link.target e)
          (Link.offset e)
    /\ JS.get JS.number_eqb (JS.parseInt relationId) (relationMap d)
       = Some relation
    /\ find (fun node => String.eqb (Node.id node)
                           (extractTableName (Relation.src_table relation)))
         (nodes d) = Some (Link.source e)
    /\ find (fun node => String.eqb (Node.id node)
                           (extractTableName (Relation.dst_table relation)))
         (nodes d) = Some (Link.target e)
    /\ relatedTagsOf (tags d) relationId <> [].

(** The end nodes of every relation of the relation map are found among the
    nodes. *)
Definition nodesCover (d : DataProcessor) : Prop :=
  forall k relation,
    JS.get JS.number_eqb k (relationMap d) = Some relation ->
    find (fun node => String.eqb (Node.id node)
                        (extractTableName (Relation.src_table relation)))
      (nodes d) <> None
    /\ find (fun node => String.eqb (Node.id node)
                           (extractTableName (Relation.dst_table relation)))
         (nodes d) <> None.

(** The invariant of the loops of [buildLinks], started in world [w0], once
    the entries [done] have been visited. *)
Definition LinksInv (w0 : World) (done : list string) (loc : Locals)
    (w : World) : Prop :=
  sameInputs w0 w
  /\ map Link.relationId (links (this w)) = processedRelations loc
  /\ NoDup (processedRelations loc)
  /\ Forall (LinkOK (this w0)) (links (this w))
  /\ (forall s, In s done ->
                JS.get JS.number_eqb (JS.parseInt s) (relationMap (this w0))
                <> None ->
                In (JS.parseInt s) (processedRelations loc)).

(** The world in which the loop of [buildLinks] starts when [processData]
    runs on two arrays, [nodeMap] being the node map of [buildNodes]. *)
Definition startWorld (ts : list Tag.t) (rels : list Relation.t)
    (nodeMap : JS.Map string Node.t) : World :=
  mkWorld
    (mkDataProcessor ts rels (JS.values nodeMap) []
       (paint (distinct String.eqb (map Tag.tag_name ts)) 0)
       (relationMapFrom rels []))
    (startConsole (loadedWorld ts rels)).

(** ** Sample data *)

(** The example of the specification: one tag over two parallel relations. *)
Definition sampleTag : Tag.t :=
  Tag.mk "T1" "a" "" "" ["1"; "2"] "x" false.

Definition sampleTags : list Tag.t := [sampleTag].

Definition sampleRelations : list Relation.t :=
  [ Relation.mk 1 "s.orders" "s.customers" "ONE_TO_MANY" JNull JNull;
    Relation.mk 2 "s.orders" "s.customers" "ONE_TO_ONE" JNull JNull ].

(** The first link built from the example. *)
Definition sampleLink : Link.t :=
  Link.mk "relation-1"
    (Node.mk "orders" "orders" "table" [1%Z; 2%Z])
    (Node.mk "customers" "customers" "table" [1%Z; 2%Z])
    (JS.Num 1) ["T1"] ["a"] (Some "#FF6B6B")
    "ONE_TO_MANY" JNull JNull "s.orders" "s.customers" 0.

(** Two tags that write the id of the same relation differently. *)
Definition paddedTags : list Tag.t :=
  [ Tag.mk "T1" "a" "" "" ["01"] "x" false;
    Tag.mk "T2" "b" "" "" ["1"] "x" false ].

Definition oneRelation : list Relation.t :=
  [ Relation.mk 1 "s.orders" "s.customers" "ONE_TO_MANY" JNull JNull ].

(** Every entry of [relation_ids] of a non-deleted tag that parses to an
    integer is written as that number prints. *)
Definition canonicalIds (ts : list Tag.t) : bool :=
  forallb (fun t =>
             Tag.is_deleted t
             || forallb (fun s =>
                           match JS.parseInt s with
                           | JS.Num n => String.eqb (JS.numberToString n) s
                           | _ => true
                           end)
                  (Tag.relation_ids t))
    ts.

(** Two relations whose bare table names contain the separator of the
    edge keys. *)
Definition hyphenTags : list Tag.t :=
  [ Tag.mk "T1" "a" "" "" ["1"; "2"] "x" false ].

Definition hyphenRelations : list Relation.t :=
  [ Relation.mk 1 "s.a-b" "s.c" "ONE_TO_MANY" JNull JNull;
    Relation.mk 2 "s.a" "s.b-c" "ONE_TO_MANY" JNull JNull ].

(** ** Offsets of parallel edges *)

(** The unordered pairs [{a, b}] and [{c, d}] are the same. *)
Definition samePair (a b c d : string) : bool :=
  (String.eqb a c && String.eqb b d) || (String.eqb a d && String.eqb b c).

(** The link [e] joins the nodes [a] and [b], in either direction. *)
Definition onPair (a b : string) (e : Link.t) : bool :=
  samePair a b (Node.id (Link.source e)) (Node.id (Link.target e)).

(** Number of links of [ls] between the nodes [a] and [b]. *)
Definition pairCount (a b : string) (ls : list Link.t) : nat :=
  List.length (filter (onPair a b) ls).

(** Every link has as offset the number of links before it that join the
    same two nodes. *)
Definition offsetsContiguous (ls : list Link.t) : Prop :=
  forall l1 e l2,
    ls = l1 ++ e :: l2 ->
    Link.offset e
    = pairCount (Node.id (Link.source e)) (Node.id (Link.target e)) l1.

Fixpoint noHyphen (s : string) : bool :=
  match s with
  | EmptyString => true
  | String c r => negb (Ascii.eqb c "-") && noHyphen r
  end.

(** No bare table name of the relations contains a hyphen. *)
Definition hyphenFreeTables (rels : list Relation.t) : bool :=
  forallb (fun r => noHyphen (extractTableName (Relation.src_table r))
                    && noHyphen (extractTableName (Relation.dst_table r)))
    rels.

(** The key of the directed pair [(a, b)] in [edgeCounts]. *)
Definition edgeKeyOf (a b : string) : string := (a ++ "-" ++ b)%string.

(** What the counters say about the links created so far, for table names
    without hyphen. *)
Definition CountsInv (counts : JS.Map string nat) (ls : list Link.t) : Prop :=
  (forall a b c, noHyphen a = true -> noHyphen b = true ->
                 JS.get String.eqb (edgeKeyOf a b) counts = Some c ->
                 c = pairCount a b ls)
  /\ (forall a b, noHyphen a = true -> noHyphen b = true -> a <> b ->
                  JS.get String.eqb (edgeKeyOf a b) counts <> None ->
                  JS.get String.eqb (edgeKeyOf b a) counts = None)
  /\ (forall a b, noHyphen a = true -> noHyphen b = true ->
                  JS.get String.eqb (edgeKeyOf a b) counts = None ->
                  JS.get String.eqb (edgeKeyOf b a) counts = None ->
                  pairCount a b ls = 0).

(** A console entry is a diagnostic: a warning or an error. *)
Definition isDiagnostic (entry : Level * Message) : bool :=
  match fst entry with
  | LOG => false
  | WARN => true
  | ERROR => true
  end.

(** Fourteen tags with fourteen names. *)
Definition fourteenTags : list Tag.t :=
  map (fun n => Tag.mk n n "" "" [] "x" false)
    ["t01"; "t02"; "t03"; "t04"; "t05"; "t06"; "t07";
     "t08"; "t09"; "t10"; "t11"; "t12"; "t13"; "t14"].

(** A non-deleted tag whose tenant id is the empty string, and a tenant. *)
Definition blankTenantTags : list Tag.t :=
  [ Tag.mk "T1" "a" "" "" ["1"] "" false;
    Tag.mk "T2" "b" "" "" ["1"] "acme" false ].

(** A list of strings is strictly ascending in the order of [sort]. *)
Definition strictlyAscending (l : list string) : Prop :=
  StronglySorted (fun a b => String.ltb a b = true) l.

(** [l1] is [l2] with some entries left out, order kept. *)
Inductive Subsequence {A : Type} : list A -> list A -> Prop :=
| Subsequence_nil : Subsequence [] []
| Subsequence_skip : forall x l1 l2,
    Subsequence l1 l2 -> Subsequence l1 (x :: l2)
| Subsequence_keep : forall x l1 l2,
    Subsequence l1 l2 -> Subsequence (x :: l1) (x :: l2).

(** ** Notions used in the further properties *)

(** A string without dot. *)
Fixpoint noDot (s : string) : bool :=
  match s with
  | EmptyString => true
  | String c r => negb (Ascii.eqb c ".") && noDot r
  end.

(** The bare table names of the relations, source then destination, in the
    order [buildNodes] meets them. *)
Definition tablesOf (rels : list Relation.t) : list string :=
  flat_map (fun r => [extractTableName (Relation.src_table r);
                      extractTableName (Relation.dst_table r)]) rels.

(** What one relation pushes on the [relations] list of the node [table]:
    its id once if the table is its source, and once if it is its
    destination. *)
Definition pushesOf (table : string) (r : Relation.t) : list Z :=
  (if String.eqb (extractTableName (Relation.src_table r)) table
   then [Relation.id r] else [])
  ++ (if String.eqb (extractTableName (Relation.dst_table r)) table
      then [Relation.id r] else []).

(** The relation ids pushed on the node [table] by a list of relations. *)
Definition occurrences (table : string) (rels : list Relation.t) : list Z :=
  flat_map (pushesOf table) rels.

(** The node of [table] once [rels] have been visited. *)
Definition nodeOf (rels : list Relation.t) (table : string) : Node.t :=
  Node.mk table table "table" (occurrences table rels).

(** The node map of [buildNodes] once [done] has been visited. *)
Definition NodesInv (done : list Relation.t) (nodeMap : JS.Map string Node.t)
  : Prop :=
  JS.keys nodeMap = JS.setFrom String.eqb (tablesOf done)
  /\ forall k,
      JS.get String.eqb k nodeMap
      = if JS.mem String.eqb k (tablesOf done)
        then Some (nodeOf done k) else None.

(** [getRelationDetails(relationId)]. *)
Definition getRelationDetails (relationId : JS.number)
  : M (option Relation.t) :=
  rm <- gets relationMap ;;
  ret (JS.get JS.number_eqb relationId rm).

(** [getTagDetails(tagName)]. *)
Definition getTagDetails (tagName : string) : M (list Tag.t) :=
  ts <- gets tags ;;
  ret (filter (fun tag => String.eqb (Tag.tag_name tag) tagName
                          && negb (Tag.is_deleted tag)) ts).

(** The number is the id of a relation of the dataset. *)
Definition inDataset (rels : list Relation.t) (n : JS.number) : bool :=
  match n with
  | JS.Num z => existsb (fun r => Z.eqb (Relation.id r) z) rels
  | _ => false
  end.

(** The two warnings [buildLinks] writes for an entry whose relation is not
    in the relation map. *)
Definition warningsOf (rm : JS.Map JS.number Relation.t) (s : string)
  : Console :=
  if JS.has JS.number_eqb (JS.parseInt s) rm then []
  else [(WARN, MsgRelationNotFound s (JS.parseInt s));
        (WARN, MsgAvailableRelationIds (JS.keys rm))].

(** The invariant of the loops of [buildLinks] that follows the order of the
    links and the diagnostics written. *)
Definition TraceInv (w0 : World) (done : list string) (loc : Locals)
    (w : World) : Prop :=
  LinksInv w0 done loc w
  /\ processedRelations loc
     = JS.setFrom JS.number_eqb
         (filter (fun n => JS.has JS.number_eqb n (relationMap (this w0)))
            (map JS.parseInt done))
  /\ filter isDiagnostic (console w)
     = filter isDiagnostic (console w0)
       ++ flat_map (warningsOf (relationMap (this w0))) done.

(** Some non-deleted tag of the tenant [x] has a [relation_ids] entry that
    parses to [n]. *)
Definition referencedBy (ts : list Tag.t) (x : string) (n : JS.number)
  : Prop :=
  exists tag s,
    In tag ts /\ Tag.is_deleted tag = false /\ Tag.tenant_id tag = x
    /\ In s (Tag.relation_ids tag) /\ JS.parseInt s = n.

(** A completion with the lines [c] put in front of its console. *)
Definition prefixConsole {A} (c : Console) (r : Completion A) : Completion A :=
  match r with
  | Normal a w => Normal a (mkWorld (this w) (c ++ console w))
  | Throw e w => Throw e (mkWorld (this w) (c ++ console w))
  end.

(** A computation that only appends to the console and never reads it: run
    on a console [c] it does what it does on the empty console, after
    [c]. *)
Definition appendOnly {A} (m : M A) : Prop :=
  forall d c, m (mkWorld d c) = prefixConsole c (m (mkWorld d [])).

(** The world in which [processData], started in [w], calls [buildLinks]. *)
Definition preparedWorld (w : World) : World :=
  mkWorld
    (mkDataProcessor (tags (this w)) (relations (this w))
       (map (nodeOf (relations (this w)))
          (distinct String.eqb (tablesOf (relations (this w)))))
       (links (this w))
       (paintOver
          (distinct String.eqb (map Tag.tag_name (tags (this w))))
          0 (colorMap (this w)))
       (relationMapFrom (relations (this w)) (relationMap (this w))))
    (((console w
       ++ [(LOG, MsgRelationsTotal (List.length (relations (this w))))])
      ++ [(LOG, MsgRelationMapSize
                  (List.length
                     (relationMapFrom (relations (this w))
                        (relationMap (this w)))))])
     ++ [(LOG, MsgRelationIdList
                 (JS.keys
                    (relationMapFrom (relations (this w))
                       (relationMap (this w)))))]).

(** ** The renderer: search by tag id

    The part of [GraphRenderer] that decides which links a search
    highlights.  The drawn graph is kept as the list of link elements and
    the list of node elements, each with its datum and its inline styles;
    [selectAll('.link')] is the first list in document order, and
    [style(name, value)] sets an inline style on every element of a
    selection, [null] removing it. *)

(** Inline styles of a link element; [None] is "not set". *)
Record LinkStyle : Type := mkLinkStyle {
  strokeWidth : option string;
  strokeOpacity : option string;
  linkOpacity : option string;
  stroke : option string
}.

(** Inline styles of a node element. *)
Record NodeStyle : Type := mkNodeStyle {
  nodeOpacity : option string;
  pointerEvents : option string
}.

(** The group [this.g] of the renderer. *)
Record Scene : Type := mkScene {
  linkElements : list (Link.t * LinkStyle);
  nodeElements : list (Node.t * NodeStyle)
}.

(** The styles [highlightEdgesByRelationIds] gives every link first. *)
Definition resetLinkStyle : LinkStyle :=
  mkLinkStyle (Some "1") (Some "0.8") (Some "1") None.

(** The styles it then gives the links it highlights. *)
Definition highlightLinkStyle : LinkStyle :=
  mkLinkStyle (Some "3") (Some "1") (Some "1") (Some "#ff6b6b").

(** [highlightEdgesByRelationIds(relationIds)] on the group [g]. *)
Definition highlightEdgesByRelationIds (relationIds : list JS.number)
    (g : Scene) : Scene :=
  let reset := map (fun el => (fst el, resetLinkStyle)) (linkElements g) in
  let highlighted :=
    map (fun el =>
           if existsb (JS.number_eqb (Link.relationId (fst el))) relationIds
           then (fst el, highlightLinkStyle)
           else el)
      reset in
  mkScene highlighted
    (map (fun el => (fst el, mkNodeStyle (Some "1") (Some "all")))
       (nodeElements g)).

(** What a call of [searchAndHighlight] does. *)
Inductive SearchOutcome : Type :=
| NoDataProcessor : SearchOutcome          (* console.error, then return *)
| TagNotFound : string -> SearchOutcome    (* showSearchError for the id *)
| Highlighted : Scene -> SearchOutcome     (* the group after highlighting *)
| SearchThrows : Error -> SearchOutcome.   (* this.g is null *)

(** [searchAndHighlight(tagId)], given the data processor of the renderer
    (if any) and its group [this.g] (if the graph has been drawn). *)
Definition searchAndHighlight (dataProcessor : option DataProcessor)
    (g : option Scene) (tagId : string) : SearchOutcome :=
  match dataProcessor with
  | None => NoDataProcessor
  | Some d =>
      let matchingTags :=
        filter (fun tag => String.eqb (Tag.tag_id tag) tagId
                           && negb (Tag.is_deleted tag)) (tags d) in
      if (List.length matchingTags =? 0)%nat then TagNotFound tagId
      else
        let relationIds :=
          fold_left (fun s tag =>
                       fold_left (fun s id =>
                                    JS.add JS.number_eqb (JS.parseInt id) s)
                         (Tag.relation_ids tag) s)
            matchingTags [] in
        match g with
        | None => SearchThrows TypeError
        | Some scene =>
            Highlighted (highlightEdgesByRelationIds relationIds scene)
        end
  end.

(** Some non-deleted tag with the id [tagId] has a [relation_ids] entry that
    parses to [n]. *)
Definition taggedBy (ts : list Tag.t) (tagId : string) (n : JS.number)
  : Prop :=
  exists tag s,
    In tag ts /\ Tag.tag_id tag = tagId /\ Tag.is_deleted tag = false
    /\ In s (Tag.relation_ids tag) /\ JS.parseInt s = n.

(** The graph of the example as drawn: no inline style yet. *)
Definition sampleScene : Scene :=
  mkScene
    (map (fun l => (l, mkLinkStyle None None None None))
       (links (build sampleTags sampleRelations)))
    (map (fun n => (n, mkNodeStyle None (Some "all")))
       (nodes (build sampleTags sampleRelations))).

(** The invariant of the loops of [buildLinks] that remembers, for every
    link, the entry it was created from: the first visited entry that
    parses to its relation id. *)
Definition FirstInv (w0 : World) (done : list string) (loc : Locals)
    (w : World) : Prop :=
  LinksInv w0 done loc w
  /\ Forall
       (fun e =>
          exists pre rid post relation,
            done = pre ++ rid :: post
            /\ (forall s, In s pre -> JS.parseInt s <> JS.parseInt rid)
            /\ e = newLink (this w0) rid relation (Link.source e)
                     (Link.target e) (Link.offset e))
       (links (this w)).

(** Characters of numerals. *)

(** A character is a decimal digit. *)
Definition isDecimalDigit (c : ascii) : bool :=
  (48 <=? nat_of_ascii c)%nat && (nat_of_ascii c <=? 57)%nat.

(** Every character of the string satisfies [P]. *)
Fixpoint allChars (P : ascii -> bool) (s : string) : bool :=
  match s with
  | String c r => P c && allChars P r
  | EmptyString => true
  end.

(** ** Facts about maps and sets *)

Section MapSetFacts.
Context {K : Type} (eqb : K -> K -> bool).
Hypothesis eqb_eq : forall a b, eqb a b = true <-> a = b.

Lemma eqb_refl_K (a : K) : eqb a a = true.
Proof. now apply eqb_eq. Qed.

Lemma eqb_neq_K (a b : K) : a <> b -> eqb a b = false.
Proof.
  intros Hne. destruct (eqb a b) eqn:E; [|reflexivity].
  apply eqb_eq in E. contradiction.
Qed.

Lemma eqb_dec_K (a b : K) : {a = b} + {a <> b}.
Proof.
  destruct (eqb a b) eqn:E.
  - left. now apply eqb_eq.
  - right. intros ->. rewrite eqb_refl_K in E. discriminate.
Qed.

Lemma get_set_same {V} (k : K) (v : V) (m : JS.Map K V) :
  JS.get eqb k (JS.set eqb k v m) = Some v.
Proof.
  induction m as [|[k' v'] r IH]; simpl.
  - now rewrite eqb_refl_K.
  - destruct (eqb k k') eqn:E; simpl.
    + now rewrite eqb_refl_K.
    + now rewrite E.
Qed.

Lemma get_set_other {V} (k k' : K) (v : V) (m : JS.Map K V) :
  k <> k' -> JS.get eqb k' (JS.set eqb k v m) = JS.get eqb k' m.
Proof.
  intros Hne. induction m as [|[k0 v0] r IH]; simpl.
  - rewrite eqb_neq_K; auto.
  - destruct (eqb k k0) eqn:E; simpl.
    + apply eqb_eq in E. subst k0.
      rewrite eqb_neq_K; auto.
    + destruct (eqb k' k0); auto.
Qed.

Lemma set_same_value {V} (k : K) (v : V) (m : JS.Map K V) :
  JS.get eqb k m = Some v -> JS.set eqb k v m = m.
Proof.
  induction m as [|[k0 v0] r IH]; simpl; [discriminate|].
  destruct (eqb k k0) eqn:E.
  - intros [= ->]. apply eqb_eq in E. now subst.
  - intros H. now rewrite IH.
Qed.

Lemma get_Some_In {V} (k : K) (v : V) (m : JS.Map K V) :
  JS.get eqb k m = Some v -> In (k, v) m.
Proof.
  induction m as [|[k0 v0] r IH]; simpl; [discriminate|].
  destruct (eqb k k0) eqn:E.
  - intros [= ->]. apply eqb_eq in E. subst. now left.
  - intros H. right. auto.
Qed.

Lemma get_None_keys {V} (k : K) (m : JS.Map K V) :
  JS.get eqb k m = None <-> ~ In k (JS.keys m).
Proof.
  induction m as [|[k0 v0] r IH]; simpl.
  - tauto.
  - destruct (eqb k k0) eqn:E.
    + apply eqb_eq in E. subst. split; [discriminate|]. tauto.
    + rewrite IH. split.
      * intros H [H1|H1]; [subst; rewrite eqb_refl_K in E; discriminate|auto].
      * tauto.
Qed.

Lemma get_app_l {V} (k : K) (m1 m2 : JS.Map K V) (v : V) :
  JS.get eqb k m1 = Some v -> JS.get eqb k (m1 ++ m2) = Some v.
Proof.
  induction m1 as [|[k0 v0] r IH]; simpl; [discriminate|].
  destruct (eqb k k0); auto.
Qed.

Lemma get_app_r {V} (k : K) (m1 m2 : JS.Map K V) :
  JS.get eqb k m1 = None -> JS.get eqb k (m1 ++ m2) = JS.get eqb k m2.
Proof.
  induction m1 as [|[k0 v0] r IH]; simpl; [reflexivity|].
  destruct (eqb k k0); [discriminate|auto].
Qed.

Lemma set_fresh {V} (k : K) (v : V) (m : JS.Map K V) :
  JS.get eqb k m = None -> JS.set eqb k v m = m ++ [(k, v)].
Proof.
  induction m as [|[k0 v0] r IH]; simpl; [reflexivity|].
  destruct (eqb k k0); [discriminate|].
  intros H. now rewrite IH.
Qed.

Lemma keys_set_present {V} (k : K) (v v' : V) (m : JS.Map K V) :
  JS.get eqb k m = Some v' -> JS.keys (JS.set eqb k v m) = JS.keys m.
Proof.
  induction m as [|[k0 v0] r IH]; simpl; [discriminate|].
  destruct (eqb k k0) eqn:E; simpl.
  - intros _. apply eqb_eq in E. now subst.
  - intros H. f_equal. auto.
Qed.

Lemma mem_true_iff (k : K) (s : JS.SetOf K) :
  JS.mem eqb k s = true <-> In k s.
Proof.
  unfold JS.mem. rewrite existsb_exists. split.
  - intros [x [Hx E]]. apply eqb_eq in E. now subst.
  - intros H. exists k. split; [assumption|apply eqb_refl_K].
Qed.

Lemma mem_false_iff (k : K) (s : JS.SetOf K) :
  JS.mem eqb k s = false <-> ~ In k s.
Proof.
  rewrite <- mem_true_iff. destruct (JS.mem eqb k s); split; intros; easy.
Qed.

Lemma mem_app (k : K) (s1 s2 : JS.SetOf K) :
  JS.mem eqb k (s1 ++ s2) = JS.mem eqb k s1 || JS.mem eqb k s2.
Proof. unfold JS.mem. apply existsb_app. Qed.

Lemma In_add (x k : K) (s : JS.SetOf K) :
  In x (JS.add eqb k s) <-> In x s \/ x = k.
Proof.
  unfold JS.add. destruct (JS.mem eqb k s) eqn:E.
  - apply mem_true_iff in E. split; [tauto|]. intros [H| ->]; auto.
  - rewrite in_app_iff. simpl. intuition.
Qed.

Lemma NoDup_add (k : K) (s : JS.SetOf K) :
  NoDup s -> NoDup (JS.add eqb k s).
Proof.
  intros Hs. unfold JS.add. destruct (JS.mem eqb k s) eqn:E; [assumption|].
  apply mem_false_iff in E.
  apply NoDup_app; [assumption|constructor; [simpl; tauto|constructor]|].
  intros x Hx [<-|[]]. contradiction.
Qed.

Lemma add_incl (k : K) (s : JS.SetOf K) : incl s (JS.add eqb k s).
Proof. intros x Hx. apply In_add. now left. Qed.

(** [new Set(a)] lists the distinct entries of [a] in the order of their
    first occurrence. *)
Lemma fold_add_distinct (a : list K) (s : JS.SetOf K) :
  fold_left (fun s k => JS.add eqb k s) a s
  = s ++ filter (fun y => negb (JS.mem eqb y s)) (distinct eqb a).
Proof.
  revert s. induction a as [|x r IH]; intros s; simpl.
  - now rewrite app_nil_r.
  - rewrite IH. unfold JS.add. destruct (JS.mem eqb x s) eqn:E; simpl.
    + f_equal. clear IH.
      induction (distinct eqb r) as [|y l IHl]; simpl; [reflexivity|].
      destruct (eqb y x) eqn:Eyx; simpl.
      * apply eqb_eq in Eyx. subst y. rewrite E. simpl. apply IHl.
      * destruct (JS.mem eqb y s); simpl; now rewrite IHl.
    + rewrite <- app_assoc. simpl. do 2 f_equal. clear IH.
      induction (distinct eqb r) as [|y l IHl]; simpl; [reflexivity|].
      rewrite mem_app. simpl. rewrite orb_false_r.
      destruct (eqb y x) eqn:Eyx; simpl.
      * rewrite orb_true_r. simpl. apply IHl.
      * rewrite orb_false_r.
        destruct (JS.mem eqb y s); simpl; now rewrite IHl.
Qed.

Lemma setFrom_distinct (a : list K) : JS.setFrom eqb a = distinct eqb a.
Proof.
  unfold JS.setFrom. rewrite fold_add_distinct. simpl.
  induction (distinct eqb a) as [|y l IHl]; simpl; [reflexivity|].
  now f_equal.
Qed.

Lemma In_distinct (x : K) (a : list K) : In x (distinct eqb a) <-> In x a.
Proof.
  induction a as [|y r IH]; simpl; [tauto|].
  rewrite filter_In, IH. split.
  - intros [H|[H _]]; auto.
  - intros [H|H]; auto.
    destruct (eqb_dec_K y x) as [E|E]; auto.
    right. split; [assumption|]. rewrite eqb_neq_K; auto.
Qed.

Lemma NoDup_distinct (a : list K) : NoDup (distinct eqb a).
Proof.
  induction a as [|y r IH]; simpl; constructor.
  - rewrite filter_In. intros [_ H]. now rewrite eqb_refl_K in H.
  - now apply NoDup_filter.
Qed.

Lemma Forall_set {V} (P : K * V -> Prop) (k : K) (v : V) (m : JS.Map K V) :
  Forall P m -> P (k, v) -> Forall P (JS.set eqb k v m).
Proof.
  intros Hm Hkv. induction m as [|[k0 v0] r IH]; simpl.
  - now constructor.
  - inversion Hm; subst. destruct (eqb k k0); constructor; auto.
Qed.

Lemma In_keys_set {V} (k k' : K) (v : V) (m : JS.Map K V) :
  In k' (JS.keys (JS.set eqb k v m)) <-> k' = k \/ In k' (JS.keys m).
Proof.
  induction m as [|[k0 v0] r IH]; simpl.
  - intuition.
  - destruct (eqb k k0) eqn:E; simpl.
    + apply eqb_eq in E. subst k0. intuition.
    + unfold JS.keys in IH. rewrite IH. intuition.
Qed.

Lemma has_true_keys {V} (k : K) (m : JS.Map K V) :
  JS.has eqb k m = true <-> In k (JS.keys m).
Proof.
  unfold JS.has. pose proof (get_None_keys k m) as H.
  destruct (JS.get eqb k m).
  - split; [|reflexivity]. intros _.
    destruct (in_dec eqb_dec_K k (JS.keys m)) as [Hi|Hi]; [assumption|].
    apply H in Hi. discriminate.
  - split; [discriminate|]. intros Hi. exfalso. now apply H.
Qed.
End MapSetFacts.

Lemma number_eqb_eq (a b : JS.number) : JS.number_eqb a b = true <-> a = b.
Proof.
  destruct a as [|i|x], b as [|j|y]; simpl; split; try easy.
  - intros H. apply Bool.eqb_prop in H. now subst.
  - intros [= ->]. apply Bool.eqb_reflx.
  - intros H. apply Z.eqb_eq in H. now subst.
  - intros [= ->]. apply Z.eqb_refl.
Qed.

(** ** Doubles *)

Lemma roundTiesToEven_small (a : Z) :
  (Z.log2 a <= 52)%Z -> JS.roundTiesToEven a = a.
Proof.
  intros H. unfold JS.roundTiesToEven.
  destruct (Z.leb_spec (Z.log2 a - 52) 0); [reflexivity|lia].
Qed.

(** The shape of a rounded number: a significand of at most 53 bits times a
    power of two. *)
Lemma roundTiesToEven_shape (a : Z) :
  (52 < Z.log2 a)%Z ->
  exists q, (2 ^ 52 <= q <= 2 ^ 53)%Z
            /\ JS.roundTiesToEven a = (q * 2 ^ (Z.log2 a - 52))%Z.
Proof.
  intros H. unfold JS.roundTiesToEven.
  destruct (Z.leb_spec (Z.log2 a - 52) 0) as [Hle|Hlt]; [lia|].
  set (shift := (Z.log2 a - 52)%Z) in *.
  assert (0 < a)%Z as Ha.
  { destruct (Z.le_gt_cases a 0) as [Hn|]; [|assumption].
    rewrite (Z.log2_nonpos a Hn) in H. lia. }
  assert (Z.log2 (Z.shiftr a shift) = 52)%Z as Hq.
  { rewrite Z.log2_shiftr by assumption. unfold shift. lia. }
  assert (2 ^ 52 <= Z.shiftr a shift < 2 ^ 53)%Z as Hb.
  { assert (0 < Z.shiftr a shift)%Z as Hpos.
    { destruct (Z.le_gt_cases (Z.shiftr a shift) 0) as [Hn|]; [|assumption].
      rewrite (Z.log2_nonpos _ Hn) in Hq. discriminate. }
    pose proof (Z.log2_spec _ Hpos) as Hs. rewrite Hq in Hs.
    exact Hs. }
  rewrite Z.shiftl_mul_pow2 by lia.
  eexists. split; [|reflexivity].
  destruct (_ || _); lia.
Qed.

Lemma log2_scaled (q s : Z) :
  (2 ^ 52 <= q < 2 ^ 53)%Z -> (0 <= s)%Z ->
  Z.log2 (q * 2 ^ s) = (52 + s)%Z.
Proof.
  intros Hq Hs. rewrite <- Z.shiftl_mul_pow2 by assumption.
  rewrite Z.log2_shiftl by lia.
  f_equal. apply Z.log2_unique; lia.
Qed.

Lemma roundTiesToEven_scaled (q s : Z) :
  (2 ^ 52 <= q < 2 ^ 53)%Z -> (0 <= s)%Z ->
  JS.roundTiesToEven (q * 2 ^ s) = (q * 2 ^ s)%Z.
Proof.
  intros Hq Hs. unfold JS.roundTiesToEven.
  rewrite (log2_scaled q s Hq Hs).
  replace (52 + s - 52)%Z with s by lia.
  destruct (Z.leb_spec s 0) as [Hle|Hlt]; [reflexivity|].
  assert (0 < 2 ^ s)%Z as Hp by (apply Z.pow_pos_nonneg; lia).
  rewrite Z.shiftr_div_pow2 by lia.
  rewrite Z.div_mul by lia.
  rewrite !Z.shiftl_mul_pow2 by lia.
  rewrite Z.sub_diag.
  assert (0 < 1 * 2 ^ (s - 1))%Z as Hh.
  { rewrite Z.mul_1_l. apply Z.pow_pos_nonneg; lia. }
  destruct (Z.ltb_spec (1 * 2 ^ (s - 1)) 0); [lia|].
  destruct (Z.eqb_spec 0 (1 * 2 ^ (s - 1))); [lia|].
  reflexivity.
Qed.

(** Rounding a rounded number changes nothing. *)
Lemma roundTiesToEven_idempotent (a : Z) :
  JS.roundTiesToEven (JS.roundTiesToEven a) = JS.roundTiesToEven a.
Proof.
  destruct (Z.le_gt_cases (Z.log2 a) 52) as [Hs|Hl].
  - now rewrite !(roundTiesToEven_small a Hs).
  - destruct (roundTiesToEven_shape a Hl) as [q [Hq ->]].
    assert (0 <= Z.log2 a - 52)%Z as Hn by lia.
    destruct (Z.eq_dec q (2 ^ 53)) as [->|Hne].
    + replace (2 ^ 53 * 2 ^ (Z.log2 a - 52))%Z
        with (2 ^ 52 * 2 ^ (Z.log2 a - 52 + 1))%Z.
      * apply roundTiesToEven_scaled; lia.
      * rewrite Z.pow_add_r by lia. change (2 ^ 53)%Z with (2 ^ 52 * 2 ^ 1)%Z.
        ring.
    + apply roundTiesToEven_scaled; lia.
Qed.

Lemma roundTiesToEven_nonneg (a : Z) :
  (0 <= a)%Z -> (0 <= JS.roundTiesToEven a)%Z.
Proof.
  intros Ha. destruct (Z.le_gt_cases (Z.log2 a) 52) as [Hs|Hl].
  - now rewrite (roundTiesToEven_small a Hs).
  - destruct (roundTiesToEven_shape a Hl) as [q [Hq ->]].
    apply Z.mul_nonneg_nonneg; [lia|]. apply Z.pow_nonneg. lia.
Qed.

Lemma roundTiesToEven_pos (a : Z) :
  (0 < a)%Z -> (0 < JS.roundTiesToEven a)%Z.
Proof.
  intros Ha. destruct (Z.le_gt_cases (Z.log2 a) 52) as [Hs|Hl].
  - now rewrite (roundTiesToEven_small a Hs).
  - destruct (roundTiesToEven_shape a Hl) as [q [Hq ->]].
    apply Z.mul_pos_pos; [lia|]. apply Z.pow_pos_nonneg; lia.
Qed.

Lemma toNumber_signed (s a : Z) :
  (s = 1 \/ s = -1)%Z -> (0 < a)%Z ->
  JS.toNumber (s * a)
  = if (1024 <=? Z.log2 (JS.roundTiesToEven a))%Z then JS.Infinity (s <? 0)%Z
    else JS.Num (s * JS.roundTiesToEven a)%Z.
Proof.
  intros Hs Ha. unfold JS.toNumber.
  assert (Z.abs (s * a) = a) as -> by (destruct Hs; subst s; lia).
  assert (Z.sgn (s * a) = s) as -> by (destruct Hs; subst s; lia).
  assert ((s * a <? 0)%Z = (s <? 0)%Z) as ->; [|reflexivity].
  destruct Hs; subst s.
  - destruct (Z.ltb_spec (1 * a) 0); [lia|reflexivity].
  - destruct (Z.ltb_spec (-1 * a) 0); [reflexivity|lia].
Qed.

(** A number that [toNumber] yields is a double: converting it again gives
    it back. *)
Lemma toNumber_idempotent (x n : Z) :
  JS.toNumber x = JS.Num n -> JS.toNumber n = JS.Num n.
Proof.
  destruct (Z.eq_dec x 0) as [->|Hx]; [now intros [= <-]|].
  assert (x = Z.sgn x * Z.abs x)%Z as Hsplit by lia.
  assert (Z.sgn x = 1 \/ Z.sgn x = -1)%Z as Hs by lia.
  assert (0 < Z.abs x)%Z as Ha by lia.
  rewrite Hsplit at 1. rewrite (toNumber_signed _ _ Hs Ha).
  destruct (Z.leb_spec 1024 (Z.log2 (JS.roundTiesToEven (Z.abs x))))
    as [|Hlt]; [discriminate|].
  intros [= <-].
  rewrite (toNumber_signed _ _ Hs (roundTiesToEven_pos _ Ha)).
  rewrite roundTiesToEven_idempotent.
  destruct (Z.leb_spec 1024 (Z.log2 (JS.roundTiesToEven (Z.abs x))));
    [lia|reflexivity].
Qed.

Lemma parseInt_double (s : string) (n : Z) :
  JS.parseInt s = JS.Num n -> JS.toNumber n = JS.Num n.
Proof.
  unfold JS.parseInt.
  destruct (match JS.trimStart s with
            | String "-" r => ((-1)%Z, r)
            | String "+" r => (1%Z, r)
            | _ => (1%Z, JS.trimStart s)
            end) as [sign s2].
  destruct (match s2 with
            | String "0" (String "x" r) => (16%Z, r)
            | String "0" (String "X" r) => (16%Z, r)
            | _ => (10%Z, s2)
            end) as [radix s3].
  destruct (JS.digitsPrefix radix s3 None); [|discriminate].
  apply toNumber_idempotent.
Qed.

(** ** Numerals *)

Lemma allChars_digits_uint (d : Decimal.uint) :
  allChars isDecimalDigit (NilEmpty.string_of_uint d) = true.
Proof. induction d; simpl; auto. Qed.

Lemma decimal_nat_digits (v : Z) :
  (0 <= v)%Z ->
  allChars isDecimalDigit (JS.decimal v) = true /\ JS.decimal v <> "".
Proof.
  intros Hv. unfold JS.decimal. destruct v as [|p|p]; [now split| |lia].
  simpl. pose proof (allChars_digits_uint (Pos.to_uint p)) as H.
  destruct (Pos.to_uint p); simpl in *; split; auto; discriminate.
Qed.

Lemma decimal_inj (a b : Z) : JS.decimal a = JS.decimal b -> a = b.
Proof.
  unfold JS.decimal. intros H.
  apply DecimalZ.to_int_inj.
  assert (forall z, Z.to_int z <> Decimal.Pos Decimal.Nil
                    /\ Z.to_int z <> Decimal.Neg Decimal.Nil) as Hnn.
  { intros [|p|p]; simpl; split; try discriminate;
      intros [= E]; now apply DecimalPos.Unsigned.to_uint_nonnil in E. }
  apply (f_equal NilZero.int_of_string) in H.
  rewrite !NilZero.isi in H by apply Hnn. now injection H.
Qed.

Lemma decimal_neg (v : Z) :
  (0 < v)%Z -> JS.decimal (- v) = String "-" (JS.decimal v).
Proof.
  intros Hv. destruct v as [|p|p]; try lia.
  unfold JS.decimal. simpl.
  pose proof (DecimalPos.Unsigned.to_uint_nonnil p) as Hn.
  destruct (Pos.to_uint p); [contradiction|reflexivity..].
Qed.

(** The characters of a numeral are digits, after a sign. *)
Lemma decimal_chars (w : Z) :
  allChars (fun c => isDecimalDigit c || Ascii.eqb c "-") (JS.decimal w)
  = true.
Proof.
  assert (forall s, allChars isDecimalDigit s = true ->
                    allChars (fun c => isDecimalDigit c || Ascii.eqb c "-") s
                    = true) as Himp.
  { induction s as [|c s IH]; simpl; [reflexivity|].
    intros H. apply andb_true_iff in H. destruct H as [Hc Hs].
    now rewrite Hc, IH. }
  destruct (Z.le_gt_cases 0 w) as [Hw|Hw].
  - apply Himp, decimal_nat_digits, Hw.
  - replace w with (- (- w))%Z by lia. rewrite decimal_neg by lia.
    simpl. apply Himp, decimal_nat_digits. lia.
Qed.

Lemma stripZeros_digits (s : string) :
  allChars isDecimalDigit s = true ->
  allChars isDecimalDigit (JS.stripZeros s) = true.
Proof.
  induction s as [|c s IH]; simpl; [reflexivity|].
  intros H. apply andb_true_iff in H. destruct H as [Hc Hs].
  specialize (IH Hs).
  destruct (JS.stripZeros s) as [|d r].
  - destruct (Ascii.eqb c "0"); simpl; [reflexivity|now rewrite Hc].
  - simpl in *. now rewrite Hc, IH.
Qed.

(** Two strings of the same length with the same digits before their
    trailing zeros are equal. *)
Lemma stripZeros_inj (s1 : string) :
  forall s2, String.length s1 = String.length s2 ->
             JS.stripZeros s1 = JS.stripZeros s2 -> s1 = s2.
Proof.
  induction s1 as [|c1 s1 IH]; intros [|c2 s2]; simpl; try discriminate;
    [reflexivity|].
  intros [= Hlen] H. specialize (IH s2 Hlen).
  destruct (JS.stripZeros s1) as [|d1 r1], (JS.stripZeros s2) as [|d2 r2].
  - rewrite (IH eq_refl). f_equal.
    destruct (Ascii.eqb_spec c1 "0"), (Ascii.eqb_spec c2 "0");
      try discriminate; [congruence|now injection H].
  - destruct (Ascii.eqb c1 "0"); discriminate.
  - destruct (Ascii.eqb c2 "0"); discriminate.
  - assert (String d1 r1 = String d2 r2) as E by congruence.
    rewrite (IH E). congruence.
Qed.

(** A digit string followed by [e+] splits in one way. *)
Lemma split_at_e (r1 : string) :
  forall r2 e1 e2,
    allChars isDecimalDigit r1 = true -> allChars isDecimalDigit r2 = true ->
    (r1 ++ "e+" ++ e1 = r2 ++ "e+" ++ e2)%string -> r1 = r2 /\ e1 = e2.
Proof.
  induction r1 as [|c1 r1 IH]; intros [|c2 r2] e1 e2 H1 H2 H; simpl in *.
  - injection H as ->. now split.
  - injection H as <- _. discriminate.
  - injection H as -> _. discriminate.
  - injection H as -> H.
    apply andb_true_iff in H1. apply andb_true_iff in H2.
    destruct (IH r2 e1 e2 (proj2 H1) (proj2 H2) H) as [-> ->]. now split.
Qed.

Lemma exponential_inj (v1 v2 : Z) :
  (0 <= v1)%Z -> (0 <= v2)%Z ->
  JS.exponential v1 = JS.exponential v2 -> v1 = v2.
Proof.
  intros H1 H2. unfold JS.exponential.
  destruct (decimal_nat_digits v1 H1) as [Hd1 Hn1].
  destruct (decimal_nat_digits v2 H2) as [Hd2 Hn2].
  pose proof (stripZeros_digits _ Hd1) as Hs1.
  pose proof (stripZeros_digits _ Hd2) as Hs2.
  assert (forall E1 E2 : string,
            JS.stripZeros (JS.decimal v1) = JS.stripZeros (JS.decimal v2) ->
            JS.decimal (Z.of_nat (String.length (JS.decimal v1) - 1))
            = JS.decimal (Z.of_nat (String.length (JS.decimal v2) - 1)) ->
            v1 = v2) as Hfin.
  { intros _ _ Hs He. apply decimal_inj in He.
    apply decimal_inj, stripZeros_inj; [|assumption].
    destruct (JS.decimal v1), (JS.decimal v2); try contradiction.
    simpl in *. lia. }
  destruct (JS.stripZeros (JS.decimal v1)) as [|c1 [|d1 r1]] eqn:S1,
           (JS.stripZeros (JS.decimal v2)) as [|c2 [|d2 r2]] eqn:S2;
    intros H.
  - now apply decimal_inj.
  - rewrite H in Hd1. simpl in Hd1. now rewrite andb_false_r in Hd1.
  - rewrite H in Hd1. simpl in Hd1. now rewrite andb_false_r in Hd1.
  - rewrite <- H in Hd2. simpl in Hd2. now rewrite andb_false_r in Hd2.
  - injection H as -> H. apply (Hfin "" ""); [reflexivity|assumption].
  - discriminate.
  - rewrite <- H in Hd2. simpl in Hd2. now rewrite andb_false_r in Hd2.
  - discriminate.
  - injection H as -> -> H.
    simpl in Hs1, Hs2.
    apply andb_true_iff in Hs1. destruct Hs1 as [_ Hs1].
    apply andb_true_iff in Hs2. destruct Hs2 as [_ Hs2].
    apply andb_true_iff in Hs1. destruct Hs1 as [_ Hs1].
    apply andb_true_iff in Hs2. destruct Hs2 as [_ Hs2].
    destruct (split_at_e _ _ _ _ Hs1 Hs2 H) as [Hr He].
    apply (Hfin "" ""); [now rewrite Hr|assumption].
Qed.

(** ** Printing a number *)

Lemma shortest_step (a unit rest : Z) :
  (0 <= a)%Z -> (0 < unit)%Z ->
  JS.toNumber rest = JS.Num a /\ (0 <= rest)%Z ->
  let lo := (a / unit * unit)%Z in
  let hi := (lo + unit)%Z in
  let okLo := JS.number_eqb (JS.toNumber lo) (JS.Num a) in
  let okHi := JS.number_eqb (JS.toNumber hi) (JS.Num a) in
  let v := if okLo && okHi then
             if (a - lo <? hi - a)%Z then lo
             else if (hi - a <? a - lo)%Z then hi
             else if Z.even (a / unit) then lo else hi
           else if okLo then lo
           else if okHi then hi
           else rest in
  JS.toNumber v = JS.Num a /\ (0 <= v)%Z.
Proof.
  intros Ha Hu Hrest lo hi okLo okHi.
  assert (0 <= lo)%Z as Hlo
    by (apply Z.mul_nonneg_nonneg; [apply Z.div_pos|]; lia).
  assert (0 <= hi)%Z as Hhi by (unfold hi; lia).
  destruct okLo eqn:E0, okHi eqn:E1; simpl;
    try apply number_eqb_eq in E0; try apply number_eqb_eq in E1;
    repeat match goal with
           | |- context [if ?c then _ else _] => destruct c
           end;
    auto.
Qed.

(** The numeral chosen for a double reads back as that double. *)
Lemma shortestFrom_reads_back (a : Z) (p : nat) :
  (0 <= a)%Z -> JS.toNumber a = JS.Num a ->
  JS.toNumber (JS.shortestFrom a p) = JS.Num a
  /\ (0 <= JS.shortestFrom a p)%Z.
Proof.
  intros Ha Hd. induction p as [|p IH].
  - apply (shortest_step a (10 ^ Z.of_nat 0) a Ha); [reflexivity|auto].
  - apply (shortest_step a (10 ^ Z.of_nat (S p)) _ Ha); [|exact IH].
    apply Z.pow_pos_nonneg; lia.
Qed.

Lemma toNumber_abs (x : Z) :
  JS.toNumber x = JS.Num x -> JS.toNumber (Z.abs x) = JS.Num (Z.abs x).
Proof.
  destruct (Z.eq_dec x 0) as [->|Hx]; [reflexivity|].
  assert (Z.sgn x = 1 \/ Z.sgn x = -1)%Z as Hs by lia.
  assert (0 < Z.abs x)%Z as Ha by lia.
  intros H.
  assert (JS.toNumber (Z.sgn x * Z.abs x) = JS.Num x) as H1
    by (now replace (Z.sgn x * Z.abs x)%Z with x by lia).
  rewrite (toNumber_signed _ _ Hs Ha) in H1.
  replace (Z.abs x) with (1 * Z.abs x)%Z at 1 by lia.
  rewrite (toNumber_signed 1 (Z.abs x) (or_introl eq_refl) Ha).
  destruct (1024 <=? Z.log2 (JS.roundTiesToEven (Z.abs x)))%Z;
    [discriminate|].
  injection H1 as H1. f_equal. destruct Hs as [Hs|Hs]; rewrite Hs in H1; lia.
Qed.

(** The numeral printed for a double [x], with the sign of [x], reads back
    as [x]. *)
Lemma shortest_reads_back (x : Z) :
  JS.toNumber x = JS.Num x ->
  JS.toNumber (Z.sgn x * JS.shortest (Z.abs x)) = JS.Num x
  /\ (0 <= JS.shortest (Z.abs x))%Z
  /\ JS.toNumber (JS.shortest (Z.abs x)) = JS.Num (Z.abs x).
Proof.
  intros Hd.
  destruct (shortestFrom_reads_back (Z.abs x)
              (String.length (JS.decimal (Z.abs x)) - 1)
              (Z.abs_nonneg x) (toNumber_abs x Hd)) as [Hv Hn].
  fold (JS.shortest (Z.abs x)) in Hv, Hn.
  split; [|split; assumption].
  destruct (Z.eq_dec x 0) as [->|Hx]; [reflexivity|].
  set (v := JS.shortest (Z.abs x)) in *.
  assert (0 < v)%Z as Hpos.
  { destruct (Z.eq_dec v 0) as [E|E]; [|lia].
    rewrite E in Hv. injection Hv as Hv. lia. }
  assert (Z.sgn x = 1 \/ Z.sgn x = -1)%Z as Hs by lia.
  rewrite (toNumber_signed _ _ Hs Hpos).
  replace v with (1 * v)%Z in Hv by lia.
  rewrite (toNumber_signed 1 v (or_introl eq_refl) Hpos) in Hv.
  destruct (1024 <=? Z.log2 (JS.roundTiesToEven v))%Z; [discriminate|].
  rewrite Z.mul_1_l in Hv. injection Hv as ->.
  f_equal. destruct Hs as [E|E]; rewrite E; lia.
Qed.

Lemma exponential_head (v : Z) :
  (0 <= v)%Z ->
  exists c r, JS.exponential v = String c r /\ isDecimalDigit c = true.
Proof.
  intros Hv. unfold JS.exponential.
  destruct (decimal_nat_digits v Hv) as [Hd Hn].
  pose proof (stripZeros_digits _ Hd) as Hs.
  destruct (JS.stripZeros (JS.decimal v)) as [|c [|d r]].
  - destruct (JS.decimal v) as [|c r]; [contradiction|].
    simpl in Hd. apply andb_true_iff in Hd. exists c, r. tauto.
  - simpl in Hs. rewrite andb_true_r in Hs. eauto.
  - simpl in Hs. apply andb_true_iff in Hs. destruct Hs as [Hc _]. eauto.
Qed.

(** A numeral in exponent form is not a plain numeral of a smaller
    number. *)
Lemma exponential_not_decimal (v w : Z) (sign : string) :
  (10 ^ 21 <= v)%Z -> (Z.abs w < 10 ^ 21)%Z ->
  sign = "" \/ sign = "-" ->
  JS.decimal w <> (sign ++ JS.exponential v)%string.
Proof.
  intros Hv Hw Hsign H.
  pose proof (decimal_chars w) as Hc. rewrite H in Hc.
  assert (0 <= v)%Z as Hv0 by lia.
  destruct (decimal_nat_digits v Hv0) as [Hd Hn].
  unfold JS.exponential in H, Hc.
  destruct (JS.stripZeros (JS.decimal v)) as [|c [|d r]].
  - destruct Hsign; subst sign; simpl in H.
    + apply decimal_inj in H. lia.
    + rewrite <- decimal_neg in H by lia. apply decimal_inj in H. lia.
  - destruct Hsign; subst sign; simpl in Hc;
      now rewrite andb_false_r in Hc.
  - destruct Hsign; subst sign; simpl in Hc;
      now rewrite andb_false_r in Hc.
Qed.

(** Entries beyond 2^53 parse to the nearest double, and a very long one to
    an infinity. *)
Example parseInt_rounds :
  JS.parseInt "9007199254740993" = JS.Num 9007199254740992
  /\ JS.parseInt "-9007199254740995" = JS.Num (-9007199254740996)
  /\ JS.parseInt " 0x20000000000001" = JS.Num 9007199254740992
  /\ JS.parseInt "12px" = JS.Num 12
  /\ JS.parseInt "-0" = JS.Num 0
  /\ JS.parseInt "px" = JS.NaN
  /\ JS.toNumber (2 ^ 1024 - 2 ^ 970 - 1) = JS.Num (2 ^ 1024 - 2 ^ 971)
  /\ JS.toNumber (2 ^ 1024 - 2 ^ 970) = JS.Infinity false
  /\ JS.toNumber (- 2 ^ 1024) = JS.Infinity true.
Proof. vm_compute. repeat split. Qed.

(** A number prints with the fewest digits that read back as it. *)
Example numberToString_samples :
  map JS.numberToString
    [0; 7; -305; 1200; 2 ^ 53; 2 ^ 60; 10 ^ 21; - 2 ^ 70;
     99999999999999991611392; 2 ^ 1000]%Z
  = ["0"; "7"; "-305"; "1200"; "9007199254740992"; "1152921504606847000";
     "1e+21"; "-1.1805916207174113e+21"; "1e+23";
     "1.0715086071862673e+301"].
Proof. vm_compute. reflexivity. Qed.

(** Two doubles that print alike are equal. *)
Lemma numberToString_inj (x y : Z) :
  JS.toNumber x = JS.Num x -> JS.toNumber y = JS.Num y ->
  JS.numberToString x = JS.numberToString y -> x = y.
Proof.
  intros Hx Hy. unfold JS.numberToString.
  destruct (shortest_reads_back x Hx) as (Rx & Nx & Ax).
  destruct (shortest_reads_back y Hy) as (Ry & Ny & Ay).
  set (vx := JS.shortest (Z.abs x)) in *.
  set (vy := JS.shortest (Z.abs y)) in *.
  assert (forall b : bool, (if b then "-" else "") = ""
                           \/ (if b then "-" else "") = "-") as Hsg
    by (intros []; auto).
  destruct (Z.ltb_spec vx (10 ^ 21)) as [Lx|Lx],
           (Z.ltb_spec vy (10 ^ 21)) as [Ly|Ly]; intros H.
  - apply decimal_inj in H. rewrite H in Rx. congruence.
  - exfalso. apply (exponential_not_decimal vy (Z.sgn x * vx) _ Ly) in H;
      [assumption| |apply Hsg].
    destruct (Z.sgn_spec x) as [[_ ->]|[[_ ->]|[_ ->]]]; lia.
  - exfalso. symmetry in H.
    apply (exponential_not_decimal vx (Z.sgn y * vy) _ Lx) in H;
      [assumption| |apply Hsg].
    destruct (Z.sgn_spec y) as [[_ ->]|[[_ ->]|[_ ->]]]; lia.
  - destruct (exponential_head vx Nx) as (cx & rx & Ex & Dx).
    destruct (exponential_head vy Ny) as (cy & ry & Ey & Dy).
    assert (vx = vy /\ (x <? 0)%Z = (y <? 0)%Z) as [Hv Hs].
    { destruct (x <? 0)%Z, (y <? 0)%Z; simpl in H.
      - injection H as H. split; [|reflexivity].
        now apply exponential_inj.
      - rewrite Ey in H. injection H as <- _. discriminate.
      - rewrite Ex in H. injection H as -> _. discriminate.
      - split; [|reflexivity]. now apply exponential_inj. }
    rewrite Hv in Ax. rewrite Ax in Ay. injection Ay as Habs.
    destruct (Z.ltb_spec x 0), (Z.ltb_spec y 0); try discriminate; lia.
Qed.

(** ** The steps of [processData] *)

Lemma world_eta (w : World) : mkWorld (this w) (console w) = w.
Proof. now destruct w. Qed.

(** The loop that fills [relationMap]. *)
Lemma relationMap_loop_run (rels : list Relation.t) (w : World) :
  forEach rels (fun relation =>
    rm <- gets relationMap ;;
    set_relationMap
      (JS.set JS.number_eqb (JS.Num (Relation.id relation)) relation rm)) w
  = Normal tt
      (mkWorld (with_relationMap (relationMapFrom rels (relationMap (this w)))
                  (this w))
         (console w)).
Proof.
  revert w. induction rels as [|r rels IH]; intros [[ts rs ns ls cm rm] c].
  - reflexivity.
  - simpl. unfold bind at 1. unfold bind at 1. simpl.
    rewrite IH. reflexivity.
Qed.

Lemma get_relationMapFrom (rels : list Relation.t) :
  forall rm k r,
    JS.get JS.number_eqb k (relationMapFrom rels rm) = Some r ->
    JS.get JS.number_eqb k rm = Some r
    \/ (In r rels /\ k = JS.Num (Relation.id r)).
Proof.
  induction rels as [|x rels IH]; intros rm k r H; simpl in H; [now left|].
  apply IH in H. destruct H as [H|[H1 H2]].
  - destruct (eqb_dec_K _ number_eqb_eq (JS.Num (Relation.id x)) k) as [E|E].
    + subst k. rewrite (get_set_same _ number_eqb_eq) in H.
      injection H as <-. right. split; [now left|reflexivity].
    + rewrite (get_set_other _ number_eqb_eq) in H by assumption. now left.
  - right. split; [now right|assumption].
Qed.

Lemma relationMapFrom_present (rels : list Relation.t) :
  forall rm k,
    (JS.get JS.number_eqb k rm <> None
     \/ exists r, In r rels /\ k = JS.Num (Relation.id r)) ->
    JS.get JS.number_eqb k (relationMapFrom rels rm) <> None.
Proof.
  induction rels as [|x rels IH]; intros rm k H; simpl.
  - destruct H as [H|[r [[] _]]]. assumption.
  - apply IH.
    destruct (eqb_dec_K _ number_eqb_eq (JS.Num (Relation.id x)) k) as [E|E].
    + left. subst k. now rewrite (get_set_same _ number_eqb_eq).
    + rewrite (get_set_other _ number_eqb_eq) by assumption.
      destruct H as [H|[r [[Hr|Hr] Hk]]]; auto.
      * subst. contradiction.
      * right. eauto.
Qed.

(** [assignColors] only writes [colorMap]. *)
Lemma colors_loop_run (names : list string) :
  forall index w,
    forEachIndexed names index (fun tagName index =>
      cm <- gets colorMap ;;
      set_colorMap
        (JS.set String.eqb tagName
           (nth (index mod List.length colors) colors "") cm)) w
    = Normal tt
        (mkWorld (with_colorMap (paintOver names index (colorMap (this w)))
                    (this w))
           (console w)).
Proof.
  induction names as [|n names IH]; intros index [[ts rs ns ls cm rm] c].
  - reflexivity.
  - simpl. unfold bind at 1. unfold bind at 1. simpl.
    rewrite IH. reflexivity.
Qed.

Lemma assignColors_run (w : World) :
  assignColors w
  = Normal tt
      (mkWorld
         (with_colorMap
            (paintOver (distinct String.eqb (map Tag.tag_name (tags (this w))))
               0 (colorMap (this w)))
            (this w))
         (console w)).
Proof.
  unfold assignColors, bind, gets.
  rewrite colors_loop_run, (setFrom_distinct _ String.eqb_eq). reflexivity.
Qed.

Lemma paintOver_fresh (names : list string) :
  forall index cm,
    NoDup names ->
    (forall n, In n names -> JS.get String.eqb n cm = None) ->
    paintOver names index cm = cm ++ paint names index.
Proof.
  induction names as [|n names IH]; intros index cm Hnd Hfresh; simpl.
  - now rewrite app_nil_r.
  - inversion Hnd as [|? ? Hn Hnd']; subst.
    rewrite IH; auto.
    + rewrite (set_fresh _ n) by (apply Hfresh; now left).
      now rewrite <- app_assoc.
    + intros m Hm. rewrite (get_set_other _ String.eqb_eq).
      * apply Hfresh. now right.
      * intros ->. contradiction.
Qed.

Lemma paintOver_same (names : list string) :
  forall index cm,
    (forall i n, nth_error names i = Some n ->
                 JS.get String.eqb n cm
                 = Some (nth ((index + i) mod List.length colors) colors "")) ->
    paintOver names index cm = cm.
Proof.
  induction names as [|n names IH]; intros index cm H; simpl; [reflexivity|].
  rewrite (set_same_value _ String.eqb_eq).
  - apply IH. intros i m Hi. specialize (H (S i) m Hi).
    now rewrite Nat.add_succ_r in H.
  - specialize (H 0 n eq_refl). now rewrite Nat.add_0_r in H.
Qed.

Lemma get_paint (names : list string) :
  forall index i n,
    NoDup names ->
    nth_error names i = Some n ->
    JS.get String.eqb n (paint names index)
    = Some (nth ((index + i) mod List.length colors) colors "").
Proof.
  induction names as [|m names IH]; intros index i n Hnd Hi.
  - now destruct i.
  - inversion Hnd as [|? ? Hm Hnd']; subst. destruct i as [|i]; simpl in *.
    + injection Hi as ->. rewrite String.eqb_refl. now rewrite Nat.add_0_r.
    + assert (n <> m) as Hne.
      { intros ->. apply Hm. eapply nth_error_In; eauto. }
      apply String.eqb_neq in Hne. rewrite Hne.
      rewrite (IH (S index) i n); auto.
      now rewrite Nat.add_succ_r.
Qed.

Lemma keys_paint (names : list string) (index : nat) :
  JS.keys (paint names index) = names.
Proof.
  revert index. induction names as [|n names IH]; intros index; simpl.
  - reflexivity.
  - f_equal. apply IH.
Qed.

(** ** The inner callback of [buildLinks] follows [LinkStep] *)

Lemma relatedTagsOf_own (ts : list Tag.t) (tag : Tag.t) (relationId : string) :
  In tag ts -> Tag.is_deleted tag = false ->
  In relationId (Tag.relation_ids tag) ->
  In tag (relatedTagsOf ts relationId).
Proof.
  intros Hin Hdel Hrid. apply filter_In. split; [assumption|].
  rewrite Hdel. simpl. apply existsb_exists.
  exists relationId. split; [assumption|apply String.eqb_refl].
Qed.

Lemma relatedTagsOf_inv (ts : list Tag.t) (t : Tag.t) (relationId : string) :
  In t (relatedTagsOf ts relationId) ->
  In t ts /\ Tag.is_deleted t = false /\ In relationId (Tag.relation_ids t).
Proof.
  intros H. apply filter_In in H. destruct H as [Hin H].
  apply andb_true_iff in H. destruct H as [Hd Hi].
  apply negb_true_iff in Hd. apply existsb_exists in Hi.
  destruct Hi as [x [Hx E]]. apply String.eqb_eq in E. subst x. auto.
Qed.

Lemma linkBody_step (tag : Tag.t) (relationId : string) (loc : Locals)
    (w : World) :
  In tag (tags (this w)) -> Tag.is_deleted tag = false ->
  In relationId (Tag.relation_ids tag) ->
  exists loc' w',
    linkBody tag relationId loc w = Normal loc' w'
    /\ LinkStep relationId loc w loc' w'.
Proof.
  intros Hin Hdel Hrid.
  pose proof (relatedTagsOf_own _ _ _ Hin Hdel Hrid) as Hown.
  unfold linkBody.
  destruct (JS.mem JS.number_eqb (JS.parseInt relationId)
              (processedRelations loc)) eqn:Hmem.
  { exists loc, w. split; [reflexivity|now constructor]. }
  unfold bind at 1. unfold gets at 1.
  destruct (JS.get JS.number_eqb (JS.parseInt relationId)
              (relationMap (this w))) as [relation|] eqn:Hget.
  2:{ eexists _, _. split; [reflexivity|]. simpl. rewrite <- app_assoc.
      now apply LinkStep_missing. }
  unfold bind at 1. unfold consoleWrite at 1.
  unfold bind at 1. unfold gets at 1. cbn [this console].
  destruct (find _ (nodes (this w))) as [srcNode|] eqn:Hsrc.
  2:{ eexists _, _. split; [reflexivity|]. simpl. rewrite <- app_assoc.
      eapply LinkStep_no_node; eauto. }
  destruct (find (fun node => String.eqb (Node.id node)
                                (extractTableName (Relation.dst_table relation)))
              (nodes (this w))) as [dstNode|] eqn:Hdst.
  2:{ eexists _, _. split; [reflexivity|]. simpl. rewrite <- app_assoc.
      eapply LinkStep_no_node; eauto. }
  destruct (edgeOffset _ _ (edgeCounts loc)) as [offset counts] eqn:Hoff.
  unfold bind at 1. unfold gets at 1. cbn [this console].
  fold (relatedTagsOf (tags (this w)) relationId).
  destruct (relatedTagsOf (tags (this w)) relationId) as [|primaryTag rest]
    eqn:Hrel.
  { destruct Hown. }
  eexists _, _. split; [reflexivity|].
  unfold JS.add. rewrite Hmem.
  pose proof (LinkStep_emit relationId loc w relation srcNode dstNode offset
                counts Hmem Hget Hsrc Hdst) as Hstep.
  unfold newLink in Hstep. rewrite Hrel in Hstep.
  apply Hstep; [discriminate|assumption].
Qed.

(** ** [buildNodes] *)

Lemma pushRelation_run (table : string) (relationId : Z)
    (nodeMap : JS.Map string Node.t) (w : World) :
  nodeMapOK nodeMap -> In table (JS.keys nodeMap) ->
  exists nodeMap',
    pushRelation table relationId nodeMap w = Normal nodeMap' w
    /\ nodeMapOK nodeMap'
    /\ (forall k, In k (JS.keys nodeMap') <-> In k (JS.keys nodeMap)).
Proof.
  intros Hok Hin. unfold pushRelation.
  destruct (JS.get String.eqb table nodeMap) as [node|] eqn:Hget.
  - eexists. split; [reflexivity|]. split.
    + apply Forall_set; [assumption|]. simpl.
      apply (get_Some_In _ String.eqb_eq) in Hget.
      unfold nodeMapOK in Hok. rewrite Forall_forall in Hok.
      apply (Hok _ Hget).
    + intros k. rewrite (In_keys_set _ String.eqb_eq). intuition. now subst.
  - apply (get_None_keys _ String.eqb_eq) in Hget. contradiction.
Qed.

Lemma nodeBody_run (relation : Relation.t) (nodeMap : JS.Map string Node.t)
    (w : World) :
  nodeMapOK nodeMap ->
  exists nodeMap',
    nodeBody relation nodeMap w = Normal nodeMap' w
    /\ nodeMapOK nodeMap'
    /\ (forall k, In k (JS.keys nodeMap') <->
                  k = extractTableName (Relation.src_table relation)
                  \/ k = extractTableName (Relation.dst_table relation)
                  \/ In k (JS.keys nodeMap)).
Proof.
  intros Hok. unfold nodeBody.
  set (src := extractTableName (Relation.src_table relation)).
  set (dst := extractTableName (Relation.dst_table relation)).
  set (m1 := if JS.has String.eqb src nodeMap then nodeMap
             else JS.set String.eqb src (Node.mk src src "table" []) nodeMap).
  set (m2 := if JS.has String.eqb dst m1 then m1
             else JS.set String.eqb dst (Node.mk dst dst "table" []) m1).
  assert (nodeMapOK m1 /\ forall k, In k (JS.keys m1) <->
                                    k = src \/ In k (JS.keys nodeMap))
    as [Hok1 Hk1].
  { unfold m1. destruct (JS.has String.eqb src nodeMap) eqn:E.
    - split; [assumption|]. apply (has_true_keys _ String.eqb_eq) in E.
      intros k. intuition. now subst.
    - split; [now apply Forall_set|].
      intros k. apply (In_keys_set _ String.eqb_eq). }
  assert (nodeMapOK m2 /\ forall k, In k (JS.keys m2) <->
                                    k = dst \/ In k (JS.keys m1))
    as [Hok2 Hk2].
  { unfold m2. destruct (JS.has String.eqb dst m1) eqn:E.
    - split; [assumption|]. apply (has_true_keys _ String.eqb_eq) in E.
      intros k. intuition. now subst.
    - split; [now apply Forall_set|].
      intros k. apply (In_keys_set _ String.eqb_eq). }
  destruct (pushRelation_run src (Relation.id relation) m2 w Hok2)
    as [m3 [Hrun3 [Hok3 Hk3]]].
  { apply Hk2. right. apply Hk1. now left. }
  destruct (pushRelation_run dst (Relation.id relation) m3 w Hok3)
    as [m4 [Hrun4 [Hok4 Hk4]]].
  { apply Hk3, Hk2. now left. }
  exists m4. unfold bind. rewrite Hrun3, Hrun4.
  split; [reflexivity|]. split; [assumption|].
  intros k. rewrite Hk4, Hk3, Hk2, Hk1. tauto.
Qed.

Lemma nodes_loop_run (rels : list Relation.t) :
  forall nodeMap w,
    nodeMapOK nodeMap ->
    exists nodeMap',
      forEachWith rels nodeBody nodeMap w = Normal nodeMap' w
      /\ nodeMapOK nodeMap'
      /\ (forall k, In k (JS.keys nodeMap') <->
                    (exists r, In r rels
                               /\ (k = extractTableName (Relation.src_table r)
                                   \/ k = extractTableName
                                            (Relation.dst_table r)))
                    \/ In k (JS.keys nodeMap)).
Proof.
  induction rels as [|r rels IH]; intros nodeMap w Hok.
  - exists nodeMap. split; [reflexivity|]. split; [assumption|].
    intros k. split; [now right|]. intros [[r [[] _]]|H]. assumption.
  - destruct (nodeBody_run r nodeMap w Hok) as [m1 [Hrun1 [Hok1 Hk1]]].
    destruct (IH m1 w Hok1) as [m2 [Hrun2 [Hok2 Hk2]]].
    exists m2. simpl. unfold bind. rewrite Hrun1, Hrun2.
    split; [reflexivity|]. split; [assumption|].
    intros k. rewrite Hk2, Hk1. split.
    + intros [[x [Hx Hkx]]|[H|[H|H]]].
      * left. exists x. split; [now right|assumption].
      * left. exists r. split; [now left|now left].
      * left. exists r. split; [now left|now right].
      * now right.
    + intros [[x [[Hx|Hx] Hkx]]|H].
      * subst x. right. tauto.
      * left. eauto.
      * right. tauto.
Qed.

Lemma buildNodes_run (w : World) :
  exists nodeMap,
    buildNodes w
    = Normal tt (mkWorld (with_nodes (JS.values nodeMap) (this w)) (console w))
    /\ nodeMapOK nodeMap
    /\ (forall k, In k (JS.keys nodeMap) <->
                  exists r, In r (relations (this w))
                            /\ (k = extractTableName (Relation.src_table r)
                                \/ k = extractTableName (Relation.dst_table r))).
Proof.
  destruct (nodes_loop_run (relations (this w)) [] w) as [m [Hrun [Hok Hk]]].
  { constructor. }
  exists m. unfold buildNodes, bind, gets. rewrite Hrun.
  split; [reflexivity|]. split; [assumption|].
  intros k. rewrite Hk. simpl. tauto.
Qed.

(** A table stored in a node map is found in its values, by its [id]. *)
Lemma find_node (nodeMap : JS.Map string Node.t) (table : string) :
  nodeMapOK nodeMap -> In table (JS.keys nodeMap) ->
  exists node,
    find (fun node => String.eqb (Node.id node) table) (JS.values nodeMap)
    = Some node.
Proof.
  intros Hok Hin.
  destruct (find (fun node => String.eqb (Node.id node) table)
              (JS.values nodeMap)) as [node|] eqn:Hfind; [eauto|].
  exfalso. unfold JS.keys in Hin. apply in_map_iff in Hin.
  destruct Hin as [[k v] [Hk Hkv]]. simpl in Hk. subst k.
  pose proof (find_none _ _ Hfind v) as Hnone.
  unfold nodeMapOK in Hok. rewrite Forall_forall in Hok.
  specialize (Hok _ Hkv). simpl in Hok.
  assert (In v (JS.values nodeMap)) as Hv.
  { unfold JS.values. apply in_map_iff. exists (table, v). auto. }
  specialize (Hnone Hv). simpl in Hnone.
  rewrite Hok, String.eqb_refl in Hnone. discriminate.
Qed.

(** ** The loops of [buildLinks] follow [LinkSteps] *)

Lemma LinkStep_sameInputs relationId loc w loc' w' :
  LinkStep relationId loc w loc' w' -> sameInputs w w'.
Proof.
  intros H. destruct H; unfold sameInputs; simpl; auto 10.
Qed.

Lemma sameInputs_refl w : sameInputs w w.
Proof. unfold sameInputs. auto 10. Qed.

Lemma sameInputs_trans w1 w2 w3 :
  sameInputs w1 w2 -> sameInputs w2 w3 -> sameInputs w1 w3.
Proof.
  unfold sameInputs. intros (A1 & A2 & A3 & A4 & A5) (B1 & B2 & B3 & B4 & B5).
  repeat split; congruence.
Qed.

Lemma LinkSteps_sameInputs rids loc w loc' w' :
  LinkSteps rids loc w loc' w' -> sameInputs w w'.
Proof.
  induction 1.
  - apply sameInputs_refl.
  - eapply sameInputs_trans; [eapply LinkStep_sameInputs|]; eauto.
Qed.

Lemma LinkSteps_app a b loc w loc1 w1 loc2 w2 :
  LinkSteps a loc w loc1 w1 -> LinkSteps b loc1 w1 loc2 w2 ->
  LinkSteps (a ++ b) loc w loc2 w2.
Proof.
  induction 1; intros Hb; simpl; [assumption|].
  econstructor; eauto.
Qed.

Lemma inner_loop_run (tag : Tag.t) (rids : list string) :
  forall loc w,
    In tag (tags (this w)) -> Tag.is_deleted tag = false ->
    incl rids (Tag.relation_ids tag) ->
    exists loc' w',
      forEachWith rids (linkBody tag) loc w = Normal loc' w'
      /\ LinkSteps rids loc w loc' w'.
Proof.
  induction rids as [|rid rids IH]; intros loc w Hin Hdel Hincl.
  - exists loc, w. split; [reflexivity|constructor].
  - destruct (linkBody_step tag rid loc w Hin Hdel) as [loc1 [w1 [Hrun1 Hstep]]].
    { apply Hincl. now left. }
    destruct (IH loc1 w1) as [loc2 [w2 [Hrun2 Hsteps]]]; auto.
    { apply LinkStep_sameInputs in Hstep. destruct Hstep as [Ht _].
      now rewrite Ht. }
    { intros x Hx. apply Hincl. now right. }
    exists loc2, w2. simpl. unfold bind. rewrite Hrun1, Hrun2.
    split; [reflexivity|]. econstructor; eauto.
Qed.

Lemma outer_loop_run (ts : list Tag.t) :
  forall loc w,
    incl ts (tags (this w)) ->
    exists loc' w',
      forEachWith ts tagBody loc w = Normal loc' w'
      /\ LinkSteps (visited ts) loc w loc' w'.
Proof.
  induction ts as [|tag ts IH]; intros loc w Hincl.
  - exists loc, w. split; [reflexivity|constructor].
  - assert (exists loc1 w1,
               tagBody tag loc w = Normal loc1 w1
               /\ LinkSteps (if Tag.is_deleted tag then []
                             else Tag.relation_ids tag) loc w loc1 w1)
      as [loc1 [w1 [Hrun1 Hsteps1]]].
    { unfold tagBody. destruct (Tag.is_deleted tag) eqn:Hdel.
      - exists loc, w. split; [reflexivity|constructor].
      - apply inner_loop_run; auto.
        + apply Hincl. now left.
        + apply incl_refl. }
    destruct (IH loc1 w1) as [loc2 [w2 [Hrun2 Hsteps2]]].
    { apply LinkSteps_sameInputs in Hsteps1. destruct Hsteps1 as [Ht _].
      rewrite Ht. intros x Hx. apply Hincl. now right. }
    exists loc2, w2. simpl. unfold bind. rewrite Hrun1, Hrun2.
    split; [reflexivity|]. eapply LinkSteps_app; eauto.
Qed.

Lemma buildLinks_run (w : World) :
  exists loc' w',
    buildLinks w = Normal tt w'
    /\ LinkSteps (visited (tags (this w))) (mkLocals [] [])
         (mkWorld (with_links [] (this w))
            (console w ++ [(LOG, MsgBuildLinksStart
                                   (List.length (tags (this w))))]))
         loc' w'.
Proof.
  destruct (outer_loop_run (tags (this w)) (mkLocals [] [])
              (mkWorld (with_links [] (this w))
                 (console w ++ [(LOG, MsgBuildLinksStart
                                        (List.length (tags (this w))))])))
    as [loc' [w' [Hrun Hsteps]]].
  { simpl. apply incl_refl. }
  exists loc', w'. split; [|assumption].
  unfold buildLinks. unfold bind at 1. unfold set_links, modify.
  unfold bind at 1. unfold gets at 1. cbn [this console with_links tags].
  unfold bind at 1. unfold consoleWrite at 1. cbn [this console].
  unfold bind at 1. simpl in Hrun. rewrite Hrun. reflexivity.
Qed.

(** [processData] never throws; its last phase is a run of [LinkSteps] from
    a world that holds the relation map, the colour map and the nodes. *)
Lemma processData_run (w : World) :
  exists nodeMap loc' w',
    processData w = Normal tt w'
    /\ nodeMapOK nodeMap
    /\ (forall k, In k (JS.keys nodeMap) <->
                  exists r, In r (relations (this w))
                            /\ (k = extractTableName (Relation.src_table r)
                                \/ k = extractTableName (Relation.dst_table r)))
    /\ LinkSteps (visited (tags (this w))) (mkLocals [] [])
         (mkWorld
            (mkDataProcessor (tags (this w)) (relations (this w))
               (JS.values nodeMap) []
               (paintOver
                  (distinct String.eqb (map Tag.tag_name (tags (this w))))
                  0 (colorMap (this w)))
               (relationMapFrom (relations (this w)) (relationMap (this w))))
            (startConsole w))
         loc' w'.
Proof.
  unfold processData.
  unfold bind at 1. unfold gets at 1.
  unfold bind at 1. unfold consoleWrite at 1.
  unfold bind at 1. rewrite relationMap_loop_run. cbn [this console].
  unfold bind at 1. unfold gets at 1. cbn [this console].
  unfold bind at 1. unfold consoleWrite at 1. cbn [this console].
  unfold bind at 1. unfold consoleWrite at 1. cbn [this console].
  unfold bind at 1. rewrite assignColors_run. cbn [this console].
  unfold bind at 1.
  match goal with
  | |- context [buildNodes ?w0] =>
      destruct (buildNodes_run w0) as [nodeMap [Hrun [Hok Hkeys]]];
      rewrite Hrun
  end.
  match goal with
  | |- context [buildLinks ?w0] =>
      destruct (buildLinks_run w0) as [loc' [w' [HrunL Hsteps]]];
      rewrite HrunL
  end.
  exists nodeMap, loc', w'. split; [reflexivity|]. split; [assumption|].
  split; [exact Hkeys|]. exact Hsteps.
Qed.

(** ** The invariant of [buildLinks] *)

Lemma LinkSteps_history (I : list string -> Locals -> World -> Prop) :
  (forall done rid loc w loc' w',
      I done loc w -> LinkStep rid loc w loc' w' -> I (done ++ [rid]) loc' w') ->
  forall rids done loc w loc' w',
    LinkSteps rids loc w loc' w' -> I done loc w -> I (done ++ rids) loc' w'.
Proof.
  intros Hstep rids done loc w loc' w' Hsteps. revert done.
  induction Hsteps as [|rid rest loc w loc1 w1 loc2 w2 H1 Hrest IH];
    intros done HI.
  - now rewrite app_nil_r.
  - replace (done ++ rid :: rest) with ((done ++ [rid]) ++ rest)
      by (now rewrite <- app_assoc).
    apply IH. eapply Hstep; eauto.
Qed.

Lemma newLink_sameInputs (d d' : DataProcessor) rid relation s t off :
  tags d' = tags d -> colorMap d' = colorMap d ->
  newLink d' rid relation s t off = newLink d rid relation s t off.
Proof. intros Ht Hc. unfold newLink. now rewrite Ht, Hc. Qed.

Lemma LinksInv_step (w0 : World) :
  nodesCover (this w0) ->
  forall done rid loc w loc' w',
    LinksInv w0 done loc w -> LinkStep rid loc w loc' w' ->
    LinksInv w0 (done ++ [rid]) loc' w'.
Proof.
  intros Hcover done rid loc w loc' w'
    (Hsame & Hproc & Hnd & Hok & Hcomplete) Hstep.
  pose proof Hsame as (Ht & Hr & Hn & Hc & Hm).
  pose proof (LinkStep_sameInputs _ _ _ _ _ Hstep) as Hsame'.
  assert (sameInputs w0 w') as Hsame0
      by (eapply sameInputs_trans; eauto).
  destruct Hstep as [Hmem|Hmem Hget|relation Hmem Hget Hfind
                    |relation srcNode dstNode offset counts
                       Hmem Hget Hsrc Hdst Hrel Hoff].
  - (* already processed *)
    repeat split; auto.
    intros s Hs Hpresent. apply in_app_iff in Hs.
    destruct Hs as [Hs|[<-|[]]]; auto.
    now apply (mem_true_iff _ number_eqb_eq).
  - (* relation not found *)
    repeat split; auto.
    intros s Hs Hpresent. apply in_app_iff in Hs.
    destruct Hs as [Hs|[<-|[]]]; auto.
    rewrite <- Hm in Hpresent. contradiction.
  - (* node not found: excluded by the cover *)
    exfalso. rewrite Hm in Hget. rewrite Hn in Hfind.
    destruct (Hcover _ _ Hget) as [H1 H2]. destruct Hfind; contradiction.
  - (* a link is created *)
    apply (mem_false_iff _ number_eqb_eq) in Hmem.
    split; [assumption|]. simpl. split; [|split; [|split]].
    + rewrite map_app, Hproc. reflexivity.
    + apply NoDup_app; [assumption|constructor; [simpl; tauto|constructor]|].
      intros x Hx [<-|[]]. contradiction.
    + apply Forall_app. split; [assumption|]. constructor; [|constructor].
      exists rid, relation. simpl.
      rewrite <- Hm, <- Hn, <- Ht. repeat split; auto.
      apply newLink_sameInputs; auto.
    + intros s Hs Hpresent. apply in_app_iff.
      apply in_app_iff in Hs. destruct Hs as [Hs|[<-|[]]]; auto.
      right. now left.
Qed.

Lemma LinksInv_run (w0 : World) (rids : list string) (loc' : Locals)
    (w' : World) :
  nodesCover (this w0) -> links (this w0) = [] ->
  LinkSteps rids (mkLocals [] []) w0 loc' w' ->
  LinksInv w0 rids loc' w'.
Proof.
  intros Hcover Hlinks Hsteps.
  apply (LinkSteps_history (LinksInv w0) (LinksInv_step w0 Hcover)
           rids [] _ _ _ _ Hsteps).
  split; [apply sameInputs_refl|]. rewrite Hlinks. simpl.
  repeat split; try constructor. intros s [].
Qed.

(** ** The built model *)

Lemma LinkOK_sameInputs (d d' : DataProcessor) (e : Link.t) :
  tags d' = tags d -> nodes d' = nodes d -> colorMap d' = colorMap d ->
  relationMap d' = relationMap d ->
  LinkOK d e -> LinkOK d' e.
Proof.
  intros Ht Hn Hc Hm (rid & relation & He & Hget & Hsrc & Hdst & Hrel).
  exists rid, relation. rewrite Ht, Hn, Hm.
  rewrite (newLink_sameInputs d d') by assumption. auto.
Qed.

Lemma build_summary (ts : list Tag.t) (rels : list Relation.t) :
  exists nodeMap loc,
    processData (loadedWorld ts rels) = Normal tt (builtWorld ts rels)
    /\ nodeMapOK nodeMap
    /\ (forall k, In k (JS.keys nodeMap) <->
                  exists r, In r rels
                            /\ (k = extractTableName (Relation.src_table r)
                                \/ k = extractTableName (Relation.dst_table r)))
    /\ LinkSteps (visited ts) (mkLocals [] []) (startWorld ts rels nodeMap)
         loc (builtWorld ts rels)
    /\ sameInputs (startWorld ts rels nodeMap) (builtWorld ts rels)
    /\ nodesCover (build ts rels)
    /\ LinksInv (startWorld ts rels nodeMap) (visited ts) loc
         (builtWorld ts rels)
    /\ Forall (LinkOK (build ts rels)) (links (build ts rels)).
Proof.
  destruct (processData_run (loadedWorld ts rels))
    as (nodeMap & loc & w' & Hrun & Hok & Hkeys & Hsteps).
  simpl in Hsteps, Hkeys.
  rewrite paintOver_fresh in Hsteps;
    [|apply (NoDup_distinct _ String.eqb_eq)|reflexivity].
  simpl in Hsteps. fold (startWorld ts rels nodeMap) in Hsteps.
  assert (builtWorld ts rels = w') as Hbw.
  { unfold builtWorld. now rewrite Hrun. }
  rewrite Hbw. unfold build. rewrite Hbw.
  pose proof (LinkSteps_sameInputs _ _ _ _ _ Hsteps) as Hsame.
  assert (nodesCover (this (startWorld ts rels nodeMap))) as Hcover.
  { intros k relation Hget. simpl in *.
    apply get_relationMapFrom in Hget.
    destruct Hget as [Hget|[Hin Hk]]; [discriminate|].
    split.
    - destruct (find_node nodeMap
                  (extractTableName (Relation.src_table relation)) Hok)
        as [node Hnode]; [|now rewrite Hnode].
      apply Hkeys. eauto.
    - destruct (find_node nodeMap
                  (extractTableName (Relation.dst_table relation)) Hok)
        as [node Hnode]; [|now rewrite Hnode].
      apply Hkeys. eauto. }
  pose proof (LinksInv_run _ _ _ _ Hcover eq_refl Hsteps) as Hinv.
  destruct Hsame as (Ht & Hr & Hn & Hc & Hm).
  exists nodeMap, loc.
  split; [assumption|]. split; [assumption|]. split; [exact Hkeys|].
  split; [assumption|]. split; [repeat split; assumption|].
  split; [|split; [assumption|]].
  - intros k relation Hget. rewrite Hm in Hget. rewrite Hn.
    apply (Hcover _ _ Hget).
  - destruct Hinv as (_ & _ & _ & Hall & _).
    eapply Forall_impl; [|exact Hall].
    intros e He. eapply LinkOK_sameInputs; eauto.
Qed.

(** ** One edge per referenced relation *)

Lemma filter_key_one {A : Type} (f : A -> JS.number) (x : JS.number)
    (l : list A) :
  NoDup (map f l) -> In x (map f l) ->
  List.length (filter (fun e => JS.number_eqb (f e) x) l) = 1.
Proof.
  induction l as [|a l IH]; simpl; intros Hnd Hin; [contradiction|].
  inversion Hnd as [|? ? Ha Hnd']; subst.
  destruct (JS.number_eqb (f a) x) eqn:E.
  - apply number_eqb_eq in E. subst x. simpl. f_equal.
    clear IH Hin Hnd Hnd'. induction l as [|b l IHl]; simpl; [reflexivity|].
    destruct (JS.number_eqb (f b) (f a)) eqn:E.
    + apply number_eqb_eq in E. exfalso. apply Ha. simpl. now left.
    + apply IHl. intros H. apply Ha. now right.
  - destruct Hin as [Hin|Hin]; [|auto].
    subst x. rewrite (eqb_refl_K _ number_eqb_eq) in E. discriminate.
Qed.

Lemma In_visited (ts : list Tag.t) (tag : Tag.t) (s : string) :
  In tag ts -> Tag.is_deleted tag = false -> In s (Tag.relation_ids tag) ->
  In s (visited ts).
Proof.
  intros Hin Hdel Hs. unfold visited. apply in_flat_map.
  exists tag. split; [assumption|]. now rewrite Hdel.
Qed.

Lemma LinkOK_id (d : DataProcessor) (e : Link.t) :
  LinkOK d e -> Link.id e = linkId (Link.relationId e).
Proof.
  intros (rid & relation & He & _). rewrite He. reflexivity.
Qed.

(** C1. A relation id that some non-deleted tag references (one of its
    [relation_ids] parses to it) and that the relation dataset holds has
    exactly one edge in the links [buildLinks] produces, however many tags
    or entries reference it, and the [id] of an edge with that relation id
    is the string "relation-" followed by the id. *)
Theorem C1_one_edge_per_referenced_relation
    (ts : list Tag.t) (rels : list Relation.t)
    (tag : Tag.t) (s : string) (n : Z) :
  In tag ts -> Tag.is_deleted tag = false ->
  In s (Tag.relation_ids tag) -> JS.parseInt s = JS.Num n ->
  (exists r, In r rels /\ Relation.id r = n) ->
  List.length
    (filter (fun e => JS.number_eqb (Link.relationId e) (JS.Num n))
       (links (build ts rels))) = 1
  /\ forall e, In e (links (build ts rels)) ->
               Link.relationId e = JS.Num n ->
               Link.id e = ("relation-" ++ JS.numberToString n)%string.
Proof.
  intros Hin Hdel Hs Hparse [r [Hr Hid]].
  destruct (build_summary ts rels)
    as (nodeMap & loc & _ & _ & _ & _ & _ & _ & Hinv & Hall).
  destruct Hinv as (_ & Hproc & Hnd & _ & Hcomplete).
  fold (build ts rels) in Hproc. split.
  - apply filter_key_one; rewrite Hproc; [assumption|].
    rewrite <- Hparse. apply Hcomplete.
    + eapply In_visited; eauto.
    + simpl. rewrite Hparse. apply relationMapFrom_present.
      right. exists r. split; [assumption|now subst].
  - intros e He Hrel. rewrite Forall_forall in Hall.
    rewrite (LinkOK_id _ _ (Hall e He)), Hrel. reflexivity.
Qed.

Lemma C1_witness :
  List.length
    (filter (fun e => JS.number_eqb (Link.relationId e) (JS.Num 2))
       (links (build sampleTags sampleRelations))) = 1
  /\ forall e, In e (links (build sampleTags sampleRelations)) ->
               Link.relationId e = JS.Num 2 ->
               Link.id e = "relation-2".
Proof.
  apply (C1_one_edge_per_referenced_relation sampleTags sampleRelations
           sampleTag "2" 2).
  - simpl. now left.
  - reflexivity.
  - simpl. tauto.
  - reflexivity.
  - eexists. split; [right; left; reflexivity|reflexivity].
Defined.

(** ** The tags of an edge *)

Lemma build_inputs (ts : list Tag.t) (rels : list Relation.t) :
  tags (build ts rels) = ts
  /\ relations (build ts rels) = rels
  /\ colorMap (build ts rels)
     = paint (distinct String.eqb (map Tag.tag_name ts)) 0
  /\ relationMap (build ts rels) = relationMapFrom rels [].
Proof.
  destruct (build_summary ts rels)
    as (nodeMap & loc & _ & _ & _ & _ & Hsame & _).
  destruct Hsame as (Ht & Hr & Hn & Hc & Hm). auto.
Qed.

Lemma canonicalIds_spec (ts : list Tag.t) (t : Tag.t) (s : string) (n : Z) :
  canonicalIds ts = true ->
  In t ts -> Tag.is_deleted t = false -> In s (Tag.relation_ids t) ->
  JS.parseInt s = JS.Num n -> JS.numberToString n = s.
Proof.
  intros Hc Ht Hdel Hs Hparse. unfold canonicalIds in Hc.
  rewrite forallb_forall in Hc. specialize (Hc t Ht).
  rewrite Hdel in Hc. simpl in Hc.
  rewrite forallb_forall in Hc. specialize (Hc s Hs).
  rewrite Hparse in Hc. now apply String.eqb_eq.
Qed.

(** C2, at the failing input.  The first tag writes relation 1 as "01", the
    second as "1".  [buildLinks] finds the relation with [parseInt] of the
    entry, but collects the tags of the edge with
    [relation_ids.includes(relationId.toString())] on the entry as written:
    the one edge of relation 1 carries the first tag only.  The tags whose
    [relation_ids] contain the string of the edge's relation id are the
    second tag alone, and the tags that use the relation (the comment above
    the filter, and [parseInt] everywhere else in the class) are both. *)
Theorem C2_tags_collected_by_raw_entry :
  map (fun e => (Link.relationId e, Link.id e, Link.tagIds e,
                 Link.tagNames e))
    (links (build paddedTags oneRelation))
  = [(JS.Num 1, "relation-1", ["T1"], ["a"])]
  /\ map Tag.tag_name
       (filter (fun t => negb (Tag.is_deleted t)
                         && JS.includes (JS.numberToString 1)
                              (Tag.relation_ids t))
          paddedTags) = ["b"]
  /\ map Tag.tag_name
       (filter (fun t => negb (Tag.is_deleted t)
                         && existsb (fun s => JS.number_eqb (JS.parseInt s)
                                                (JS.Num 1))
                              (Tag.relation_ids t))
          paddedTags) = ["a"; "b"].
Proof. vm_compute. repeat split. Qed.

(** When every entry of [relation_ids] of a non-deleted tag is written as
    its number prints, the entry as written is the string of the relation
    id, and every edge has a non-empty [tagNames], equal, in tag order, to
    the names of the non-deleted tags whose [relation_ids] contain the
    string of the edge's relation id; [tagIds] are the ids of the same tags
    and the colour is the colour of the first of them. *)
Lemma tags_of_edge_canonical (ts : list Tag.t) (rels : list Relation.t)
    (e : Link.t) :
  canonicalIds ts = true ->
  In e (links (build ts rels)) ->
  exists n primaryTag others,
    Link.relationId e = JS.Num n
    /\ filter (fun t => negb (Tag.is_deleted t)
                        && JS.includes (JS.numberToString n)
                             (Tag.relation_ids t)) ts
       = primaryTag :: others
    /\ Link.tagNames e <> []
    /\ Link.tagNames e = map Tag.tag_name (primaryTag :: others)
    /\ Link.tagIds e = map Tag.tag_id (primaryTag :: others)
    /\ Link.color e
       = JS.get String.eqb (Tag.tag_name primaryTag) (colorMap (build ts rels)).
Proof.
  intros Hcanon He.
  destruct (build_summary ts rels)
    as (nodeMap & loc & _ & _ & _ & _ & _ & _ & _ & Hall).
  destruct (build_inputs ts rels) as (Ht & _ & _ & Hm).
  rewrite Forall_forall in Hall.
  destruct (Hall e He) as (rid & relation & Hnew & Hget & _ & _ & Hrel).
  rewrite Ht in Hrel. rewrite Hm in Hget.
  apply get_relationMapFrom in Hget.
  destruct Hget as [Hget|[_ Hparse]]; [discriminate|].
  destruct (relatedTagsOf ts rid) as [|primaryTag others] eqn:Hrelated;
    [contradiction|].
  assert (In primaryTag (relatedTagsOf ts rid)) as Hp
      by (rewrite Hrelated; now left).
  apply relatedTagsOf_inv in Hp. destruct Hp as (Hin & Hdel & Hrid).
  pose proof (canonicalIds_spec ts primaryTag rid _ Hcanon Hin Hdel Hrid Hparse)
    as Hstr.
  exists (Relation.id relation), primaryTag, others.
  rewrite Hstr. fold (relatedTagsOf ts rid). rewrite Hrelated.
  rewrite Hnew. unfold newLink. rewrite Ht, Hrelated. simpl.
  repeat split; auto. discriminate.
Qed.

(** ** Offsets *)

Lemma edgeKeyOf_inj (a b a' b' : string) :
  noHyphen a = true -> noHyphen a' = true ->
  edgeKeyOf a b = edgeKeyOf a' b' -> a = a' /\ b = b'.
Proof.
  unfold edgeKeyOf. revert a'.
  induction a as [|c a IH]; intros [|c' a'] Ha Ha' H; simpl in *.
  - injection H as H. auto.
  - injection H as Hc _. subst c'. discriminate.
  - injection H as Hc _. subst c. discriminate.
  - injection H as Hc H. subst c'.
    apply andb_true_iff in Ha, Ha'.
    destruct (IH a' (proj2 Ha) (proj2 Ha') H) as [-> ->]. auto.
Qed.

Lemma samePair_true (a b c d : string) :
  samePair a b c d = true <-> (a = c /\ b = d) \/ (a = d /\ b = c).
Proof.
  unfold samePair.
  rewrite orb_true_iff, !andb_true_iff, !String.eqb_eq. tauto.
Qed.

Lemma samePair_false (a b c d : string) :
  samePair a b c d = false <-> ~ ((a = c /\ b = d) \/ (a = d /\ b = c)).
Proof.
  rewrite <- samePair_true. destruct (samePair a b c d); split; easy.
Qed.

Lemma samePair_swap (a b c d : string) : samePair a b c d = samePair a b d c.
Proof. unfold samePair. apply orb_comm. Qed.

Lemma samePair_flip (a b c d : string) : samePair a b c d = samePair b a c d.
Proof.
  unfold samePair.
  rewrite orb_comm, (andb_comm (String.eqb a d)), (andb_comm (String.eqb a c)).
  reflexivity.
Qed.

Lemma pairCount_sym (a b : string) (ls : list Link.t) :
  pairCount a b ls = pairCount b a ls.
Proof.
  unfold pairCount. f_equal. apply filter_ext.
  intros e. unfold onPair. apply samePair_flip.
Qed.

Lemma pairCount_snoc (a b : string) (ls : list Link.t) (e : Link.t) :
  pairCount a b (ls ++ [e])
  = pairCount a b ls + (if onPair a b e then 1 else 0).
Proof.
  unfold pairCount. rewrite filter_app, length_app. simpl.
  now destruct (onPair a b e).
Qed.

(** The counters stay right when the key of [(u, v)] is set to one more than
    the number of links between [u] and [v], a link between them is added,
    and the reverse key is not in use. *)
Lemma counts_update (u v : string) (counts : JS.Map string nat)
    (ls : list Link.t) (e : Link.t) :
  noHyphen u = true -> noHyphen v = true ->
  CountsInv counts ls ->
  (u = v \/ JS.get String.eqb (edgeKeyOf v u) counts = None) ->
  (forall a b, onPair a b e = samePair a b u v) ->
  CountsInv (JS.set String.eqb (edgeKeyOf u v) (pairCount u v ls + 1) counts)
    (ls ++ [e]).
Proof.
  intros Hu Hv (I1 & I2 & I3) Hrev Hon.
  assert (forall a b, noHyphen a = true -> noHyphen b = true ->
                      (a = u /\ b = v) \/ edgeKeyOf u v <> edgeKeyOf a b)
    as Hdec.
  { intros a b Ha Hb.
    destruct (string_dec (edgeKeyOf u v) (edgeKeyOf a b)) as [E|E]; auto.
    left. apply edgeKeyOf_inj in E; auto. destruct E. auto. }
  split; [|split].
  - intros a b c Ha Hb Hget. rewrite pairCount_snoc, Hon.
    destruct (Hdec a b Ha Hb) as [[-> ->]|Hne].
    + rewrite (get_set_same _ String.eqb_eq) in Hget. injection Hget as <-.
      replace (samePair u v u v) with true; [reflexivity|].
      symmetry. apply samePair_true. auto.
    + rewrite (get_set_other _ String.eqb_eq) in Hget by assumption.
      replace (samePair a b u v) with false; [rewrite Nat.add_0_r; auto|].
      symmetry. apply samePair_false. intros [[-> ->]|[-> ->]].
      * now apply Hne.
      * destruct Hrev as [->|Hrev]; [now apply Hne|congruence].
  - intros a b Ha Hb Hab Hget.
    destruct (Hdec b a Hb Ha) as [[-> ->]|Hne].
    + exfalso. apply Hget.
      rewrite (get_set_other _ String.eqb_eq).
      * destruct Hrev as [->|Hrev]; [contradiction|assumption].
      * intros E. apply edgeKeyOf_inj in E; auto. destruct E. auto.
    + rewrite (get_set_other _ String.eqb_eq) by assumption.
      destruct (Hdec a b Ha Hb) as [[-> ->]|Hne'].
      * destruct Hrev as [->|Hrev]; [contradiction|assumption].
      * rewrite (get_set_other _ String.eqb_eq) in Hget by assumption. auto.
  - intros a b Ha Hb Hget1 Hget2. rewrite pairCount_snoc, Hon.
    destruct (Hdec a b Ha Hb) as [[-> ->]|Hne].
    { rewrite (get_set_same _ String.eqb_eq) in Hget1. discriminate. }
    destruct (Hdec b a Hb Ha) as [[-> ->]|Hne'].
    { rewrite (get_set_same _ String.eqb_eq) in Hget2. discriminate. }
    rewrite (get_set_other _ String.eqb_eq) in Hget1, Hget2 by assumption.
    rewrite (I3 a b) by assumption.
    replace (samePair a b u v) with false; [reflexivity|].
    symmetry. apply samePair_false. intros [[-> ->]|[-> ->]].
    * now apply Hne.
    * now apply Hne'.
Qed.

(** The offset block gives the number of links between the two tables and
    keeps the counters right. *)
Lemma edgeOffset_counts (s d : string) (counts counts' : JS.Map string nat)
    (ls : list Link.t) (e : Link.t) (offset : nat) :
  noHyphen s = true -> noHyphen d = true ->
  CountsInv counts ls ->
  Node.id (Link.source e) = s -> Node.id (Link.target e) = d ->
  edgeOffset (edgeKeyOf s d) (edgeKeyOf d s) counts = (offset, counts') ->
  offset = pairCount s d ls /\ CountsInv counts' (ls ++ [e]).
Proof.
  intros Hs Hd Hinv Hsrc Hdst Hoff.
  pose proof Hinv as (I1 & I2 & I3).
  assert (forall a b, onPair a b e = samePair a b s d) as Hon.
  { intros a b. unfold onPair. now rewrite Hsrc, Hdst. }
  unfold edgeOffset in Hoff.
  destruct (JS.get String.eqb (edgeKeyOf s d) counts) as [c|] eqn:Hfwd.
  - injection Hoff as <- <-.
    pose proof (I1 s d c Hs Hd Hfwd) as Hc. split; [assumption|].
    rewrite Hc. apply counts_update; auto.
    destruct (string_dec s d) as [E|E]; [now left|right].
    apply I2; auto. congruence.
  - destruct (JS.get String.eqb (edgeKeyOf d s) counts) as [c|] eqn:Hbwd.
    + injection Hoff as <- <-.
      pose proof (I1 d s c Hd Hs Hbwd) as Hc.
      rewrite (pairCount_sym s d). split; [assumption|].
      rewrite Hc. apply counts_update; auto.
      intros a b. rewrite Hon. apply samePair_swap.
    + injection Hoff as <- <-.
      pose proof (I3 s d Hs Hd Hfwd Hbwd) as Hc. split; [now rewrite Hc|].
      replace 1 with (pairCount s d ls + 1) by (rewrite Hc; reflexivity).
      apply counts_update; auto.
Qed.

Lemma offsetsContiguous_snoc (ls : list Link.t) (e : Link.t) :
  offsetsContiguous ls ->
  Link.offset e
  = pairCount (Node.id (Link.source e)) (Node.id (Link.target e)) ls ->
  offsetsContiguous (ls ++ [e]).
Proof.
  intros Hls He l1 e' l2 Heq.
  destruct l2 as [|x l2] using rev_ind.
  - apply app_inj_tail in Heq. destruct Heq as [<- <-]. assumption.
  - clear IHl2. rewrite app_comm_cons, app_assoc in Heq.
    apply app_inj_tail in Heq. destruct Heq as [Heq _].
    eapply Hls; eauto.
Qed.

Lemma LinkSteps_invariant (I : Locals -> World -> Prop) :
  (forall rid loc w loc' w',
      I loc w -> LinkStep rid loc w loc' w' -> I loc' w') ->
  forall rids loc w loc' w',
    LinkSteps rids loc w loc' w' -> I loc w -> I loc' w'.
Proof.
  intros Hstep rids loc w loc' w' Hsteps.
  induction Hsteps; intros HI; [assumption|].
  apply IHHsteps. eapply Hstep; eauto.
Qed.

(** Without hyphens in the bare table names the offsets are contiguous. *)
Lemma offsets_contiguous_without_hyphen (ts : list Tag.t)
    (rels : list Relation.t) :
  hyphenFreeTables rels = true ->
  offsetsContiguous (links (build ts rels)).
Proof.
  intros Hfree.
  destruct (build_summary ts rels)
    as (nodeMap & loc & _ & _ & _ & Hsteps & _).
  set (w0 := startWorld ts rels nodeMap) in *.
  assert (forall k relation,
             JS.get JS.number_eqb k (relationMap (this w0)) = Some relation ->
             noHyphen (extractTableName (Relation.src_table relation)) = true
             /\ noHyphen (extractTableName (Relation.dst_table relation))
                = true) as Hnames.
  { intros k relation Hget. simpl in Hget.
    apply get_relationMapFrom in Hget.
    destruct Hget as [Hget|[Hin _]]; [discriminate|].
    unfold hyphenFreeTables in Hfree. rewrite forallb_forall in Hfree.
    apply andb_true_iff. now apply Hfree. }
  pose (I := fun (loc : Locals) (w : World) =>
               sameInputs w0 w
               /\ CountsInv (edgeCounts loc) (links (this w))
               /\ offsetsContiguous (links (this w))).
  assert (I loc (builtWorld ts rels)) as (_ & _ & Hres).
  { apply (LinkSteps_invariant I) with (2 := Hsteps).
    - clear Hsteps. clear loc.
      intros rid loc w loc' w' (Hsame & Hcounts & Hoffs) Hstep.
      pose proof (LinkStep_sameInputs _ _ _ _ _ Hstep) as Hsame'.
      split; [eapply sameInputs_trans; eauto|].
      destruct Hstep as [Hmem|Hmem Hget|relation Hmem Hget Hfind
                        |relation srcNode dstNode offset counts
                           Hmem Hget Hsrc Hdst Hrel Hoff]; auto.
      simpl. destruct Hsame as (_ & _ & _ & _ & Hm).
      rewrite Hm in Hget. destruct (Hnames _ _ Hget) as [Hs Hd].
      apply find_some in Hsrc, Hdst.
      destruct Hsrc as [_ Hsrc]. destruct Hdst as [_ Hdst].
      apply String.eqb_eq in Hsrc, Hdst.
      destruct (edgeOffset_counts _ _ _ _ (links (this w))
                  (newLink (this w) rid relation srcNode dstNode offset)
                  offset Hs Hd Hcounts Hsrc Hdst Hoff) as [Hval Hcounts'].
      split; [assumption|].
      apply offsetsContiguous_snoc; [assumption|].
      simpl. now rewrite Hsrc, Hdst.
    - split; [apply sameInputs_refl|]. simpl. split.
      + split; [|split]; simpl; intros; try discriminate; auto.
      + intros l1 e l2 Heq. now destruct l1. }
  exact Hres.
Qed.

(** C3, at the failing input.  The counters of [buildLinks] are kept under
    the string [src-dst]; with the tables [a-b], [c] and [a], [b-c] the two
    relations get the same key "a-b-c", so the second edge, the only one
    between [a] and [b-c], receives offset 1 instead of 0: the offsets of
    that pair do not start at 0 and are not independent of the other
    pair. *)
Theorem C3_offsets_collide_on_hyphen :
  map (fun e => (Node.id (Link.source e), Node.id (Link.target e),
                 Link.offset e))
    (links (build hyphenTags hyphenRelations))
  = [("a-b", "c", 0); ("a", "b-c", 1)]
  /\ ~ offsetsContiguous (links (build hyphenTags hyphenRelations)).
Proof.
  split; [reflexivity|].
  intros H. unfold offsetsContiguous in H.
  remember (links (build hyphenTags hyphenRelations)) as ls eqn:E.
  vm_compute in E. subst ls.
  specialize (H [_] _ [] eq_refl). vm_compute in H. discriminate.
Qed.

(** ** The builder completes *)


Lemma processData_total (ts : list Tag.t) (rels : list Relation.t) :
  processData (loadedWorld ts rels) = Normal tt (builtWorld ts rels).
Proof.
  destruct (build_summary ts rels) as (nodeMap & loc & Hrun & _). exact Hrun.
Qed.

(** ** Tenant filtering *)

Lemma Subsequence_refl {A} (l : list A) : Subsequence l l.
Proof. induction l; constructor; assumption. Qed.

Lemma Subsequence_filter {A} (f : A -> bool) (l : list A) :
  Subsequence (filter f l) l.
Proof.
  induction l as [|x l IH]; simpl; [constructor|].
  destruct (f x); constructor; assumption.
Qed.

Lemma In_defined {A} (x : A) (l : list (option A)) :
  In (Some x) l -> In x (defined l).
Proof.
  induction l as [|[y|] l IH]; simpl; [tauto| |].
  - intros [[= ->]|H]; auto.
  - intros [H|H]; [discriminate|auto].
Qed.

Lemma relatedTables_fold (rs : list Relation.t) :
  forall s,
    (forall x, In x s ->
               In x (fold_left
                       (fun s relation =>
                          JS.add String.eqb
                            (extractTableName (Relation.dst_table relation))
                            (JS.add String.eqb
                               (extractTableName (Relation.src_table relation))
                               s))
                       rs s))
    /\ (forall r, In r rs ->
                  In (extractTableName (Relation.src_table r))
                    (fold_left
                       (fun s relation =>
                          JS.add String.eqb
                            (extractTableName (Relation.dst_table relation))
                            (JS.add String.eqb
                               (extractTableName (Relation.src_table relation))
                               s))
                       rs s)
                  /\ In (extractTableName (Relation.dst_table r))
                       (fold_left
                          (fun s relation =>
                             JS.add String.eqb
                               (extractTableName (Relation.dst_table relation))
                               (JS.add String.eqb
                                  (extractTableName
                                     (Relation.src_table relation))
                                  s))
                          rs s)).
Proof.
  induction rs as [|r0 rs IH]; intros s; simpl.
  - split; [auto|]. intros r [].
  - destruct (IH (JS.add String.eqb
                    (extractTableName (Relation.dst_table r0))
                    (JS.add String.eqb
                       (extractTableName (Relation.src_table r0)) s)))
      as [Hmono Hin].
    split.
    + intros x Hx. apply Hmono.
      apply (In_add _ String.eqb_eq). left.
      apply (In_add _ String.eqb_eq). now left.
    + intros r [<-|Hr]; [|now apply Hin].
      split; apply Hmono.
      * apply (In_add _ String.eqb_eq). left.
        apply (In_add _ String.eqb_eq). now right.
      * apply (In_add _ String.eqb_eq). now right.
Qed.

(** The filtering branch of [getDataByTenant]: it filters the nodes by a set
    of tables and the links by a set of relation ids, and the tables of
    every relation whose id is in the second set are in the first. *)
Lemma getDataByTenant_filter (tenantId : option string) (w : World) :
  truthy tenantId = true ->
  exists ids tables,
    getDataByTenant tenantId w
    = Normal
        (mkGraphData
           (filter (fun node => JS.mem String.eqb (Node.id node) tables)
              (nodes (this w)))
           (filter (fun link =>
                      JS.mem JS.number_eqb (Link.relationId link) ids)
              (links (this w)))
           (colorMap (this w)))
        w
    /\ (forall n r, In n ids ->
                    JS.get JS.number_eqb n (relationMap (this w)) = Some r ->
                    In (extractTableName (Relation.src_table r)) tables
                    /\ In (extractTableName (Relation.dst_table r)) tables).
Proof.
  intros Htruthy. unfold getDataByTenant. rewrite Htruthy. simpl.
  unfold bind, gets, ret. eexists _, _. split; [reflexivity|].
  intros n r Hn Hget.
  apply relatedTables_fold. apply In_defined.
  apply in_map_iff. exists n. auto.
Qed.

Lemma getDataByTenant_all (tenantId : option string) (w : World) :
  truthy tenantId = false ->
  getDataByTenant tenantId w
  = Normal (mkGraphData (nodes (this w)) (links (this w)) (colorMap (this w))) w.
Proof.
  intros Hfalsy. unfold getDataByTenant. rewrite Hfalsy. reflexivity.
Qed.

Lemma LinkOK_ends (d : DataProcessor) (e : Link.t) :
  LinkOK d e ->
  exists relation,
    JS.get JS.number_eqb (Link.relationId e) (relationMap d) = Some relation
    /\ In (Link.source e) (nodes d)
    /\ In (Link.target e) (nodes d)
    /\ Node.id (Link.source e)
       = extractTableName (Relation.src_table relation)
    /\ Node.id (Link.target e)
       = extractTableName (Relation.dst_table relation).
Proof.
  intros (rid & relation & He & Hget & Hsrc & Hdst & _).
  exists relation. apply find_some in Hsrc, Hdst.
  destruct Hsrc as [Hs1 Hs2]. destruct Hdst as [Hd1 Hd2].
  apply String.eqb_eq in Hs2, Hd2.
  rewrite He at 1. simpl. auto.
Qed.

(** C5. For every tenant id, [getDataByTenant] on the built model returns
    nodes that are a subsequence of the full node list and links that are a
    subsequence of the full link list, and the source and the target of
    every returned link are among the returned nodes. *)
Theorem C5_tenant_view_is_subgraph (ts : list Tag.t) (rels : list Relation.t)
    (tenantId : option string) :
  exists gd,
    getDataByTenant tenantId (builtWorld ts rels)
    = Normal gd (builtWorld ts rels)
    /\ Subsequence (gd_nodes gd) (nodes (build ts rels))
    /\ Subsequence (gd_links gd) (links (build ts rels))
    /\ forall e, In e (gd_links gd) ->
                 In (Link.source e) (gd_nodes gd)
                 /\ In (Link.target e) (gd_nodes gd).
Proof.
  destruct (build_summary ts rels)
    as (nodeMap & loc & _ & _ & _ & _ & _ & _ & _ & Hall).
  rewrite Forall_forall in Hall.
  destruct (truthy tenantId) eqn:Htruthy.
  - destruct (getDataByTenant_filter tenantId (builtWorld ts rels) Htruthy)
      as (ids & tables & Hrun & Htables).
    eexists. split; [exact Hrun|]. simpl. fold (build ts rels).
    split; [apply Subsequence_filter|]. split; [apply Subsequence_filter|].
    intros e He. apply filter_In in He. destruct He as [He Hmem].
    apply (mem_true_iff _ number_eqb_eq) in Hmem.
    destruct (LinkOK_ends _ _ (Hall e He))
      as (relation & Hget & Hs & Ht & Hsid & Htid).
    destruct (Htables _ _ Hmem Hget) as [Hst Htt].
    split; apply filter_In; (split; [assumption|]);
      apply (mem_true_iff _ String.eqb_eq); congruence.
  - eexists. split; [apply getDataByTenant_all; assumption|]. simpl.
    fold (build ts rels).
    split; [apply Subsequence_refl|]. split; [apply Subsequence_refl|].
    intros e He.
    destruct (LinkOK_ends _ _ (Hall e He)) as (relation & _ & Hs & Ht & _).
    auto.
Qed.

(** C6. [getDataByTenant] called with the empty string, or without a tenant
    id, returns what [getAllData] returns: the full nodes, links and colour
    map. *)
Theorem C6_falsy_tenant_is_all_data (w : World) :
  getDataByTenant (Some "") w = getAllData w
  /\ getDataByTenant None w = getAllData w
  /\ getAllData w
     = Normal
         (mkGraphData (nodes (this w)) (links (this w)) (colorMap (this w))) w.
Proof. repeat split. Qed.

(** [getDataByTenant] completes normally in the world it started in, with
    projections of the full lists. *)
Lemma getDataByTenant_pure (tenantId : option string) (w : World) :
  exists gd,
    getDataByTenant tenantId w = Normal gd w
    /\ Subsequence (gd_nodes gd) (nodes (this w))
    /\ Subsequence (gd_links gd) (links (this w))
    /\ gd_colorMap gd = colorMap (this w).
Proof.
  destruct (truthy tenantId) eqn:Htruthy.
  - destruct (getDataByTenant_filter tenantId w Htruthy)
      as (ids & tables & Hrun & _).
    eexists. split; [exact Hrun|]. simpl.
    repeat split; apply Subsequence_filter.
  - eexists. split; [apply getDataByTenant_all; assumption|]. simpl.
    repeat split; apply Subsequence_refl.
Qed.

(** C9. [getDataByTenant] leaves the world as it found it, for every tenant
    id and every state of the object: tags, relations, nodes, links, colour
    map, relation map (and the console) are unchanged; it does not throw;
    the sequences it returns are taken from the full node and link lists
    and the colour map is the object's own. *)
Theorem C9_tenant_filtering_is_pure (tenantId : option string) (w : World) :
  exists gd w',
    getDataByTenant tenantId w = Normal gd w'
    /\ tags (this w') = tags (this w)
    /\ relations (this w') = relations (this w)
    /\ nodes (this w') = nodes (this w)
    /\ links (this w') = links (this w)
    /\ colorMap (this w') = colorMap (this w)
    /\ relationMap (this w') = relationMap (this w)
    /\ w' = w
    /\ Subsequence (gd_nodes gd) (nodes (this w))
    /\ Subsequence (gd_links gd) (links (this w))
    /\ gd_colorMap gd = colorMap (this w).
Proof.
  destruct (getDataByTenant_pure tenantId w) as (gd & Hrun & Hn & Hl & Hc).
  exists gd, w. repeat split; assumption.
Qed.

(** ** Colours *)

Lemma colors_length : List.length colors = 20.
Proof. reflexivity. Qed.

Lemma get_colorMap_build (ts : list Tag.t) (rels : list Relation.t)
    (i : nat) (name : string) :
  nth_error (distinct String.eqb (map Tag.tag_name ts)) i = Some name ->
  JS.get String.eqb name (colorMap (build ts rels))
  = nth_error colors (i mod 20).
Proof.
  intros Hi. destruct (build_inputs ts rels) as (_ & _ & Hc & _).
  rewrite Hc.
  rewrite (get_paint _ 0 i name (NoDup_distinct _ String.eqb_eq _) Hi).
  simpl (0 + i). rewrite colors_length. symmetry.
  apply nth_error_nth'. rewrite colors_length.
  apply Nat.mod_upper_bound. discriminate.
Qed.

Lemma processData_colorMap (w : World) :
  colorMap (this (worldOf (processData w)))
  = paintOver (distinct String.eqb (map Tag.tag_name (tags (this w)))) 0
      (colorMap (this w)).
Proof.
  destruct (processData_run w) as (nodeMap & loc & w' & Hrun & _ & _ & Hsteps).
  rewrite Hrun. simpl.
  apply LinkSteps_sameInputs in Hsteps.
  destruct Hsteps as (_ & _ & _ & Hc & _). exact Hc.
Qed.

(** C7. The colour map of the built model lists the distinct tag names of
    the whole tag array, deleted tags included, in the order of their first
    occurrence, and gives the name at place [i] the palette entry at index
    [i mod 20]; names that no tag carries have no colour.  The map depends
    on the tag array only; running [processData] again on the built object
    leaves it as it is, and [getDataByTenant] returns it unchanged for every
    tenant id. *)
Theorem C7_color_assignment (ts : list Tag.t) (rels : list Relation.t) :
  JS.keys (colorMap (build ts rels))
  = distinct String.eqb (map Tag.tag_name ts)
  /\ (forall i name,
         nth_error (distinct String.eqb (map Tag.tag_name ts)) i = Some name ->
         JS.get String.eqb name (colorMap (build ts rels))
         = nth_error colors (i mod 20))
  /\ (forall name,
         ~ In name (map Tag.tag_name ts) ->
         JS.get String.eqb name (colorMap (build ts rels)) = None)
  /\ (forall rels', colorMap (build ts rels') = colorMap (build ts rels))
  /\ colorMap (this (worldOf (processData (builtWorld ts rels))))
     = colorMap (build ts rels)
  /\ (forall tenantId,
         exists gd,
           getDataByTenant tenantId (builtWorld ts rels)
           = Normal gd (builtWorld ts rels)
           /\ gd_colorMap gd = colorMap (build ts rels)).
Proof.
  destruct (build_inputs ts rels) as (Ht & _ & Hc & _).
  split; [|split; [|split; [|split; [|split]]]].
  - rewrite Hc. apply keys_paint.
  - intros i name. apply get_colorMap_build.
  - intros name Hname. apply (get_None_keys _ String.eqb_eq).
    rewrite Hc, keys_paint. now rewrite (In_distinct _ String.eqb_eq).
  - intros rels'. destruct (build_inputs ts rels') as (_ & _ & Hc' & _).
    congruence.
  - rewrite processData_colorMap. fold (build ts rels). rewrite Ht, Hc.
    apply paintOver_same. intros i name Hi.
    apply get_paint; [apply (NoDup_distinct _ String.eqb_eq)|assumption].
  - intros tenantId.
    destruct (getDataByTenant_pure tenantId (builtWorld ts rels))
      as (gd & Hrun & _ & _ & Hcm).
    exists gd. auto.
Qed.

Lemma C7_witness :
  JS.get String.eqb "a" (colorMap (build sampleTags sampleRelations))
  = Some "#FF6B6B".
Proof.
  exact (proj1 (proj2 (C7_color_assignment sampleTags sampleRelations))
           0 "a" eq_refl).
Defined.

(** C10. The palette holds "#85C1E9" twice, at indices 9 and 13; whenever
    the tag array has at least fourteen distinct names, the tenth and the
    fourteenth of them, in the order of first occurrence, are different
    names with the same colour. *)
Theorem C10_duplicate_palette_entry (ts : list Tag.t) (rels : list Relation.t)
    (a b : string) :
  nth_error (distinct String.eqb (map Tag.tag_name ts)) 9 = Some a ->
  nth_error (distinct String.eqb (map Tag.tag_name ts)) 13 = Some b ->
  List.length colors = 20
  /\ nth_error colors 9 = Some "#85C1E9"
  /\ nth_error colors 13 = Some "#85C1E9"
  /\ a <> b
  /\ JS.get String.eqb a (colorMap (build ts rels)) = Some "#85C1E9"
  /\ JS.get String.eqb b (colorMap (build ts rels)) = Some "#85C1E9".
Proof.
  intros Ha Hb.
  split; [reflexivity|]. split; [reflexivity|]. split; [reflexivity|].
  split; [|split].
  - intros ->.
    pose proof (NoDup_distinct _ String.eqb_eq (map Tag.tag_name ts)) as Hnd.
    rewrite NoDup_nth_error in Hnd.
    assert (9 = 13) as E; [|discriminate].
    apply Hnd; [|congruence].
    apply nth_error_Some. rewrite Ha. discriminate.
  - rewrite (get_colorMap_build ts rels 9 a Ha). reflexivity.
  - rewrite (get_colorMap_build ts rels 13 b Hb). reflexivity.
Qed.

Lemma C10_witness :
  List.length colors = 20
  /\ nth_error colors 9 = Some "#85C1E9"
  /\ nth_error colors 13 = Some "#85C1E9"
  /\ "t10" <> "t14"
  /\ JS.get String.eqb "t10" (colorMap (build fourteenTags [])) = Some "#85C1E9"
  /\ JS.get String.eqb "t14" (colorMap (build fourteenTags [])) = Some "#85C1E9".
Proof.
  apply (C10_duplicate_palette_entry fourteenTags [] "t10" "t14");
    reflexivity.
Defined.

(** ** Tenants *)

Lemma ltb_trans (a b c : string) :
  String.ltb a b = true -> String.ltb b c = true -> String.ltb a c = true.
Proof.
  unfold String.ltb. intros Hab Hbc.
  destruct (String.compare a b) eqn:Eab; try discriminate.
  destruct (String.compare b c) eqn:Ebc; try discriminate.
  apply String_as_OT.cmp_lt in Eab, Ebc.
  pose proof (String_as_OT.lt_trans _ _ _ Eab Ebc) as Hac.
  apply String_as_OT.cmp_lt in Hac. unfold String_as_OT.cmp in Hac.
  now rewrite Hac.
Qed.

Lemma leb_false_ltb (x y : string) :
  String.leb x y = false -> String.ltb y x = true.
Proof.
  unfold String.leb, String.ltb. rewrite (String.compare_antisym y x).
  destruct (String.compare x y); simpl; easy.
Qed.

Lemma leb_neq_ltb (x y : string) :
  String.leb x y = true -> x <> y -> String.ltb x y = true.
Proof.
  unfold String.leb, String.ltb. intros Hle Hne.
  destruct (String.compare x y) eqn:E; try easy.
  apply String.compare_eq_iff in E. contradiction.
Qed.

Lemma In_insertSorted (x y : string) (l : list string) :
  In y (JS.insertSorted x l) <-> y = x \/ In y l.
Proof.
  induction l as [|z l IH]; simpl.
  - intuition.
  - destruct (String.leb x z); simpl; [intuition|].
    rewrite IH. intuition.
Qed.

Lemma insertSorted_ascending (x : string) (l : list string) :
  strictlyAscending l -> ~ In x l -> strictlyAscending (JS.insertSorted x l).
Proof.
  unfold strictlyAscending. intros Hl. induction Hl as [|y l Hl IH Hy];
    intros Hx; simpl.
  - constructor; constructor.
  - destruct (String.leb x y) eqn:E.
    + assert (String.ltb x y = true) as Hxy.
      { apply leb_neq_ltb; [assumption|]. intros ->. apply Hx. now left. }
      constructor; [constructor; assumption|].
      constructor; [assumption|].
      rewrite Forall_forall in *. intros z Hz.
      eapply ltb_trans; eauto.
    + constructor.
      * apply IH. intros H. apply Hx. now right.
      * rewrite Forall_forall in *. intros z Hz.
        apply In_insertSorted in Hz. destruct Hz as [->|Hz]; auto.
        now apply leb_false_ltb.
Qed.

Lemma In_sort (y : string) (l : list string) : In y (JS.sort l) <-> In y l.
Proof.
  unfold JS.sort. induction l as [|x l IH]; simpl; [tauto|].
  rewrite In_insertSorted, IH. intuition.
Qed.

Lemma sort_ascending (l : list string) :
  NoDup l -> strictlyAscending (JS.sort l).
Proof.
  unfold JS.sort. induction 1 as [|x l Hx Hl IH]; simpl.
  - constructor.
  - apply insertSorted_ascending; [assumption|]. now rewrite In_sort.
Qed.

Lemma tenants_fold (ts : list Tag.t) :
  forall s,
    NoDup s ->
    NoDup (fold_left
             (fun s tag =>
                if negb (Tag.is_deleted tag)
                   && negb (String.eqb (Tag.tenant_id tag) "")
                then JS.add String.eqb (Tag.tenant_id tag) s
                else s) ts s)
    /\ forall x,
        In x (fold_left
                (fun s tag =>
                   if negb (Tag.is_deleted tag)
                      && negb (String.eqb (Tag.tenant_id tag) "")
                   then JS.add String.eqb (Tag.tenant_id tag) s
                   else s) ts s)
        <-> In x s
            \/ (x <> ""
                /\ exists t, In t ts /\ Tag.is_deleted t = false
                             /\ Tag.tenant_id t = x).
Proof.
  induction ts as [|tag ts IH]; intros s Hs; simpl.
  - split; [assumption|]. intros x. split; [now left|].
    intros [H|[_ [t [[] _]]]]. assumption.
  - destruct (negb (Tag.is_deleted tag)
              && negb (String.eqb (Tag.tenant_id tag) "")) eqn:E.
    + apply andb_true_iff in E. destruct E as [Hd Hne].
      apply negb_true_iff in Hd, Hne. apply String.eqb_neq in Hne.
      destruct (IH (JS.add String.eqb (Tag.tenant_id tag) s)) as [Hnd Hin].
      { now apply (NoDup_add _ String.eqb_eq). }
      split; [assumption|]. intros x. rewrite Hin.
      rewrite (In_add _ String.eqb_eq). split.
      * intros [[H|H]|[Hx [t [Ht Hrest]]]]; auto.
        -- right. subst x. split; [assumption|]. exists tag. auto.
        -- right. split; [assumption|]. exists t. auto.
      * intros [H|[Hx [t [[<-|Ht] [Hdel Hten]]]]]; auto.
        right. split; [assumption|]. exists t. auto.
    + destruct (IH s Hs) as [Hnd Hin]. split; [assumption|].
      intros x. rewrite Hin. split.
      * intros [H|[Hx [t [Ht Hrest]]]]; auto.
        right. split; [assumption|]. exists t. auto.
      * intros [H|[Hx [t [[<-|Ht] [Hdel Hten]]]]]; auto.
        -- exfalso. rewrite Hdel in E. simpl in E.
           apply negb_false_iff, String.eqb_eq in E. congruence.
        -- right. split; [assumption|]. exists t. auto.
Qed.

(** C8, where the claim fails: a non-deleted tag carries the empty tenant
    id, and the query leaves it out. *)
Lemma C8_counterexample :
  getAvailableTenants (loadedWorld blankTenantTags [])
  = Normal ["acme"] (loadedWorld blankTenantTags [])
  /\ map Tag.tenant_id
       (filter (fun t => negb (Tag.is_deleted t)) blankTenantTags)
     = [""; "acme"]
  /\ ~ In "" ["acme"].
Proof.
  split; [reflexivity|]. split; [reflexivity|].
  intros [H|[]]. discriminate.
Qed.

(** C8, amended.  [getAvailableTenants] returns, strictly ascending in the
    order of the code units (hence without repetition), exactly the
    non-empty [tenant_id] values that occur on non-deleted tags; it leaves
    the object as it is. *)
Theorem C8_available_tenants (w : World) :
  exists result,
    getAvailableTenants w = Normal result w
    /\ strictlyAscending result
    /\ forall x,
        In x result
        <-> (x <> ""
             /\ exists t, In t (tags (this w)) /\ Tag.is_deleted t = false
                          /\ Tag.tenant_id t = x).
Proof.
  unfold getAvailableTenants, bind, gets, ret.
  eexists. split; [reflexivity|].
  destruct (tenants_fold (tags (this w)) []) as [Hnd Hin]; [constructor|].
  split.
  - now apply sort_ascending.
  - intros x. rewrite In_sort, Hin. simpl. tauto.
Qed.


(** * Further properties of the module *)

(** ** [extractTableName] *)

Lemma split_nonempty (sep : ascii) (s : string) : JS.split sep s <> [].
Proof.
  destruct s as [|c r]; simpl; [discriminate|].
  destruct (Ascii.eqb c sep); [discriminate|].
  destruct (JS.split sep r); discriminate.
Qed.

Lemma last_cons_nonempty {A} (x : A) (l : list A) (d : A) :
  l <> [] -> last (x :: l) d = last l d.
Proof. destruct l; [contradiction|reflexivity]. Qed.

Lemma split_noDot (s : string) : noDot s = true -> JS.split "." s = [s].
Proof.
  induction s as [|c r IH]; simpl; [reflexivity|].
  intros H. apply andb_true_iff in H. destruct H as [Hc Hr].
  apply negb_true_iff in Hc. rewrite Hc, (IH Hr). reflexivity.
Qed.

Lemma extractTableName_cons_dot (r : string) :
  extractTableName (String "." r) = extractTableName r.
Proof.
  unfold extractTableName. simpl.
  apply last_cons_nonempty, split_nonempty.
Qed.

Lemma extractTableName_cons_other (c : ascii) (r : string) :
  Ascii.eqb c "." = false ->
  extractTableName (String c r)
  = if noDot r then String c r else extractTableName r.
Proof.
  intros Hc. unfold extractTableName. simpl. rewrite Hc.
  destruct (noDot r) eqn:Hr.
  - rewrite (split_noDot r Hr). reflexivity.
  - destruct (JS.split "." r) as [|p ps] eqn:Hsplit.
    { exfalso. now apply (split_nonempty "." r). }
    destruct ps as [|q ps]; [|reflexivity].
    exfalso. clear Hc c.
    assert (forall s p, JS.split "." s = [p] -> noDot s = true) as Hone.
    { clear. induction s as [|c r IH]; intros p Hs; simpl in *; [reflexivity|].
      destruct (Ascii.eqb c ".") eqn:Hc.
      - injection Hs as Hp Hnil. exfalso.
        exact (split_nonempty "." r Hnil).
      - destruct (JS.split "." r) as [|p' ps] eqn:Hr.
        + exfalso. exact (split_nonempty "." r Hr).
        + injection Hs as Hp Hps. subst ps. simpl. eapply IH. reflexivity. }
    rewrite (Hone r p Hsplit) in Hr. discriminate.
Qed.

Lemma extractTableName_noDot (s : string) : noDot (extractTableName s) = true.
Proof.
  induction s as [|c r IH]; [reflexivity|].
  destruct (Ascii.eqb c ".") eqn:Hc.
  - apply Ascii.eqb_eq in Hc. subst c.
    now rewrite extractTableName_cons_dot.
  - rewrite (extractTableName_cons_other c r Hc).
    destruct (noDot r) eqn:Hr; [|assumption].
    simpl. now rewrite Hc, Hr.
Qed.

Lemma extractTableName_qualified (q t : string) :
  extractTableName (q ++ "." ++ t) = extractTableName t.
Proof.
  induction q as [|c q IH]; simpl.
  - apply extractTableName_cons_dot.
  - destruct (Ascii.eqb c ".") eqn:Hc.
    + apply Ascii.eqb_eq in Hc. subst c.
      rewrite extractTableName_cons_dot. exact IH.
    + rewrite (extractTableName_cons_other c _ Hc).
      assert (noDot (q ++ String "." t) = false) as Hq.
      { clear. induction q as [|c q IH]; simpl; [reflexivity|].
        rewrite IH. apply andb_false_r. }
      rewrite Hq. exact IH.
Qed.

(** X1. The name [extractTableName] returns contains no dot, and any
    qualifier is dropped: the result for [q.t] is the result for [t]. *)
Theorem X1_extractTableName_strips_qualifiers (q t : string) :
  noDot (extractTableName t) = true
  /\ extractTableName (q ++ "." ++ t) = extractTableName t.
Proof.
  split; [apply extractTableName_noDot|apply extractTableName_qualified].
Qed.

(** X2. A name without dot is returned as it is, with or without a
    qualifier in front of it. *)
Theorem X2_extractTableName_bare_name (q t : string) :
  noDot t = true ->
  extractTableName t = t /\ extractTableName (q ++ "." ++ t) = t.
Proof.
  intros Ht.
  assert (extractTableName t = t) as Hid.
  { unfold extractTableName. now rewrite (split_noDot t Ht). }
  split; [assumption|]. now rewrite extractTableName_qualified.
Qed.

Lemma X2_witness :
  extractTableName "orders" = "orders"
  /\ extractTableName ("tenant.db" ++ "." ++ "orders") = "orders".
Proof.
  apply (X2_extractTableName_bare_name "tenant.db" "orders"). reflexivity.
Defined.

(** ** The nodes of [buildNodes] *)

Section MoreMapFacts.
Context {K : Type} (eqb : K -> K -> bool).
Hypothesis eqb_eq : forall a b, eqb a b = true <-> a = b.

Lemma mem_keys_get {V} (k : K) (m : JS.Map K V) :
  JS.mem eqb k (JS.keys m) = JS.has eqb k m.
Proof.
  destruct (JS.has eqb k m) eqn:E.
  - apply (mem_true_iff _ eqb_eq). now apply (has_true_keys _ eqb_eq).
  - apply (mem_false_iff _ eqb_eq). intros H.
    apply (has_true_keys _ eqb_eq) in H. congruence.
Qed.

Lemma ensure_keys {V} (k0 : K) (v : V) (m : JS.Map K V) :
  JS.keys (if JS.has eqb k0 m then m else JS.set eqb k0 v m)
  = JS.add eqb k0 (JS.keys m).
Proof.
  unfold JS.add. rewrite mem_keys_get.
  destruct (JS.has eqb k0 m) eqn:E; [reflexivity|].
  unfold JS.has in E. destruct (JS.get eqb k0 m) eqn:G; [discriminate|].
  rewrite (set_fresh _ k0 v m G). unfold JS.keys. now rewrite map_app.
Qed.

Lemma ensure_get {V} (k0 k : K) (v : V) (m : JS.Map K V) :
  JS.get eqb k (if JS.has eqb k0 m then m else JS.set eqb k0 v m)
  = if eqb k0 k
    then match JS.get eqb k0 m with Some x => Some x | None => Some v end
    else JS.get eqb k m.
Proof.
  unfold JS.has. destruct (eqb k0 k) eqn:E.
  - apply eqb_eq in E. subst k.
    destruct (JS.get eqb k0 m) eqn:G; [assumption|].
    apply (get_set_same _ eqb_eq).
  - destruct (JS.get eqb k0 m) eqn:G; [reflexivity|].
    apply (get_set_other _ eqb_eq). intros ->.
    rewrite (eqb_refl_K _ eqb_eq) in E. discriminate.
Qed.

Lemma get_set {V} (k0 k : K) (v : V) (m : JS.Map K V) :
  JS.get eqb k (JS.set eqb k0 v m)
  = if eqb k0 k then Some v else JS.get eqb k m.
Proof.
  destruct (eqb k0 k) eqn:E.
  - apply eqb_eq in E. subst k. apply (get_set_same _ eqb_eq).
  - apply (get_set_other _ eqb_eq). intros ->.
    rewrite (eqb_refl_K _ eqb_eq) in E. discriminate.
Qed.

Lemma NoDup_keys_set {V} (k : K) (v : V) (m : JS.Map K V) :
  NoDup (JS.keys m) -> NoDup (JS.keys (JS.set eqb k v m)).
Proof.
  intros Hnd. destruct (JS.get eqb k m) as [v'|] eqn:G.
  - now rewrite (keys_set_present _ eqb_eq k v v' m G).
  - rewrite (set_fresh _ k v m G). unfold JS.keys. rewrite map_app. simpl.
    apply NoDup_app; [assumption|constructor; [simpl; tauto|constructor]|].
    intros x Hx [<-|[]]. now apply (get_None_keys _ eqb_eq) in G.
Qed.

(** A map without repeated keys lists, in the order of its keys, the values
    that [get] returns. *)
Lemma values_by_keys {V} (f : K -> V) (m : JS.Map K V) :
  NoDup (JS.keys m) ->
  (forall k, In k (JS.keys m) -> JS.get eqb k m = Some (f k)) ->
  JS.values m = map f (JS.keys m).
Proof.
  induction m as [|[k v] m IH]; simpl; intros Hnd Hget; [reflexivity|].
  inversion Hnd as [|? ? Hk Hnd']; subst. f_equal.
  - specialize (Hget k (or_introl eq_refl)). simpl in Hget.
    rewrite (eqb_refl_K _ eqb_eq) in Hget. now injection Hget.
  - apply IH; [assumption|]. intros k' Hk'.
    specialize (Hget k' (or_intror Hk')). simpl in Hget.
    destruct (eqb k' k) eqn:E; [|assumption].
    apply eqb_eq in E. subst k'. contradiction.
Qed.

Lemma setFrom_snoc (l : list K) (x : K) :
  JS.setFrom eqb (l ++ [x]) = JS.add eqb x (JS.setFrom eqb l).
Proof. unfold JS.setFrom. now rewrite fold_left_app. Qed.

Lemma In_setFrom (x : K) (l : list K) : In x (JS.setFrom eqb l) <-> In x l.
Proof.
  rewrite (setFrom_distinct _ eqb_eq). apply (In_distinct _ eqb_eq).
Qed.

Lemma NoDup_setFrom (l : list K) : NoDup (JS.setFrom eqb l).
Proof.
  rewrite (setFrom_distinct _ eqb_eq). apply (NoDup_distinct _ eqb_eq).
Qed.
End MoreMapFacts.

Lemma occurrences_absent (k : string) (rels : list Relation.t) :
  JS.mem String.eqb k (tablesOf rels) = false -> occurrences k rels = [].
Proof.
  induction rels as [|r rels IH]; simpl; [reflexivity|].
  unfold JS.mem. simpl. intros H.
  apply orb_false_iff in H. destruct H as [Hs H].
  apply orb_false_iff in H. destruct H as [Hd H].
  unfold occurrences in *. simpl. rewrite (IH H).
  unfold pushesOf. rewrite String.eqb_sym in Hs. rewrite String.eqb_sym in Hd.
  now rewrite Hs, Hd.
Qed.

Lemma nodeBody_NodesInv (done : list Relation.t) (r : Relation.t)
    (nodeMap : JS.Map string Node.t) (w : World) :
  NodesInv done nodeMap ->
  exists nodeMap',
    nodeBody r nodeMap w = Normal nodeMap' w
    /\ NodesInv (done ++ [r]) nodeMap'.
Proof.
  intros [Hkeys Hget]. unfold nodeBody.
  set (src := extractTableName (Relation.src_table r)).
  set (dst := extractTableName (Relation.dst_table r)).
  set (m1 := if JS.has String.eqb src nodeMap then nodeMap
             else JS.set String.eqb src (Node.mk src src "table" []) nodeMap).
  set (m2 := if JS.has String.eqb dst m1 then m1
             else JS.set String.eqb dst (Node.mk dst dst "table" []) m1).
  assert (forall k, JS.get String.eqb k m2
                    = if String.eqb dst k || String.eqb src k
                         || JS.mem String.eqb k (tablesOf done)
                      then Some (nodeOf done k) else None) as Hget2.
  { intros k. unfold m2, m1.
    rewrite !(ensure_get _ String.eqb_eq), !Hget.
    destruct (String.eqb dst k) eqn:Ed; simpl.
    - apply String.eqb_eq in Ed. subst k.
      destruct (String.eqb src dst) eqn:Es.
      + apply String.eqb_eq in Es. rewrite Es.
        destruct (JS.mem String.eqb dst (tablesOf done)) eqn:Em;
          [reflexivity|].
        unfold nodeOf. now rewrite (occurrences_absent _ _ Em).
      + destruct (JS.mem String.eqb dst (tablesOf done)) eqn:Em;
          [reflexivity|].
        unfold nodeOf. now rewrite (occurrences_absent _ _ Em).
    - destruct (String.eqb src k) eqn:Es; simpl; [|reflexivity].
      apply String.eqb_eq in Es. subst k.
      destruct (JS.mem String.eqb src (tablesOf done)) eqn:Em;
        [reflexivity|].
      unfold nodeOf. now rewrite (occurrences_absent _ _ Em). }
  assert (JS.keys m2 = JS.setFrom String.eqb (tablesOf (done ++ [r])))
    as Hkeys2.
  { unfold m2, m1. rewrite !(ensure_keys _ String.eqb_eq), Hkeys.
    unfold tablesOf. rewrite flat_map_app. simpl.
    unfold JS.setFrom. rewrite fold_left_app. reflexivity. }
  unfold bind, pushRelation.
  rewrite (Hget2 src), String.eqb_refl, orb_true_r. simpl.
  unfold ret.
  rewrite (get_set _ String.eqb_eq), (Hget2 dst), String.eqb_refl. simpl.
  assert (forall k,
             JS.mem String.eqb k (tablesOf (done ++ [r]))
             = (String.eqb dst k || String.eqb src k
                || JS.mem String.eqb k (tablesOf done))) as Hmem.
  { intros k. unfold tablesOf. rewrite flat_map_app.
    rewrite (mem_app String.eqb). simpl. fold src dst.
    rewrite orb_false_r, (String.eqb_sym k src), (String.eqb_sym k dst).
    destruct (String.eqb dst k), (String.eqb src k),
      (JS.mem String.eqb k (flat_map _ done)); reflexivity. }
  assert (forall k,
             occurrences k (done ++ [r])
             = occurrences k done
               ++ (if String.eqb src k then [Relation.id r] else [])
               ++ (if String.eqb dst k then [Relation.id r] else []))
    as Hocc.
  { intros k. unfold occurrences. rewrite flat_map_app. simpl.
    now rewrite app_nil_r. }
  destruct (String.eqb src dst) eqn:Es;
    (eexists; split; [reflexivity|split]).
  - erewrite !(keys_set_present _ String.eqb_eq); [exact Hkeys2| |].
    + rewrite Hget2, String.eqb_refl, orb_true_r. reflexivity.
    + rewrite (get_set _ String.eqb_eq), Es. reflexivity.
  - intros k. rewrite Hmem. unfold nodeOf in *. rewrite Hocc. simpl.
    apply String.eqb_eq in Es.
    rewrite !(get_set _ String.eqb_eq), Hget2. rewrite <- Es.
    destruct (String.eqb src k) eqn:Ek; simpl.
    + apply String.eqb_eq in Ek. subst k. now rewrite <- app_assoc.
    + rewrite app_nil_r. reflexivity.
  - erewrite !(keys_set_present _ String.eqb_eq); [exact Hkeys2| |].
    + rewrite Hget2, String.eqb_refl, orb_true_r. reflexivity.
    + rewrite (get_set _ String.eqb_eq), Es, Hget2, String.eqb_refl.
      reflexivity.
  - intros k. rewrite Hmem. unfold nodeOf in *. rewrite Hocc. simpl.
    rewrite !(get_set _ String.eqb_eq), Hget2.
    destruct (String.eqb dst k) eqn:Ed; simpl.
    + apply String.eqb_eq in Ed. subst k. rewrite Es. reflexivity.
    + destruct (String.eqb src k) eqn:Ek; simpl.
      * apply String.eqb_eq in Ek. subst k. reflexivity.
      * now rewrite app_nil_r.
Qed.

Lemma nodes_loop_exact (rels : list Relation.t) :
  forall done nodeMap w,
    NodesInv done nodeMap ->
    exists nodeMap',
      forEachWith rels nodeBody nodeMap w = Normal nodeMap' w
      /\ NodesInv (done ++ rels) nodeMap'.
Proof.
  induction rels as [|r rels IH]; intros done nodeMap w Hinv.
  - exists nodeMap. rewrite app_nil_r. split; [reflexivity|assumption].
  - destruct (nodeBody_NodesInv done r nodeMap w Hinv) as [m1 [Hrun1 Hinv1]].
    destruct (IH (done ++ [r]) m1 w Hinv1) as [m2 [Hrun2 Hinv2]].
    exists m2. simpl. unfold bind. rewrite Hrun1, Hrun2.
    split; [reflexivity|]. now rewrite <- app_assoc in Hinv2.
Qed.

Lemma NodesInv_values (rels : list Relation.t)
    (nodeMap : JS.Map string Node.t) :
  NodesInv rels nodeMap ->
  JS.values nodeMap
  = map (nodeOf rels) (distinct String.eqb (tablesOf rels)).
Proof.
  intros [Hkeys Hget].
  rewrite <- (setFrom_distinct _ String.eqb_eq), <- Hkeys.
  apply (values_by_keys _ String.eqb_eq).
  - rewrite Hkeys. apply (NoDup_setFrom _ String.eqb_eq).
  - intros k Hk. rewrite Hget. rewrite Hkeys in Hk.
    apply (proj1 (In_setFrom _ String.eqb_eq _ _)) in Hk.
    apply (proj2 (mem_true_iff _ String.eqb_eq _ _)) in Hk. now rewrite Hk.
Qed.

Lemma buildNodes_exact (w : World) :
  buildNodes w
  = Normal tt
      (mkWorld
         (with_nodes
            (map (nodeOf (relations (this w)))
               (distinct String.eqb (tablesOf (relations (this w)))))
            (this w))
         (console w)).
Proof.
  destruct (nodes_loop_exact (relations (this w)) [] [] w)
    as [m [Hrun Hinv]].
  { split; [reflexivity|]. intros k. reflexivity. }
  unfold buildNodes, bind, gets. rewrite Hrun.
  simpl in Hinv. now rewrite (NodesInv_values _ _ Hinv).
Qed.

Lemma processData_nodes (w : World) :
  nodes (this (worldOf (processData w)))
  = map (nodeOf (relations (this w)))
      (distinct String.eqb (tablesOf (relations (this w)))).
Proof.
  unfold processData.
  unfold bind at 1. unfold gets at 1.
  unfold bind at 1. unfold consoleWrite at 1.
  unfold bind at 1. rewrite relationMap_loop_run. cbn [this console].
  unfold bind at 1. unfold gets at 1. cbn [this console].
  unfold bind at 1. unfold consoleWrite at 1. cbn [this console].
  unfold bind at 1. unfold consoleWrite at 1. cbn [this console].
  unfold bind at 1. rewrite assignColors_run. cbn [this console].
  unfold bind at 1. rewrite buildNodes_exact.
  match goal with
  | |- context [buildLinks ?w0] =>
      destruct (buildLinks_run w0) as [loc' [w' [HrunL Hsteps]]];
      rewrite HrunL
  end.
  apply LinkSteps_sameInputs in Hsteps.
  destruct Hsteps as (_ & _ & Hn & _). simpl. rewrite Hn. reflexivity.
Qed.

(** X3. The nodes of the built model are one node per distinct bare table
    name of the relations, in the order in which [buildNodes] first meets
    the names (source before destination); a node has its table name as
    [id] and [name], the type "table", and as [relations] the ids of the
    relations that name the table, in order, once for each end. *)
Theorem X3_nodes_of_relations (ts : list Tag.t) (rels : list Relation.t) :
  nodes (build ts rels)
  = map (fun table => Node.mk table table "table" (occurrences table rels))
      (distinct String.eqb (tablesOf rels)).
Proof.
  unfold build, builtWorld. rewrite processData_nodes. reflexivity.
Qed.

Lemma node_ids_build (ts : list Tag.t) (rels : list Relation.t) :
  map Node.id (nodes (build ts rels)) = distinct String.eqb (tablesOf rels).
Proof.
  unfold build, builtWorld. rewrite processData_nodes. simpl.
  rewrite map_map. simpl. apply map_id.
Qed.

Lemma In_occurrences (n : Z) (table : string) (rels : list Relation.t) :
  In n (occurrences table rels)
  <-> exists r, In r rels /\ Relation.id r = n
                /\ (extractTableName (Relation.src_table r) = table
                    \/ extractTableName (Relation.dst_table r) = table).
Proof.
  unfold occurrences. rewrite in_flat_map. split.
  - intros [r [Hr Hn]]. exists r. split; [assumption|].
    unfold pushesOf in Hn. apply in_app_iff in Hn.
    destruct Hn as [Hn|Hn].
    + destruct (String.eqb _ table) eqn:E in Hn; [|destruct Hn].
      apply String.eqb_eq in E. destruct Hn as [Hn|[]]. auto.
    + destruct (String.eqb _ table) eqn:E in Hn; [|destruct Hn].
      apply String.eqb_eq in E. destruct Hn as [Hn|[]]. auto.
  - intros [r [Hr [Hn Ht]]]. exists r. split; [assumption|].
    unfold pushesOf. apply in_app_iff. destruct Ht as [Ht|Ht].
    + left. rewrite Ht, String.eqb_refl. now left.
    + right. rewrite Ht, String.eqb_refl. now left.
Qed.

(** X4. In the built model no two nodes have the same [id]; the ids are
    exactly the bare source and destination names of the relations; and the
    [relations] list of a node holds a relation id exactly when a relation
    with that id has the node's table as source or as destination. *)
Theorem X4_node_ids_and_relations (ts : list Tag.t) (rels : list Relation.t) :
  NoDup (map Node.id (nodes (build ts rels)))
  /\ (forall table,
         In table (map Node.id (nodes (build ts rels)))
         <-> exists r, In r rels
                       /\ (table = extractTableName (Relation.src_table r)
                           \/ table = extractTableName (Relation.dst_table r)))
  /\ (forall node n,
         In node (nodes (build ts rels)) ->
         (In n (Node.relations node)
          <-> exists r, In r rels /\ Relation.id r = n
                        /\ (extractTableName (Relation.src_table r)
                            = Node.id node
                            \/ extractTableName (Relation.dst_table r)
                               = Node.id node))).
Proof.
  rewrite node_ids_build. split; [apply (NoDup_distinct _ String.eqb_eq)|].
  split.
  - intros table. rewrite (In_distinct _ String.eqb_eq).
    unfold tablesOf. rewrite in_flat_map. split.
    + intros [r [Hr Ht]]. exists r. simpl in Ht. intuition.
    + intros [r [Hr Ht]]. exists r. simpl. intuition.
  - intros node n Hnode. unfold build, builtWorld in Hnode.
    rewrite processData_nodes in Hnode. simpl in Hnode.
    apply in_map_iff in Hnode. destruct Hnode as [table [<- _]].
    unfold nodeOf. simpl. apply In_occurrences.
Qed.

(** ** Empty and failed inputs *)



(** ** The relation map *)

Lemma find_snoc {A} (f : A -> bool) (l : list A) (x : A) :
  find f (l ++ [x])
  = match find f l with
    | Some y => Some y
    | None => if f x then Some x else None
    end.
Proof.
  induction l as [|y l IH]; simpl; [reflexivity|].
  destruct (f y); [reflexivity|assumption].
Qed.

Lemma get_relationMapFrom_last (rels : list Relation.t) :
  forall rm n,
    JS.get JS.number_eqb (JS.Num n) (relationMapFrom rels rm)
    = match find (fun r => Z.eqb (Relation.id r) n) (rev rels) with
      | Some r => Some r
      | None => JS.get JS.number_eqb (JS.Num n) rm
      end.
Proof.
  induction rels as [|r rels IH]; intros rm n; simpl; [reflexivity|].
  unfold relationMapFrom in *. simpl. rewrite IH, find_snoc.
  destruct (find _ (rev rels)); [reflexivity|].
  rewrite (get_set _ number_eqb_eq). simpl.
  now destruct (Z.eqb (Relation.id r) n).
Qed.

Lemma get_NaN_relationMapFrom (rels : list Relation.t) :
  JS.get JS.number_eqb JS.NaN (relationMapFrom rels []) = None.
Proof.
  destruct (JS.get JS.number_eqb JS.NaN (relationMapFrom rels [])) eqn:E;
    [|reflexivity].
  apply get_relationMapFrom in E. destruct E as [E|[_ E]]; discriminate.
Qed.

Lemma get_Infinity_relationMapFrom (rels : list Relation.t) (i : bool) :
  JS.get JS.number_eqb (JS.Infinity i) (relationMapFrom rels []) = None.
Proof.
  destruct (JS.get JS.number_eqb (JS.Infinity i) (relationMapFrom rels []))
    eqn:E; [|reflexivity].
  apply get_relationMapFrom in E. destruct E as [E|[_ E]]; discriminate.
Qed.

Lemma has_relationMapFrom (rels : list Relation.t) (n : JS.number) :
  JS.has JS.number_eqb n (relationMapFrom rels []) = inDataset rels n.
Proof.
  unfold JS.has. destruct n as [|i|z]; simpl.
  - now rewrite get_NaN_relationMapFrom.
  - now rewrite get_Infinity_relationMapFrom.
  - rewrite get_relationMapFrom_last. simpl.
    destruct (find _ (rev rels)) as [r|] eqn:F.
    + apply find_some in F. destruct F as [Hin Hz].
      symmetry. apply existsb_exists. exists r.
      split; [now apply in_rev|assumption].
    + symmetry. destruct (existsb _ rels) eqn:E; [|reflexivity].
      apply existsb_exists in E. destruct E as [r [Hin Hz]].
      apply in_rev in Hin. pose proof (find_none _ _ F r Hin) as Hn.
      simpl in Hn. congruence.
Qed.

Lemma keys_set (k : JS.number) (v : Relation.t)
    (m : JS.Map JS.number Relation.t) :
  JS.keys (JS.set JS.number_eqb k v m) = JS.add JS.number_eqb k (JS.keys m).
Proof.
  unfold JS.add. rewrite (mem_keys_get _ number_eqb_eq). unfold JS.has.
  destruct (JS.get JS.number_eqb k m) as [v'|] eqn:G.
  - apply (keys_set_present _ number_eqb_eq k v v' m G).
  - rewrite (set_fresh _ k v m G). unfold JS.keys. now rewrite map_app.
Qed.

Lemma keys_relationMapFrom (rels : list Relation.t) :
  forall rm,
    JS.keys (relationMapFrom rels rm)
    = fold_left (fun s k => JS.add JS.number_eqb k s)
        (map (fun r => JS.Num (Relation.id r)) rels) (JS.keys rm).
Proof.
  induction rels as [|r rels IH]; intros rm; simpl; [reflexivity|].
  unfold relationMapFrom in *. simpl. now rewrite IH, keys_set.
Qed.

Lemma keys_relationMap_build (ts : list Tag.t) (rels : list Relation.t) :
  JS.keys (relationMap (build ts rels))
  = distinct JS.number_eqb (map (fun r => JS.Num (Relation.id r)) rels).
Proof.
  destruct (build_inputs ts rels) as (_ & _ & _ & Hm).
  rewrite Hm, keys_relationMapFrom. simpl.
  apply (setFrom_distinct _ number_eqb_eq).
Qed.

(** X5. After the build, [getRelationDetails] returns for an integer the
    last relation of the dataset with that id, and [undefined] when no
    relation has it; for [NaN] it returns [undefined].  It changes
    nothing. *)
Theorem X5_getRelationDetails_last_wins (ts : list Tag.t)
    (rels : list Relation.t) (n : Z) :
  getRelationDetails (JS.Num n) (builtWorld ts rels)
  = Normal (find (fun r => Z.eqb (Relation.id r) n) (rev rels))
      (builtWorld ts rels)
  /\ getRelationDetails JS.NaN (builtWorld ts rels)
     = Normal None (builtWorld ts rels)
  /\ (find (fun r => Z.eqb (Relation.id r) n) (rev rels) = None
      <-> forall r, In r rels -> Relation.id r <> n).
Proof.
  destruct (build_inputs ts rels) as (_ & _ & _ & Hm).
  unfold getRelationDetails, bind, gets, ret. fold (build ts rels).
  rewrite Hm, get_relationMapFrom_last, get_NaN_relationMapFrom. simpl.
  split; [now destruct (find _ (rev rels))|]. split; [reflexivity|].
  split.
  - intros Hnone r Hr Hid. apply in_rev in Hr.
    pose proof (find_none _ _ Hnone r Hr) as H. simpl in H.
    apply Z.eqb_neq in H. contradiction.
  - intros Hall. destruct (find _ (rev rels)) as [r|] eqn:F; [|reflexivity].
    apply find_some in F. destruct F as [Hin Hz].
    apply in_rev in Hin. apply Z.eqb_eq in Hz.
    exfalso. exact (Hall r Hin Hz).
Qed.

(** ** Order of the links and diagnostics of [buildLinks] *)

Lemma TraceInv_step (w0 : World) :
  nodesCover (this w0) ->
  forall done rid loc w loc' w',
    TraceInv w0 done loc w -> LinkStep rid loc w loc' w' ->
    TraceInv w0 (done ++ [rid]) loc' w'.
Proof.
  intros Hcover done rid loc w loc' w' (Hinv & Hproc & Hdiag) Hstep.
  split; [eapply LinksInv_step; eauto|].
  destruct Hinv as (Hsame & _). destruct Hsame as (_ & _ & Hn & _ & Hm).
  rewrite map_app, filter_app, flat_map_app. simpl.
  rewrite app_nil_r.
  destruct Hstep as [Hmem|Hmem Hget|relation Hmem Hget Hfind
                    |relation srcNode dstNode offset counts
                       Hmem Hget Hsrc Hdst Hrel Hoff].
  - (* already processed *)
    assert (JS.has JS.number_eqb (JS.parseInt rid) (relationMap (this w0))
            = true) as Hhas.
    { apply (mem_true_iff _ number_eqb_eq) in Hmem. rewrite Hproc in Hmem.
      apply (proj1 (In_setFrom _ number_eqb_eq _ _)) in Hmem.
      apply filter_In in Hmem. tauto. }
    unfold warningsOf. rewrite Hhas, app_nil_r.
    split; [|assumption].
    rewrite (setFrom_snoc JS.number_eqb). unfold JS.add.
    rewrite <- Hproc, Hmem. reflexivity.
  - (* relation not found *)
    rewrite Hm in Hget.
    assert (JS.has JS.number_eqb (JS.parseInt rid) (relationMap (this w0))
            = false) as Hhas.
    { unfold JS.has. now rewrite Hget. }
    unfold warningsOf. rewrite Hhas, app_nil_r. simpl.
    split; [assumption|].
    rewrite filter_app, Hdiag, <- app_assoc, Hm. reflexivity.
  - (* node not found: excluded by the cover *)
    exfalso. rewrite Hm in Hget. rewrite Hn in Hfind.
    destruct (Hcover _ _ Hget) as [H1 H2]. destruct Hfind; contradiction.
  - (* a link is created *)
    rewrite Hm in Hget.
    assert (JS.has JS.number_eqb (JS.parseInt rid) (relationMap (this w0))
            = true) as Hhas.
    { unfold JS.has. now rewrite Hget. }
    unfold warningsOf. rewrite Hhas, app_nil_r. simpl. split.
    + rewrite (setFrom_snoc JS.number_eqb). unfold JS.add.
      rewrite <- Hproc, Hmem. reflexivity.
    + rewrite filter_app, Hdiag. simpl. now rewrite app_nil_r.
Qed.

Lemma build_trace (ts : list Tag.t) (rels : list Relation.t) :
  map Link.relationId (links (build ts rels))
  = distinct JS.number_eqb
      (filter (inDataset rels) (map JS.parseInt (visited ts)))
  /\ filter isDiagnostic (console (builtWorld ts rels))
     = flat_map (warningsOf (relationMap (build ts rels))) (visited ts).
Proof.
  destruct (build_summary ts rels)
    as (nodeMap & loc & _ & _ & _ & Hsteps & Hsame & Hcover & Hinv & _).
  set (w0 := startWorld ts rels nodeMap) in *.
  assert (nodesCover (this w0)) as Hcover0.
  { destruct Hsame as (_ & _ & Hn & _ & Hm).
    intros k relation Hget. rewrite <- Hm in Hget. rewrite <- Hn.
    apply (Hcover _ _ Hget). }
  assert (TraceInv w0 (visited ts) loc (builtWorld ts rels))
    as (_ & Hproc & Hdiag).
  { apply (LinkSteps_history (TraceInv w0) (TraceInv_step w0 Hcover0)
             (visited ts) [] _ _ _ _ Hsteps).
    split; [|split; reflexivity].
    split; [apply sameInputs_refl|]. simpl.
    repeat split; try constructor. intros s []. }
  destruct Hinv as (_ & Hmap & _). fold (build ts rels) in Hmap.
  destruct (build_inputs ts rels) as (_ & _ & _ & Hm).
  split.
  - rewrite Hmap, Hproc. simpl.
    rewrite (setFrom_distinct _ number_eqb_eq). f_equal.
    apply filter_ext. intros n. apply has_relationMapFrom.
  - rewrite Hdiag. simpl. rewrite Hm. reflexivity.
Qed.

(** X6. The links of the built model come in the order in which
    [buildLinks] first meets their relation: their relation ids are the
    distinct values, in order of first occurrence, of [parseInt] over the
    [relation_ids] entries of the non-deleted tags, restricted to the ids of
    the relation dataset. *)
Theorem X6_links_in_first_seen_order (ts : list Tag.t)
    (rels : list Relation.t) :
  map Link.relationId (links (build ts rels))
  = distinct JS.number_eqb
      (filter (inDataset rels)
         (map JS.parseInt
            (flat_map (fun t => if Tag.is_deleted t then []
                                else Tag.relation_ids t) ts))).
Proof. exact (proj1 (build_trace ts rels)). Qed.

(** X8. The warnings and errors [processData] writes are exactly these, in
    order: for each [relation_ids] entry of a non-deleted tag that does not
    parse to the id of a relation of the dataset, one "relation not found"
    warning with the entry and its parsed value, followed by one warning
    listing the known relation ids.  No error is written and the "node not
    found" warning never occurs. *)
Theorem X8_diagnostics_of_processData (ts : list Tag.t)
    (rels : list Relation.t) :
  filter isDiagnostic (console (builtWorld ts rels))
  = flat_map
      (fun s =>
         if inDataset rels (JS.parseInt s) then []
         else [(WARN, MsgRelationNotFound s (JS.parseInt s));
               (WARN, MsgAvailableRelationIds
                        (distinct JS.number_eqb
                           (map (fun r => JS.Num (Relation.id r)) rels)))])
      (flat_map (fun t => if Tag.is_deleted t then []
                          else Tag.relation_ids t) ts).
Proof.
  rewrite (proj2 (build_trace ts rels)). fold (visited ts).
  apply flat_map_ext. intros s. unfold warningsOf.
  rewrite keys_relationMap_build.
  destruct (build_inputs ts rels) as (_ & _ & _ & Hm).
  rewrite Hm, has_relationMapFrom. reflexivity.
Qed.

(** ** What a link holds *)

Lemma color_in_palette (ts : list Tag.t) (name : string) :
  In name (map Tag.tag_name ts) ->
  exists c,
    JS.get String.eqb name (paint (distinct String.eqb (map Tag.tag_name ts)) 0)
    = Some c
    /\ In c colors.
Proof.
  intros Hname. apply (In_distinct _ String.eqb_eq) in Hname.
  apply In_nth_error in Hname. destruct Hname as [i Hi].
  rewrite (get_paint _ 0 i name (NoDup_distinct _ String.eqb_eq _) Hi).
  eexists. split; [reflexivity|].
  apply nth_In. apply Nat.mod_upper_bound. discriminate.
Qed.

(** X7. Every link of the built model is a copy of the relation that
    [getRelationDetails] returns for its relation id: [type], [direction]
    and [condition] are those of the relation, [srcTable] and [dstTable] its
    qualified table names; [source] and [target] are nodes of the model
    whose ids are the bare names of these tables; and the colour is defined
    and is an entry of the palette. *)
Theorem X7_link_copies_its_relation (ts : list Tag.t)
    (rels : list Relation.t) (e : Link.t) :
  In e (links (build ts rels)) ->
  exists n relation c,
    Link.relationId e = JS.Num n
    /\ find (fun r => Z.eqb (Relation.id r) n) (rev rels) = Some relation
    /\ Link.type e = Relation.type relation
    /\ Link.direction e = Relation.direction relation
    /\ Link.condition e = Relation.condition relation
    /\ Link.srcTable e = Relation.src_table relation
    /\ Link.dstTable e = Relation.dst_table relation
    /\ In (Link.source e) (nodes (build ts rels))
    /\ In (Link.target e) (nodes (build ts rels))
    /\ Node.id (Link.source e) = extractTableName (Link.srcTable e)
    /\ Node.id (Link.target e) = extractTableName (Link.dstTable e)
    /\ Link.color e = Some c
    /\ In c colors.
Proof.
  intros He.
  destruct (build_summary ts rels)
    as (nodeMap & loc & _ & _ & _ & _ & _ & _ & _ & Hall).
  destruct (build_inputs ts rels) as (Ht & _ & Hc & Hm).
  rewrite Forall_forall in Hall.
  destruct (Hall e He) as (rid & relation & Hnew & Hget & Hsrc & Hdst & Hrel).
  rewrite Hm in Hget. pose proof Hget as Hget'.
  apply get_relationMapFrom in Hget'.
  destruct Hget' as [Hget'|[_ Hparse]]; [discriminate|].
  rewrite Hparse, get_relationMapFrom_last in Hget. simpl in Hget.
  apply find_some in Hsrc, Hdst.
  destruct Hsrc as [Hs1 Hs2]. destruct Hdst as [Hd1 Hd2].
  apply String.eqb_eq in Hs2, Hd2.
  rewrite Ht in Hrel.
  destruct (relatedTagsOf ts rid) as [|primaryTag others] eqn:Hrelated;
    [contradiction|].
  assert (In primaryTag (relatedTagsOf ts rid)) as Hp
      by (rewrite Hrelated; now left).
  apply relatedTagsOf_inv in Hp. destruct Hp as (Hin & _).
  destruct (color_in_palette ts (Tag.tag_name primaryTag)) as [c [Hcol Hpal]].
  { apply in_map. assumption. }
  exists (Relation.id relation), relation, c.
  destruct (find _ (rev rels)) as [r'|] eqn:F; [|discriminate].
  injection Hget as ->.
  rewrite Hnew. unfold newLink. rewrite Ht, Hrelated, Hc, Hcol. simpl.
  rewrite Hnew in Hs2, Hd2. simpl in Hs2, Hd2.
  repeat split; auto.
Qed.

Lemma X7_witness :
  exists n relation c,
    Link.relationId sampleLink = JS.Num n
    /\ find (fun r => Z.eqb (Relation.id r) n) (rev sampleRelations)
       = Some relation
    /\ Link.type sampleLink = Relation.type relation
    /\ Link.direction sampleLink = Relation.direction relation
    /\ Link.condition sampleLink = Relation.condition relation
    /\ Link.srcTable sampleLink = Relation.src_table relation
    /\ Link.dstTable sampleLink = Relation.dst_table relation
    /\ In (Link.source sampleLink) (nodes (build sampleTags sampleRelations))
    /\ In (Link.target sampleLink) (nodes (build sampleTags sampleRelations))
    /\ Node.id (Link.source sampleLink)
       = extractTableName (Link.srcTable sampleLink)
    /\ Node.id (Link.target sampleLink)
       = extractTableName (Link.dstTable sampleLink)
    /\ Link.color sampleLink = Some c
    /\ In c colors.
Proof.
  apply (X7_link_copies_its_relation sampleTags sampleRelations sampleLink).
  vm_compute. left. reflexivity.
Defined.

(** ** Sizes and identifiers *)

Lemma length_distinct_le {K} (eqb : K -> K -> bool) (l : list K) :
  List.length (distinct eqb l) <= List.length l.
Proof.
  induction l as [|x l IH]; simpl; [lia|].
  pose proof (filter_length_le (fun y => negb (eqb y x)) (distinct eqb l)).
  lia.
Qed.

(** X9. The built model never has more links than the dataset has
    relations, nor more than two nodes per relation. *)
Theorem X9_size_bounds (ts : list Tag.t) (rels : list Relation.t) :
  List.length (links (build ts rels)) <= List.length rels
  /\ List.length (nodes (build ts rels)) <= 2 * List.length rels.
Proof.
  split.
  - rewrite <- (length_map Link.relationId), (proj1 (build_trace ts rels)).
    transitivity
      (List.length
         (distinct JS.number_eqb
            (map (fun r => JS.Num (Relation.id r)) rels))).
    + apply NoDup_incl_length; [apply (NoDup_distinct _ number_eqb_eq)|].
      intros n Hn. apply (proj1 (In_distinct _ number_eqb_eq _ _)) in Hn.
      apply filter_In in Hn. destruct Hn as [_ Hn].
      apply (In_distinct _ number_eqb_eq).
      destruct n as [|i|z]; [discriminate|discriminate|]. simpl in Hn.
      apply existsb_exists in Hn. destruct Hn as [r [Hr Hz]].
      apply Z.eqb_eq in Hz. subst z.
      apply in_map_iff. exists r. auto.
    + etransitivity; [apply length_distinct_le|].
      rewrite length_map. lia.
  - rewrite <- (length_map Node.id), node_ids_build.
    etransitivity; [apply length_distinct_le|].
    unfold tablesOf. clear. induction rels as [|r rels IH]; simpl; lia.
Qed.

Lemma NoDup_map_on {A B} (g : A -> B) (l : list A) :
  (forall a b, In a l -> In b l -> g a = g b -> a = b) ->
  NoDup l -> NoDup (map g l).
Proof.
  intros Hinj Hnd. induction Hnd as [|x l Hx Hnd IH]; simpl; constructor.
  - intros Hin. apply in_map_iff in Hin. destruct Hin as [y [Hy Hyl]].
    assert (y = x) as -> by (apply Hinj; simpl; auto).
    contradiction.
  - apply IH. intros a b Ha Hb. apply Hinj; simpl; auto.
Qed.

(** X10. The [id] strings of the links of the built model are pairwise
    distinct, and so are their relation ids: a link is identified by its
    [id].  The relation id of a link is a double (it is a result of
    [parseInt]), and two doubles that print alike are equal. *)
Theorem X10_link_ids_unique (ts : list Tag.t) (rels : list Relation.t) :
  NoDup (map Link.relationId (links (build ts rels)))
  /\ NoDup (map Link.id (links (build ts rels))).
Proof.
  assert (NoDup (map Link.relationId (links (build ts rels)))) as Hnd.
  { rewrite (proj1 (build_trace ts rels)).
    apply (NoDup_distinct _ number_eqb_eq). }
  split; [assumption|].
  destruct (build_summary ts rels)
    as (nodeMap & loc & _ & _ & _ & _ & _ & _ & _ & Hall).
  rewrite Forall_forall in Hall.
  assert (map Link.id (links (build ts rels))
          = map linkId (map Link.relationId (links (build ts rels)))) as ->.
  { rewrite map_map. apply map_ext_in. intros e He.
    apply (LinkOK_id _ _ (Hall e He)). }
  apply NoDup_map_on; [|assumption].
  intros a b Ha Hb Hab.
  assert (forall x, In x (map Link.relationId (links (build ts rels))) ->
                    exists z, x = JS.Num z /\ JS.toNumber z = JS.Num z)
    as Hnum.
  { intros x Hx. rewrite (proj1 (build_trace ts rels)) in Hx.
    apply (proj1 (In_distinct _ number_eqb_eq _ _)) in Hx.
    apply filter_In in Hx. destruct Hx as [Hx Hd].
    apply in_map_iff in Hx. destruct Hx as [s [Hs _]].
    destruct x as [|i|z]; try discriminate.
    exists z. split; [reflexivity|]. exact (parseInt_double s z Hs). }
  destruct (Hnum a Ha) as [x [-> Dx]]. destruct (Hnum b Hb) as [y [-> Dy]].
  unfold linkId in Hab.
  assert (forall p q, ("relation-" ++ p)%string = ("relation-" ++ q)%string
                      -> p = q) as Hpre.
  { intros p q H. simpl in H. now injection H. }
  apply Hpre, (numberToString_inj x y Dx Dy) in Hab. now subst.
Qed.

(** ** The tenant view, exactly *)

Lemma In_defined_iff {A} (x : A) (l : list (option A)) :
  In x (defined l) <-> In (Some x) l.
Proof.
  split; [|apply In_defined].
  induction l as [|[y|] l IH]; simpl; [tauto| |].
  - intros [->|H]; auto.
  - intros H. right. auto.
Qed.

Lemma relationIds_inner_fold (l : list string) :
  forall s n,
    In n (fold_left (fun s id => JS.add JS.number_eqb (JS.parseInt id) s) l s)
    <-> In n s \/ exists id, In id l /\ JS.parseInt id = n.
Proof.
  induction l as [|id l IH]; intros s n; simpl.
  - split; [now left|]. intros [H|[id [[] _]]]. assumption.
  - rewrite IH, (In_add _ number_eqb_eq). split.
    + intros [[H|H]|[id' [Hid Hp]]].
      * now left.
      * right. exists id. auto.
      * right. exists id'. auto.
    + intros [H|[id' [[<-|Hid] Hp]]].
      * left. now left.
      * left. right. now symmetry.
      * right. exists id'. auto.
Qed.

Lemma relationIds_outer_fold (tl : list Tag.t) :
  forall s n,
    In n (fold_left
            (fun s tag =>
               fold_left (fun s id => JS.add JS.number_eqb (JS.parseInt id) s)
                 (Tag.relation_ids tag) s) tl s)
    <-> In n s
        \/ exists tag id, In tag tl /\ In id (Tag.relation_ids tag)
                          /\ JS.parseInt id = n.
Proof.
  induction tl as [|tag tl IH]; intros s n; simpl.
  - split; [now left|]. intros [H|[tag [id [[] _]]]]. assumption.
  - rewrite IH, relationIds_inner_fold. split.
    + intros [[H|[id [Hid Hp]]]|[tag' [id [Ht [Hid Hp]]]]].
      * now left.
      * right. exists tag, id. auto.
      * right. exists tag', id. auto.
    + intros [H|[tag' [id [[<-|Ht] [Hid Hp]]]]].
      * left. now left.
      * left. right. exists id. auto.
      * right. exists tag', id. auto.
Qed.

Lemma relatedTables_fold_iff (rs : list Relation.t) :
  forall s k,
    In k (fold_left
            (fun s relation =>
               JS.add String.eqb
                 (extractTableName (Relation.dst_table relation))
                 (JS.add String.eqb
                    (extractTableName (Relation.src_table relation)) s))
            rs s)
    <-> In k s
        \/ exists r, In r rs
                     /\ (k = extractTableName (Relation.src_table r)
                         \/ k = extractTableName (Relation.dst_table r)).
Proof.
  induction rs as [|r0 rs IH]; intros s k; simpl.
  - split; [now left|]. intros [H|[r [[] _]]]. assumption.
  - rewrite IH, !(In_add _ String.eqb_eq). split.
    + intros [[[H|H]|H]|[r [Hr Hk]]].
      * now left.
      * right. exists r0. auto.
      * right. exists r0. auto.
      * right. exists r. auto.
    + intros [H|[r [[<-|Hr] Hk]]].
      * left. left. now left.
      * left. destruct Hk as [Hk|Hk]; [left; now right|now right].
      * right. exists r. auto.
Qed.

(** The filtering branch of [getDataByTenant], with the two sets it filters
    by described exactly. *)
Lemma getDataByTenant_exact (x : string) (w : World) :
  x <> "" ->
  exists ids tables,
    getDataByTenant (Some x) w
    = Normal
        (mkGraphData
           (filter (fun node => JS.mem String.eqb (Node.id node) tables)
              (nodes (this w)))
           (filter (fun link =>
                      JS.mem JS.number_eqb (Link.relationId link) ids)
              (links (this w)))
           (colorMap (this w)))
        w
    /\ (forall n, In n ids <-> referencedBy (tags (this w)) x n)
    /\ (forall k,
           In k tables
           <-> exists n r,
                 In n ids
                 /\ JS.get JS.number_eqb n (relationMap (this w)) = Some r
                 /\ (k = extractTableName (Relation.src_table r)
                     \/ k = extractTableName (Relation.dst_table r))).
Proof.
  intros Hx. unfold getDataByTenant. simpl.
  apply String.eqb_neq in Hx. rewrite Hx. simpl.
  unfold bind, gets, ret. eexists _, _. split; [reflexivity|]. split.
  - intros n. rewrite relationIds_outer_fold. unfold referencedBy. split.
    + intros [[]|[tag [id [Ht [Hid Hp]]]]].
      apply filter_In in Ht. destruct Ht as [Ht Hc].
      apply andb_true_iff in Hc. destruct Hc as [Hd He].
      apply negb_true_iff in Hd. apply String.eqb_eq in He.
      exists tag, id. auto.
    + intros [tag [id (Ht & Hd & He & Hid & Hp)]].
      right. exists tag, id. split; [|auto].
      apply filter_In. split; [assumption|].
      rewrite Hd, He, String.eqb_refl. reflexivity.
  - intros k. rewrite relatedTables_fold_iff. split.
    + intros [[]|[r [Hr Hk]]].
      apply In_defined_iff, in_map_iff in Hr.
      destruct Hr as [n [Hget Hn]]. exists n, r. auto.
    + intros [n [r (Hn & Hget & Hk)]]. right. exists r.
      split; [|assumption].
      apply In_defined_iff, in_map_iff. exists n. auto.
Qed.

Lemma In_same_key {A B} (f : A -> B) (l : list A) (a b : A) :
  NoDup (map f l) -> In a l -> In b l -> f a = f b -> a = b.
Proof.
  induction l as [|x l IH]; simpl; intros Hnd Ha Hb Hab; [contradiction|].
  inversion Hnd as [|? ? Hx Hnd']; subst.
  destruct Ha as [->|Ha], Hb as [->|Hb]; auto.
  - exfalso. apply Hx. rewrite Hab. now apply in_map.
  - exfalso. apply Hx. rewrite <- Hab. now apply in_map.
Qed.

(** X11. For a non-empty tenant id, the view [getDataByTenant] returns on
    the built model holds exactly the links whose relation id is the parsed
    value of a [relation_ids] entry of a non-deleted tag of that tenant, and
    exactly the nodes that are the source or the target of a returned link:
    the view has no isolated node and no link with a missing end. *)
Theorem X11_tenant_view_exact (ts : list Tag.t) (rels : list Relation.t)
    (x : string) :
  x <> "" ->
  exists gd,
    getDataByTenant (Some x) (builtWorld ts rels)
    = Normal gd (builtWorld ts rels)
    /\ (forall e,
           In e (gd_links gd)
           <-> In e (links (build ts rels))
               /\ referencedBy ts x (Link.relationId e))
    /\ (forall node,
           In node (gd_nodes gd)
           <-> In node (nodes (build ts rels))
               /\ exists e, In e (gd_links gd)
                            /\ (Link.source e = node \/ Link.target e = node)).
Proof.
  intros Hx.
  destruct (getDataByTenant_exact x (builtWorld ts rels) Hx)
    as (ids & tables & Hrun & Hids & Htables).
  fold (build ts rels) in Hids, Htables.
  destruct (build_inputs ts rels) as (Ht & _ & _ & Hm).
  rewrite Ht in Hids.
  destruct (build_summary ts rels)
    as (nodeMap & loc & _ & _ & _ & _ & Hsame & _ & Hinv & Hall).
  rewrite Forall_forall in Hall.
  destruct Hinv as (_ & Hproc & _ & _ & Hcomplete).
  fold (build ts rels) in Hproc.
  assert (NoDup (map Node.id (nodes (build ts rels)))) as Hnd.
  { rewrite node_ids_build. apply (NoDup_distinct _ String.eqb_eq). }
  eexists. split; [exact Hrun|]. simpl. fold (build ts rels).
  assert (forall e,
             In e (filter (fun link =>
                             JS.mem JS.number_eqb (Link.relationId link) ids)
                     (links (build ts rels)))
             <-> In e (links (build ts rels))
                 /\ referencedBy ts x (Link.relationId e)) as Hlinks.
  { intros e. rewrite filter_In, (mem_true_iff _ number_eqb_eq), Hids.
    reflexivity. }
  split; [exact Hlinks|].
  intros node. rewrite filter_In, (mem_true_iff _ String.eqb_eq), Htables.
  split.
  - intros [Hnode (n & r & Hn & Hget & Hk)]. split; [assumption|].
    assert (In n (map Link.relationId (links (build ts rels)))) as Hedge.
    { rewrite Hproc. apply Hids in Hn.
      destruct Hn as (tag & s & Htag & Hdel & _ & Hs & Hparse).
      rewrite <- Hparse. apply Hcomplete.
      - eapply In_visited; eauto.
      - simpl. rewrite <- Hm, Hparse, Hget. discriminate. }
    apply in_map_iff in Hedge. destruct Hedge as [e [Hrel He]].
    exists e. split.
    + apply Hlinks. split; [assumption|]. apply Hids. now rewrite Hrel.
    + destruct (LinkOK_ends _ _ (Hall e He))
        as (relation & Hget' & Hs & Hd & Hsid & Hdid).
      rewrite Hrel, Hget in Hget'. injection Hget' as <-.
      destruct Hk as [Hk|Hk]; [left|right];
        apply (In_same_key Node.id (nodes (build ts rels))); auto;
        congruence.
  - intros [Hnode [e [He Hend]]]. split; [assumption|].
    apply Hlinks in He. destruct He as [He Href].
    destruct (LinkOK_ends _ _ (Hall e He))
      as (relation & Hget & _ & _ & Hsid & Hdid).
    exists (Link.relationId e), relation.
    split; [now apply Hids|]. split; [assumption|].
    destruct Hend as [<-|<-]; auto.
Qed.

Lemma X11_witness :
  exists gd,
    getDataByTenant (Some "x") (builtWorld sampleTags sampleRelations)
    = Normal gd (builtWorld sampleTags sampleRelations)
    /\ (forall e,
           In e (gd_links gd)
           <-> In e (links (build sampleTags sampleRelations))
               /\ referencedBy sampleTags "x" (Link.relationId e))
    /\ (forall node,
           In node (gd_nodes gd)
           <-> In node (nodes (build sampleTags sampleRelations))
               /\ exists e, In e (gd_links gd)
                            /\ (Link.source e = node \/ Link.target e = node)).
Proof.
  apply (X11_tenant_view_exact sampleTags sampleRelations "x"). discriminate.
Defined.

Lemma filter_none {A} (f : A -> bool) (l : list A) :
  (forall a, In a l -> f a = false) -> filter f l = [].
Proof.
  induction l as [|a l IH]; simpl; intros H; [reflexivity|].
  rewrite (H a (or_introl eq_refl)). apply IH. intros b Hb. apply H. now right.
Qed.

(** X12. For a non-empty tenant id that no non-deleted tag carries,
    [getDataByTenant] returns no node and no link, whatever the state of
    the object; the colour map is still the full one. *)
Theorem X12_unknown_tenant_view_empty (x : string) (w : World) :
  x <> "" ->
  (forall tag, In tag (tags (this w)) -> Tag.is_deleted tag = false ->
               Tag.tenant_id tag <> x) ->
  getDataByTenant (Some x) w
  = Normal (mkGraphData [] [] (colorMap (this w))) w.
Proof.
  intros Hx Hnone.
  destruct (getDataByTenant_exact x w Hx)
    as (ids & tables & Hrun & Hids & Htables).
  assert (forall n, ~ In n ids) as Hempty.
  { intros n Hn. apply Hids in Hn.
    destruct Hn as (tag & s & Htag & Hdel & Hten & _). eapply Hnone; eauto. }
  rewrite Hrun. f_equal. f_equal.
  - apply filter_none. intros node _.
    apply (mem_false_iff _ String.eqb_eq). intros Hk.
    apply Htables in Hk. destruct Hk as (n & r & Hn & _).
    exact (Hempty n Hn).
  - apply filter_none. intros e _.
    apply (mem_false_iff _ number_eqb_eq). apply Hempty.
Qed.

Lemma X12_witness :
  getDataByTenant (Some "y") (builtWorld sampleTags sampleRelations)
  = Normal
      (mkGraphData [] []
         (colorMap (this (builtWorld sampleTags sampleRelations))))
      (builtWorld sampleTags sampleRelations).
Proof.
  apply (X12_unknown_tenant_view_empty "y"
           (builtWorld sampleTags sampleRelations)).
  - discriminate.
  - vm_compute. intros tag [<-|[]] _. discriminate.
Defined.

(** ** The console is write-only *)

Lemma prefixConsole_app {A} (c1 c2 : Console) (r : Completion A) :
  prefixConsole c1 (prefixConsole c2 r) = prefixConsole (c1 ++ c2) r.
Proof. destruct r; simpl; now rewrite app_assoc. Qed.

Lemma appendOnly_at {A} (m : M A) (w : World) :
  appendOnly m ->
  m w = prefixConsole (console w) (m (mkWorld (this w) [])).
Proof. intros H. destruct w as [d c]. apply H. Qed.

Lemma appendOnly_ret {A} (a : A) : appendOnly (ret a).
Proof. intros d c. simpl. now rewrite app_nil_r. Qed.

Lemma appendOnly_throw {A} (e : Error) : appendOnly (@throw A e).
Proof. intros d c. simpl. now rewrite app_nil_r. Qed.

Lemma appendOnly_gets {A} (f : DataProcessor -> A) : appendOnly (gets f).
Proof. intros d c. simpl. now rewrite app_nil_r. Qed.

Lemma appendOnly_modify (f : DataProcessor -> DataProcessor) :
  appendOnly (modify f).
Proof. intros d c. simpl. now rewrite app_nil_r. Qed.

Lemma appendOnly_consoleWrite (l : Level) (m : Message) :
  appendOnly (consoleWrite l m).
Proof. intros d c. reflexivity. Qed.

Lemma appendOnly_bind {A B} (m : M A) (k : A -> M B) :
  appendOnly m -> (forall a, appendOnly (k a)) -> appendOnly (bind m k).
Proof.
  intros Hm Hk d c. unfold bind. rewrite (Hm d c).
  destruct (m (mkWorld d [])) as [a w'|e w']; simpl; [|reflexivity].
  rewrite (Hk a (this w') (c ++ console w')).
  rewrite (appendOnly_at (k a) w' (Hk a)).
  now rewrite prefixConsole_app.
Qed.

Lemma appendOnly_tryCatch {A} (m : M A) (h : Error -> M A) :
  appendOnly m -> (forall e, appendOnly (h e)) -> appendOnly (tryCatch m h).
Proof.
  intros Hm Hh d c. unfold tryCatch. rewrite (Hm d c).
  destruct (m (mkWorld d [])) as [a w'|e w']; simpl; [reflexivity|].
  rewrite (Hh e (this w') (c ++ console w')).
  rewrite (appendOnly_at (h e) w' (Hh e)).
  now rewrite prefixConsole_app.
Qed.

Lemma appendOnly_forEach {A} (a : list A) (f : A -> M unit) :
  (forall x, appendOnly (f x)) -> appendOnly (forEach a f).
Proof.
  intros Hf. induction a as [|x a IH]; simpl.
  - apply appendOnly_ret.
  - apply appendOnly_bind; auto.
Qed.

Lemma appendOnly_forEachWith {A L} (a : list A) (f : A -> L -> M L) :
  (forall x l, appendOnly (f x l)) ->
  forall l, appendOnly (forEachWith a f l).
Proof.
  intros Hf. induction a as [|x a IH]; intros l; simpl.
  - apply appendOnly_ret.
  - apply appendOnly_bind; auto.
Qed.

Lemma appendOnly_forEachIndexed {A} (a : list A) (f : A -> nat -> M unit) :
  (forall x i, appendOnly (f x i)) ->
  forall i, appendOnly (forEachIndexed a i f).
Proof.
  intros Hf. induction a as [|x a IH]; intros i; simpl.
  - apply appendOnly_ret.
  - apply appendOnly_bind; auto.
Qed.

Ltac append_only :=
  repeat first
    [ apply appendOnly_ret
    | apply appendOnly_throw
    | apply appendOnly_gets
    | apply appendOnly_modify
    | apply appendOnly_consoleWrite
    | apply appendOnly_forEach
    | apply appendOnly_forEachWith
    | apply appendOnly_forEachIndexed
    | apply appendOnly_bind
    | apply appendOnly_tryCatch
    | match goal with
      | |- appendOnly (if ?b then _ else _) => destruct b
      | |- appendOnly (match ?x with _ => _ end) => destruct x
      | |- appendOnly _ => fail 1
      | |- _ => intro
      end ].

Lemma appendOnly_linkBody (tag : Tag.t) (rid : string) (loc : Locals) :
  appendOnly (linkBody tag rid loc).
Proof.
  unfold linkBody, set_links. cbv zeta. append_only.
Qed.

Lemma appendOnly_tagBody (tag : Tag.t) (loc : Locals) :
  appendOnly (tagBody tag loc).
Proof. unfold tagBody. append_only. apply appendOnly_linkBody. Qed.

Lemma appendOnly_buildLinks : appendOnly buildLinks.
Proof.
  unfold buildLinks, set_links. append_only. apply appendOnly_tagBody.
Qed.

Lemma appendOnly_pushRelation (table : string) (relationId : Z)
    (nodeMap : JS.Map string Node.t) :
  appendOnly (pushRelation table relationId nodeMap).
Proof. unfold pushRelation. append_only. Qed.

Lemma appendOnly_buildNodes : appendOnly buildNodes.
Proof.
  unfold buildNodes, set_nodes. append_only; apply appendOnly_pushRelation.
Qed.

Lemma appendOnly_processData : appendOnly processData.
Proof.
  unfold processData. append_only;
    first [apply appendOnly_pushRelation|apply appendOnly_tagBody].
Qed.

(** ** Running the builder again, and [loadData] *)

Lemma processData_as_buildLinks (w : World) :
  processData w = buildLinks (preparedWorld w).
Proof.
  unfold processData.
  unfold bind at 1. unfold gets at 1.
  unfold bind at 1. unfold consoleWrite at 1.
  unfold bind at 1. rewrite relationMap_loop_run. cbn [this console].
  unfold bind at 1. unfold gets at 1. cbn [this console].
  unfold bind at 1. unfold consoleWrite at 1. cbn [this console].
  unfold bind at 1. unfold consoleWrite at 1. cbn [this console].
  unfold bind at 1. rewrite assignColors_run. cbn [this console].
  unfold bind at 1. rewrite buildNodes_exact. reflexivity.
Qed.

Lemma buildLinks_resets (w1 w2 : World) :
  with_links [] (this w1) = with_links [] (this w2) ->
  console w1 = console w2 ->
  buildLinks w1 = buildLinks w2.
Proof.
  destruct w1 as [d1 c1], w2 as [d2 c2]. simpl. intros Hd ->.
  change (buildLinks (mkWorld d1 c2))
    with (bind (ret tt)
            (fun _ => ts <- gets tags ;;
                      consoleWrite LOG (MsgBuildLinksStart (List.length ts)) ;;
                      _ <- forEachWith ts tagBody (mkLocals [] []) ;;
                      ret tt)
            (mkWorld (with_links [] d1) c2)).
  rewrite Hd. reflexivity.
Qed.

Lemma map_ext_keys {K V} (eqb : K -> K -> bool)
    (eqb_eq : forall a b, eqb a b = true <-> a = b) (m1 m2 : JS.Map K V) :
  JS.keys m1 = JS.keys m2 -> NoDup (JS.keys m1) ->
  (forall k, In k (JS.keys m1) -> JS.get eqb k m1 = JS.get eqb k m2) ->
  m1 = m2.
Proof.
  revert m2. induction m1 as [|[k v] m1 IH]; intros [|[k' v'] m2]; simpl;
    intros Hkeys Hnd Hget; try discriminate; [reflexivity|].
  injection Hkeys as <- Hkeys. inversion Hnd as [|? ? Hk Hnd']; subst.
  pose proof (Hget k (or_introl eq_refl)) as Hv.
  rewrite (eqb_refl_K _ eqb_eq) in Hv. injection Hv as <-.
  f_equal. apply IH; auto.
  intros x Hx. specialize (Hget x (or_intror Hx)).
  destruct (eqb x k) eqn:E; [|assumption].
  apply eqb_eq in E. subst x. contradiction.
Qed.

Lemma fold_add_members (l : list JS.number) (s : JS.SetOf JS.number) :
  incl l s -> fold_left (fun s k => JS.add JS.number_eqb k s) l s = s.
Proof.
  induction l as [|x l IH]; simpl; intros Hincl; [reflexivity|].
  unfold JS.add at 2.
  rewrite (proj2 (mem_true_iff _ number_eqb_eq x s) (Hincl x (or_introl eq_refl))).
  apply IH. intros y Hy. apply Hincl. now right.
Qed.

(** Filling the relation map twice from the same relations changes
    nothing. *)
Lemma relationMapFrom_again (rels : list Relation.t) :
  relationMapFrom rels (relationMapFrom rels []) = relationMapFrom rels [].
Proof.
  assert (JS.keys (relationMapFrom rels [])
          = JS.setFrom JS.number_eqb
              (map (fun r => JS.Num (Relation.id r)) rels)) as Hkeys.
  { now rewrite keys_relationMapFrom. }
  apply (map_ext_keys _ number_eqb_eq).
  - rewrite (keys_relationMapFrom rels (relationMapFrom rels [])).
    apply fold_add_members. intros k Hk. rewrite Hkeys.
    now apply (In_setFrom _ number_eqb_eq).
  - rewrite (keys_relationMapFrom rels (relationMapFrom rels [])).
    rewrite fold_add_members.
    + rewrite Hkeys. apply (NoDup_setFrom _ number_eqb_eq).
    + intros k Hk. rewrite Hkeys. now apply (In_setFrom _ number_eqb_eq).
  - intros [|i|n] _.
    + destruct (JS.get JS.number_eqb JS.NaN
                  (relationMapFrom rels (relationMapFrom rels []))) eqn:E.
      * apply get_relationMapFrom in E. destruct E as [E|[_ E]];
          [|discriminate].
        rewrite get_NaN_relationMapFrom in E. discriminate.
      * now rewrite get_NaN_relationMapFrom.
    + destruct (JS.get JS.number_eqb (JS.Infinity i)
                  (relationMapFrom rels (relationMapFrom rels []))) eqn:E.
      * apply get_relationMapFrom in E. destruct E as [E|[_ E]];
          [|discriminate].
        rewrite get_Infinity_relationMapFrom in E. discriminate.
      * now rewrite get_Infinity_relationMapFrom.
    + rewrite !get_relationMapFrom_last. simpl.
      now destruct (find _ (rev rels)).
Qed.

Lemma builtWorld_eta (ts : list Tag.t) (rels : list Relation.t) :
  builtWorld ts rels
  = mkWorld (build ts rels) (console (builtWorld ts rels)).
Proof. unfold build. now destruct (builtWorld ts rels). Qed.

Lemma processData_on_built (ts : list Tag.t) (rels : list Relation.t) :
  processData (mkWorld (build ts rels) [])
  = Normal tt (builtWorld ts rels).
Proof.
  rewrite <- (processData_total ts rels).
  rewrite (processData_as_buildLinks (mkWorld (build ts rels) [])).
  rewrite (processData_as_buildLinks (loadedWorld ts rels)).
  destruct (build_inputs ts rels) as (Ht & Hr & Hc & Hm).
  assert (paintOver (distinct String.eqb (map Tag.tag_name ts)) 0
            (paint (distinct String.eqb (map Tag.tag_name ts)) 0)
          = paintOver (distinct String.eqb (map Tag.tag_name ts)) 0 [])
    as Hpaint.
  { rewrite paintOver_same.
    - rewrite (paintOver_fresh _ 0 []);
        [reflexivity|apply (NoDup_distinct _ String.eqb_eq)|reflexivity].
    - intros i name Hi.
      apply get_paint; [apply (NoDup_distinct _ String.eqb_eq)|assumption]. }
  apply buildLinks_resets; unfold preparedWorld, loadedWorld, with_links;
    cbn [this console tags relations nodes links colorMap relationMap];
    rewrite ?Ht, ?Hr, ?Hc, ?Hm, ?relationMapFrom_again, ?Hpaint;
    reflexivity.
Qed.

(** X13. Running [processData] a second time on the built object rebuilds
    exactly the same model (tags, relations, nodes, links, colour map and
    relation map are as after the first run), without throwing, and writes
    the console lines of the first run once more after them. *)
Theorem X13_processData_again (ts : list Tag.t) (rels : list Relation.t) :
  processData (builtWorld ts rels)
  = Normal tt
      (mkWorld (build ts rels)
         (console (builtWorld ts rels) ++ console (builtWorld ts rels))).
Proof.
  rewrite (builtWorld_eta ts rels) at 1.
  rewrite (appendOnly_processData (build ts rels)).
  rewrite processData_on_built. reflexivity.
Qed.

Lemma warnings_only (rm : JS.Map JS.number Relation.t) (l : list string)
    (entry : Level * Message) :
  In entry (flat_map (warningsOf rm) l) -> fst entry = WARN.
Proof.
  intros H. apply in_flat_map in H. destruct H as [s [_ H]].
  unfold warningsOf in H. destruct (JS.has _ _ rm); [destruct H|].
  destruct H as [<-|[<-|[]]]; reflexivity.
Qed.

(** X14. When both payloads load and parse, [loadData] on a new object does
    not throw; it resolves with the nodes, links and colour map of the built
    model together with the two arrays, leaves the object holding that
    model, so that [getAllData] returns the same nodes, links and colour
    map, and writes no error line. *)
Theorem X14_loadData_success (ts : list Tag.t) (rels : list Relation.t) :
  exists w,
    loadData (Json ts) (Json rels) initialWorld
    = Normal
        (mkLoadedData (nodes (build ts rels)) (links (build ts rels))
           (colorMap (build ts rels)) ts rels)
        w
    /\ this w = build ts rels
    /\ getAllData w
       = Normal
           (mkGraphData (nodes (build ts rels)) (links (build ts rels))
              (colorMap (build ts rels)))
           w
    /\ forall entry, In entry (console w) -> fst entry <> ERROR.
Proof.
  destruct (build_inputs ts rels) as (Ht & Hr & _).
  eexists. split; [|split; [|split]].
  - unfold loadData, tryCatch.
    unfold bind at 1. unfold consoleWrite at 1.
    unfold bind at 1. unfold awaitJson at 1. unfold ret at 1.
    unfold bind at 1. unfold set_tags, modify at 1.
    unfold bind at 1. unfold consoleWrite at 1.
    unfold bind at 1. unfold consoleWrite at 1.
    unfold bind at 1. unfold awaitJson at 1. unfold ret at 1.
    unfold bind at 1. unfold set_relations, modify at 1.
    unfold bind at 1. unfold consoleWrite at 1.
    cbn [this console initialWorld newDataProcessor with_tags with_relations
         tags relations nodes links colorMap relationMap app].
    unfold bind at 1.
    rewrite (appendOnly_processData (mkDataProcessor ts rels [] [] [] [])).
    fold (loadedWorld ts rels). rewrite processData_total.
    cbn [prefixConsole]. fold (build ts rels).
    unfold bind, gets, ret. cbn [this]. rewrite Ht, Hr. reflexivity.
  - reflexivity.
  - reflexivity.
  - cbn [console]. intros entry Hin Herr.
    apply in_app_iff in Hin. destruct Hin as [Hin|Hin].
    + simpl in Hin.
      destruct Hin as [<-|[<-|[<-|[<-|[]]]]]; discriminate.
    + assert (In entry (filter isDiagnostic (console (builtWorld ts rels))))
        as Hd.
      { apply filter_In. split; [assumption|].
        unfold isDiagnostic. now rewrite Herr. }
      rewrite (proj2 (build_trace ts rels)) in Hd.
      apply warnings_only in Hd. congruence.
Qed.

(** ** Search by tag id *)

Lemma existsb_number_In (n : JS.number) (l : list JS.number) :
  existsb (JS.number_eqb n) l = true <-> In n l.
Proof. apply (mem_true_iff _ number_eqb_eq). Qed.

(** X15. [searchAndHighlight] on a renderer with a data processor and a
    drawn graph: when no non-deleted tag has the searched id, nothing is
    restyled and the "not found" message is shown; otherwise the link
    elements keep their data and order, a link gets the highlight style
    (red, width 3) exactly when its relation id is the parsed value of a
    [relation_ids] entry of a non-deleted tag with that id, and every other
    link gets the reset style. *)
Theorem X15_search_highlights_tagged_links (d : DataProcessor) (g : Scene)
    (tagId : string) :
  ((forall tag, In tag (tags d) -> Tag.tag_id tag = tagId ->
                Tag.is_deleted tag = true) ->
   searchAndHighlight (Some d) (Some g) tagId = TagNotFound tagId)
  /\ ((exists tag, In tag (tags d) /\ Tag.tag_id tag = tagId
                   /\ Tag.is_deleted tag = false) ->
      exists g',
        searchAndHighlight (Some d) (Some g) tagId = Highlighted g'
        /\ map fst (linkElements g') = map fst (linkElements g)
        /\ map fst (nodeElements g') = map fst (nodeElements g)
        /\ forall e style,
            In (e, style) (linkElements g') ->
            (taggedBy (tags d) tagId (Link.relationId e)
             /\ style = highlightLinkStyle)
            \/ (~ taggedBy (tags d) tagId (Link.relationId e)
                /\ style = resetLinkStyle)).
Proof.
  unfold searchAndHighlight. split.
  - intros Hnone. rewrite filter_none; [reflexivity|].
    intros tag Htag. destruct (String.eqb (Tag.tag_id tag) tagId) eqn:E;
      [|reflexivity].
    apply String.eqb_eq in E. now rewrite (Hnone tag Htag E).
  - intros [tag0 (Hin0 & Hid0 & Hdel0)].
    set (matching := filter _ (tags d)).
    assert (In tag0 matching) as Hm0.
    { apply filter_In. split; [assumption|].
      now rewrite Hid0, String.eqb_refl, Hdel0. }
    destruct matching as [|m ms] eqn:Hmatching; [destruct Hm0|].
    cbn [List.length Nat.eqb]. rewrite <- Hmatching. clear Hm0.
    eexists. split; [reflexivity|].
    unfold highlightEdgesByRelationIds. cbn [linkElements nodeElements].
    split; [|split].
    + rewrite !map_map. apply map_ext. intros [e st]. simpl.
      now destruct (existsb _ _).
    + rewrite map_map. reflexivity.
    + intros e style Hel. rewrite map_map in Hel.
      apply in_map_iff in Hel. destruct Hel as [[e0 st0] [Heq _]].
      cbn [fst] in Heq.
      assert (forall n,
                 existsb (JS.number_eqb n)
                   (fold_left
                      (fun s tag =>
                         fold_left
                           (fun s id =>
                              JS.add JS.number_eqb (JS.parseInt id) s)
                           (Tag.relation_ids tag) s)
                      matching [])
                 = true <-> taggedBy (tags d) tagId n) as Hids.
      { intros n. rewrite existsb_number_In, relationIds_outer_fold.
        unfold taggedBy, matching. split.
        - intros [[]|[tag [id [Ht [Hs Hp]]]]].
          apply filter_In in Ht. destruct Ht as [Ht Hc].
          apply andb_true_iff in Hc. destruct Hc as [He Hd].
          apply String.eqb_eq in He. apply negb_true_iff in Hd.
          exists tag, id. auto.
        - intros [tag [id (Ht & He & Hd & Hs & Hp)]].
          right. exists tag, id. split; [|auto].
          apply filter_In. split; [assumption|].
          now rewrite He, String.eqb_refl, Hd. }
      destruct (existsb _ _) eqn:E in Heq; injection Heq as <- <-.
      * left. split; [now apply Hids|reflexivity].
      * right. split; [|reflexivity]. intros Ht. apply Hids in Ht. congruence.
Qed.

Lemma X15_witness :
  exists g',
    searchAndHighlight (Some (build sampleTags sampleRelations))
      (Some sampleScene) "T1" = Highlighted g'
    /\ map fst (linkElements g') = map fst (linkElements sampleScene)
    /\ map fst (nodeElements g') = map fst (nodeElements sampleScene)
    /\ forall e style,
        In (e, style) (linkElements g') ->
        (taggedBy (tags (build sampleTags sampleRelations)) "T1"
           (Link.relationId e)
         /\ style = highlightLinkStyle)
        \/ (~ taggedBy (tags (build sampleTags sampleRelations)) "T1"
                (Link.relationId e)
            /\ style = resetLinkStyle).
Proof.
  apply (proj2 (X15_search_highlights_tagged_links
                  (build sampleTags sampleRelations) sampleScene "T1")).
  exists sampleTag. vm_compute. repeat split. left. reflexivity.
Defined.

(** ** Tag details *)

(** X16. Every tag name carried by a link of the built model resolves:
    [getTagDetails] returns for it a non-empty list, made of non-deleted
    tags of the dataset with that name, and the colour map gives the name a
    colour of the palette. *)
Theorem X16_link_tag_names_resolve (ts : list Tag.t) (rels : list Relation.t)
    (e : Link.t) (name : string) :
  In e (links (build ts rels)) -> In name (Link.tagNames e) ->
  exists tag others c,
    getTagDetails name (builtWorld ts rels)
    = Normal (tag :: others) (builtWorld ts rels)
    /\ (forall t, In t (tag :: others) ->
                  In t ts /\ Tag.tag_name t = name
                  /\ Tag.is_deleted t = false)
    /\ JS.get String.eqb name (colorMap (build ts rels)) = Some c
    /\ In c colors.
Proof.
  intros He Hname.
  destruct (build_summary ts rels)
    as (nodeMap & loc & _ & _ & _ & _ & _ & _ & _ & Hall).
  destruct (build_inputs ts rels) as (Ht & _ & Hc & _).
  rewrite Forall_forall in Hall.
  destruct (Hall e He) as (rid & relation & Hnew & _).
  rewrite Hnew in Hname. unfold newLink in Hname. simpl in Hname.
  rewrite Ht in Hname. apply in_map_iff in Hname.
  destruct Hname as [t0 [Hn0 Hrel0]].
  apply relatedTagsOf_inv in Hrel0. destruct Hrel0 as (Hin0 & Hdel0 & _).
  destruct (color_in_palette ts name) as [c [Hcol Hpal]].
  { rewrite <- Hn0. now apply in_map. }
  unfold getTagDetails, bind, gets, ret. fold (build ts rels). rewrite Ht.
  destruct (filter (fun tag => String.eqb (Tag.tag_name tag) name
                               && negb (Tag.is_deleted tag)) ts)
    as [|tag others] eqn:Hf.
  { exfalso.
    assert (In t0 (filter (fun tag => String.eqb (Tag.tag_name tag) name
                                      && negb (Tag.is_deleted tag)) ts)) as H.
    { apply filter_In. split; [assumption|].
      now rewrite Hn0, String.eqb_refl, Hdel0. }
    rewrite Hf in H. destruct H. }
  exists tag, others, c. split; [reflexivity|]. split.
  - intros t Hin. rewrite <- Hf in Hin. apply filter_In in Hin.
    destruct Hin as [Hin Hcond]. apply andb_true_iff in Hcond.
    destruct Hcond as [Hn Hd].
    apply String.eqb_eq in Hn. apply negb_true_iff in Hd. auto.
  - rewrite Hc. auto.
Qed.

Lemma X16_witness :
  exists tag others c,
    getTagDetails "a" (builtWorld sampleTags sampleRelations)
    = Normal (tag :: others) (builtWorld sampleTags sampleRelations)
    /\ (forall t, In t (tag :: others) ->
                  In t sampleTags /\ Tag.tag_name t = "a"
                  /\ Tag.is_deleted t = false)
    /\ JS.get String.eqb "a" (colorMap (build sampleTags sampleRelations))
       = Some c
    /\ In c colors.
Proof.
  apply (X16_link_tag_names_resolve sampleTags sampleRelations sampleLink "a").
  - vm_compute. left. reflexivity.
  - left. reflexivity.
Defined.

(** ** The entry a link is created from *)

Lemma FirstInv_step (w0 : World) :
  nodesCover (this w0) ->
  forall done rid loc w loc' w',
    FirstInv w0 done loc w -> LinkStep rid loc w loc' w' ->
    FirstInv w0 (done ++ [rid]) loc' w'.
Proof.
  intros Hcover done rid loc w loc' w' (Hinv & Hfirst) Hstep.
  split; [eapply LinksInv_step; eauto|].
  assert (Forall
            (fun e =>
               exists pre rid0 post relation,
                 done ++ [rid] = pre ++ rid0 :: post
                 /\ (forall s, In s pre -> JS.parseInt s <> JS.parseInt rid0)
                 /\ e = newLink (this w0) rid0 relation (Link.source e)
                          (Link.target e) (Link.offset e))
            (links (this w))) as Hold.
  { eapply Forall_impl; [|exact Hfirst].
    intros e (pre & rid0 & post & relation & Hdone & Hpre & He).
    exists pre, rid0, (post ++ [rid]), relation.
    split; [|auto]. rewrite Hdone, <- app_assoc. reflexivity. }
  destruct Hinv as (Hsame & _ & _ & _ & Hcomplete).
  destruct Hsame as (Ht & _ & _ & Hc & Hm).
  destruct Hstep as [Hmem|Hmem Hget|relation Hmem Hget Hfind
                    |relation srcNode dstNode offset counts
                       Hmem Hget Hsrc Hdst Hrel Hoff]; try exact Hold.
  cbn [this links with_links].
  apply Forall_app. split; [exact Hold|]. constructor; [|constructor].
  exists done, rid, [], relation. split; [reflexivity|]. split.
  - intros s Hs Heq.
    apply (mem_false_iff _ number_eqb_eq) in Hmem. apply Hmem.
    rewrite <- Heq. apply Hcomplete; [assumption|].
    rewrite Heq, <- Hm, Hget. discriminate.
  - simpl. apply newLink_sameInputs; auto.
Qed.

(** X18. Every link of the built model is created from one [relation_ids]
    entry of a non-deleted tag: the first entry, in the order the tags and
    their entries are visited, that parses to the link's relation id.  The
    link's [tagNames] and [tagIds] are those of the non-deleted tags whose
    [relation_ids] include that very string, in tag order, and its colour is
    the colour of the first of them. *)
Theorem X18_link_from_first_entry (ts : list Tag.t) (rels : list Relation.t)
    (e : Link.t) :
  In e (links (build ts rels)) ->
  exists pre rid post primaryTag others,
    flat_map (fun t => if Tag.is_deleted t then [] else Tag.relation_ids t) ts
    = pre ++ rid :: post
    /\ (forall s, In s pre -> JS.parseInt s <> Link.relationId e)
    /\ JS.parseInt rid = Link.relationId e
    /\ filter (fun t => negb (Tag.is_deleted t)
                        && JS.includes rid (Tag.relation_ids t)) ts
       = primaryTag :: others
    /\ Link.tagNames e = map Tag.tag_name (primaryTag :: others)
    /\ Link.tagIds e = map Tag.tag_id (primaryTag :: others)
    /\ Link.color e
       = JS.get String.eqb (Tag.tag_name primaryTag) (colorMap (build ts rels)).
Proof.
  intros He.
  destruct (build_summary ts rels)
    as (nodeMap & loc & _ & _ & _ & Hsteps & Hsame & Hcover & _).
  set (w0 := startWorld ts rels nodeMap) in *.
  assert (nodesCover (this w0)) as Hcover0.
  { destruct Hsame as (_ & _ & Hn & _ & Hm).
    intros k relation Hget. rewrite <- Hm in Hget. rewrite <- Hn.
    apply (Hcover _ _ Hget). }
  assert (FirstInv w0 (visited ts) loc (builtWorld ts rels))
    as (_ & Hfirst).
  { apply (LinkSteps_history (FirstInv w0) (FirstInv_step w0 Hcover0)
             (visited ts) [] _ _ _ _ Hsteps).
    split; [|constructor].
    split; [apply sameInputs_refl|]. simpl.
    repeat split; try constructor. intros s []. }
  rewrite Forall_forall in Hfirst.
  destruct (Hfirst e He) as (pre & rid & post & relation & Hdone & Hpre & Hnew).
  destruct (build_inputs ts rels) as (_ & _ & Hc & _).
  assert (In rid (visited ts)) as Hrid.
  { rewrite Hdone. apply in_app_iff. right. now left. }
  unfold visited in Hrid. apply in_flat_map in Hrid.
  destruct Hrid as [tag [Htag Hrid]].
  destruct (Tag.is_deleted tag) eqn:Hdel; [destruct Hrid|].
  pose proof (relatedTagsOf_own ts tag rid Htag Hdel Hrid) as Hown.
  destruct (relatedTagsOf ts rid) as [|primaryTag others] eqn:Hrelated;
    [destruct Hown|].
  exists pre, rid, post, primaryTag, others.
  fold (visited ts). fold (relatedTagsOf ts rid).
  rewrite Hnew. unfold newLink. cbn [this w0 startWorld tags colorMap].
  rewrite Hrelated, Hc. simpl.
  repeat split; auto.
Qed.

Lemma X18_witness :
  exists pre rid post primaryTag others,
    flat_map (fun t => if Tag.is_deleted t then [] else Tag.relation_ids t)
      paddedTags
    = pre ++ rid :: post
    /\ (forall s, In s pre ->
                  JS.parseInt s
                  <> Link.relationId
                       (Link.mk "relation-1"
                          (Node.mk "orders" "orders" "table" [1%Z])
                          (Node.mk "customers" "customers" "table" [1%Z])
                          (JS.Num 1) ["T1"] ["a"] (Some "#FF6B6B")
                          "ONE_TO_MANY" JNull JNull "s.orders" "s.customers"
                          0))
    /\ JS.parseInt rid = JS.Num 1
    /\ filter (fun t => negb (Tag.is_deleted t)
                        && JS.includes rid (Tag.relation_ids t)) paddedTags
       = primaryTag :: others
    /\ ["a"] = map Tag.tag_name (primaryTag :: others)
    /\ ["T1"] = map Tag.tag_id (primaryTag :: others)
    /\ Some "#FF6B6B"
       = JS.get String.eqb (Tag.tag_name primaryTag)
           (colorMap (build paddedTags oneRelation)).
Proof.
  apply (X18_link_from_first_entry paddedTags oneRelation
           (Link.mk "relation-1"
              (Node.mk "orders" "orders" "table" [1%Z])
              (Node.mk "customers" "customers" "table" [1%Z])
              (JS.Num 1) ["T1"] ["a"] (Some "#FF6B6B")
              "ONE_TO_MANY" JNull JNull "s.orders" "s.customers" 0)).
  vm_compute. left. reflexivity.
Defined.

(** X17. When no bare table name of the relations contains a hyphen, the
    offset of every link of the built model is the number of links before
    it that join the same two nodes, in either direction: on each pair of
    nodes the offsets are 0, 1, 2, ... in the order of the links. *)
Theorem X17_offsets_without_hyphen (ts : list Tag.t)
    (rels : list Relation.t) (l1 l2 : list Link.t) (e : Link.t) :
  hyphenFreeTables rels = true ->
  links (build ts rels) = l1 ++ e :: l2 ->
  Link.offset e
  = List.length
      (filter
         (fun e' =>
            samePair (Node.id (Link.source e)) (Node.id (Link.target e))
              (Node.id (Link.source e')) (Node.id (Link.target e')))
         l1).
Proof.
  intros Hfree Heq.
  exact (offsets_contiguous_without_hyphen ts rels Hfree l1 e l2 Heq).
Qed.

Lemma X17_witness :
  Link.offset
    (Link.mk "relation-2"
       (Node.mk "orders" "orders" "table" [1%Z; 2%Z])
       (Node.mk "customers" "customers" "table" [1%Z; 2%Z])
       (JS.Num 2) ["T1"] ["a"] (Some "#FF6B6B")
       "ONE_TO_ONE" JNull JNull "s.orders" "s.customers" 1)
  = List.length
      (filter
         (fun e' =>
            samePair "orders" "customers"
              (Node.id (Link.source e')) (Node.id (Link.target e')))
         [sampleLink]).
Proof.
  apply (X17_offsets_without_hyphen sampleTags sampleRelations
           [sampleLink]
           []
           (Link.mk "relation-2"
              (Node.mk "orders" "orders" "table" [1%Z; 2%Z])
              (Node.mk "customers" "customers" "table" [1%Z; 2%Z])
              (JS.Num 2) ["T1"] ["a"] (Some "#FF6B6B")
              "ONE_TO_ONE" JNull JNull "s.orders" "s.customers" 1));
    vm_compute; reflexivity.
Defined.
